(** * ReactPy core: hooks, VDOM construction and the layout renderers

    A shallow embedding of

    - [src/reactpy/core/hooks.py]  ([strictly_equal], [use_state]'s
      [_CurrentState.dispatch], [use_memo], [use_effect], [use_async_effect],
      [run_effect_cleanup]),
    - [src/reactpy/core/vdom.py]   ([Vdom.__call__] and its helpers),
    - [idom/core/render.py]        ([SingleStateRenderer], [SharedStateRenderer]),

    followed by the properties established about them. *)

From Stdlib Require Import ZArith QArith Ascii String.
From stdpp Require Import gmap strings list fin_maps.

Local Open Scope Z_scope.
Local Open Scope string_scope.
Local Open Scope list_scope.

(* ===================================================================== *)
(** * Python values *)
(* ===================================================================== *)

Module Py.

Global Instance byte_eq_dec : EqDecision Byte.byte := Byte.byte_eq_dec.

(** IEEE doubles, as far as [==] can tell them apart: not-a-number, the two
    infinities, and the finite values [m * 2^e] (the two zeros compare equal,
    so the sign of zero is not kept). *)
Inductive pyfloat :=
| FNan
| FInf (negative : bool)
| FDyadic (m e : Z).

(** The constants a code object's [co_consts] holds (nested tuples and code
    objects are left out). *)
Inductive konst :=
| KNone
| KBool (b : bool)
| KInt (n : Z)
| KStr (s : string)
| KBytes (b : list Byte.byte).

(** The attributes of a code object that [dir] lists with the prefix [co_]
    (CPython 3.11 and later).  [co_lines] and [co_positions] are methods; their
    field holds the table the method would enumerate. *)
Record code := Code {
  co_argcount : Z;
  co_cellvars : list string;
  co_code : list Byte.byte;
  co_consts : list konst;
  co_exceptiontable : list Byte.byte;
  co_filename : string;
  co_firstlineno : Z;
  co_flags : Z;
  co_freevars : list string;
  co_kwonlyargcount : Z;
  co_lines : list (Z * Z * Z);
  co_linetable : list Byte.byte;
  co_lnotab : list Byte.byte;
  co_name : string;
  co_names : list string;
  co_nlocals : Z;
  co_positions : list (Z * Z * Z * Z);
  co_posonlyargcount : Z;
  co_qualname : string;
  co_stacksize : Z;
  co_varnames : list string
}.

(** What [type(x).__eq__] does for an instance of a user class.  A user
    [__eq__] need not be reflexive: [EqAnswers false] is one that finds its
    object equal to nothing, itself included (as [Decimal('NaN')] does).  An
    [__eq__] whose result is not a [bool] (an array) is outside these
    objects. *)
Inductive eq_kind :=
| EqInherited          (* object.__eq__: identity *)
| EqByFields           (* dataclass style: same class and equal fields *)
| EqRaises             (* a user __eq__ that raises an Exception *)
| EqAnswers (b : bool). (* a user __eq__ that returns [b] *)

(** A Python object: its identity (what [id] returns, what [is] compares) and
    its content. *)
Inductive pyval : Type :=
| Obj (addr : nat) (body : shape)
with shape : Type :=
| SNone
| SBool (b : bool)
| SInt (n : Z)
| SFloat (f : pyfloat)
| SComplex (re im : pyfloat)
| SStr (s : string)
| SBytes (b : list Byte.byte)
| SByteArray (b : list Byte.byte)
| SMemoryView (b : list Byte.byte)
| STuple (items : list pyval)
| SList (items : list pyval)
| SFunction (qualname : string) (c : code)
| SInstance (cls : string) (eqk : eq_kind) (fields : list pyval).

Definition addr_of (v : pyval) : nat := match v with Obj a _ => a end.
Definition body_of (v : pyval) : shape := match v with Obj _ b => b end.

(** [type(x)] *)
Inductive pytype :=
| TNoneType | TBoolT | TIntT | TFloatT | TComplexT | TStrT | TBytesT
| TByteArrayT | TMemoryViewT | TTupleT | TListT | TFunctionT
| TClass (name : string).

Global Instance pytype_eq_dec : EqDecision pytype.
Proof. solve_decision. Defined.

Definition type_of_shape (s : shape) : pytype :=
  match s with
  | SNone => TNoneType
  | SBool _ => TBoolT
  | SInt _ => TIntT
  | SFloat _ => TFloatT
  | SComplex _ _ => TComplexT
  | SStr _ => TStrT
  | SBytes _ => TBytesT
  | SByteArray _ => TByteArrayT
  | SMemoryView _ => TMemoryViewT
  | STuple _ => TTupleT
  | SList _ => TListT
  | SFunction _ _ => TFunctionT
  | SInstance cls _ _ => TClass cls
  end.

Definition type_of (v : pyval) : pytype := type_of_shape (body_of v).

(** [x is y] *)
Definition py_is (x y : pyval) : bool := Nat.eqb (addr_of x) (addr_of y).

(** ** The [==] operator *)

Definition float_eq (a b : pyfloat) : bool :=
  match a, b with
  | FNan, _ | _, FNan => false
  | FInf s, FInf t => Bool.eqb s t
  | FInf _, FDyadic _ _ | FDyadic _ _, FInf _ => false
  | FDyadic m e, FDyadic n f =>
      if Z.leb e f then Z.eqb m (n * 2 ^ (f - e)) else Z.eqb (m * 2 ^ (e - f)) n
  end.

Definition float_of_Z (n : Z) : pyfloat := FDyadic n 0.

(** The numeric tower: a bool, int, float or complex as a complex number. *)
Definition as_complex (s : shape) : option (pyfloat * pyfloat) :=
  match s with
  | SBool b => Some (float_of_Z (if b then 1 else 0), float_of_Z 0)
  | SInt n => Some (float_of_Z n, float_of_Z 0)
  | SFloat f => Some (f, float_of_Z 0)
  | SComplex re im => Some (re, im)
  | _ => None
  end.

(** bytes, bytearray and memoryview compare by content with each other. *)
Definition as_buffer (s : shape) : option (list Byte.byte) :=
  match s with
  | SBytes b | SByteArray b | SMemoryView b => Some b
  | _ => None
  end.

Definition raises_on_eq (s : shape) : bool :=
  match s with SInstance _ EqRaises _ => true | _ => false end.

Definition answer_on_eq (s : shape) : option bool :=
  match s with SInstance _ (EqAnswers b) _ => Some b | _ => None end.

(** [x == y]; [None] when the comparison raises an Exception.  An item pair
    of two sequences is equal when it is the same object or compares equal; a
    list compares the lengths before the items, a tuple after the items of
    the common prefix. *)
Fixpoint py_eq (x y : pyval) {struct x} : option bool :=
  let items_eq :=
    fix items_eq (xs ys : list pyval) {struct xs} : option bool :=
      match xs, ys with
      | [], [] => Some true
      | a :: xs', b :: ys' =>
          if py_is a b then items_eq xs' ys'
          else match py_eq a b with
               | Some true => items_eq xs' ys'
               | r => r
               end
      | _, _ => Some false
      end in
  let seq_eq (xs ys : list pyval) : option bool :=
    if Nat.eqb (length xs) (length ys) then items_eq xs ys else Some false in
  match x with
  | Obj ax sx =>
      match sx, body_of y with
      | SNone, SNone => Some true
      | STuple xs, STuple ys => items_eq xs ys
      | SList xs, SList ys => seq_eq xs ys
      | SStr s, SStr t => Some (String.eqb s t)
      | SInstance c EqRaises _, _ => None
      | SInstance c (EqAnswers b) _, _ => Some b
      | SInstance c EqByFields fs, SInstance d _ gs =>
          if String.eqb c d then seq_eq fs gs else Some (Nat.eqb ax (addr_of y))
      | _, sy =>
          match as_complex sx, as_complex sy with
          | Some (r1, i1), Some (r2, i2) => Some (float_eq r1 r2 && float_eq i1 i2)
          | _, _ =>
              match as_buffer sx, as_buffer sy with
              | Some b1, Some b2 => Some (bool_decide (b1 = b2))
              | _, _ =>
                  (* the reflected [__eq__] of [y], then identity *)
                  if raises_on_eq sy then None
                  else match answer_on_eq sy with
                       | Some b => Some b
                       | None => Some (Nat.eqb ax (addr_of y))
                       end
              end
          end
      end
  end.

(** ** Code objects: [dir] and [getattr] *)

(** The value of one attribute of a code object. *)
Inductive attr_value :=
| AInt (n : Z)
| AStr (s : string)
| ABytes (b : list Byte.byte)
| ANames (l : list string)
| AConsts (l : list konst)
| ALines (l : list (Z * Z * Z))
| APositions (l : list (Z * Z * Z * Z))
| AOther.

(** [dir(code)]: in sorted order, the attributes every object has (a few of
    them), those of code objects that start with [co_], and the two that
    start with an underscore. *)
Definition dir_code : list string :=
  [ "__class__"; "__eq__"; "__hash__"; "__repr__"; "__sizeof__";
    "_co_code_adaptive"; "_varname_from_oparg";
    "co_argcount"; "co_cellvars"; "co_code"; "co_consts"; "co_exceptiontable";
    "co_filename"; "co_firstlineno"; "co_flags"; "co_freevars";
    "co_kwonlyargcount"; "co_lines"; "co_linetable"; "co_lnotab"; "co_name";
    "co_names"; "co_nlocals"; "co_positions"; "co_posonlyargcount";
    "co_qualname"; "co_stacksize"; "co_varnames"; "replace" ].

Definition getattr_code (c : code) (attr : string) : attr_value :=
  if String.eqb attr "co_argcount" then AInt (co_argcount c)
  else if String.eqb attr "co_cellvars" then ANames (co_cellvars c)
  else if String.eqb attr "co_code" then ABytes (co_code c)
  else if String.eqb attr "co_consts" then AConsts (co_consts c)
  else if String.eqb attr "co_exceptiontable" then ABytes (co_exceptiontable c)
  else if String.eqb attr "co_filename" then AStr (co_filename c)
  else if String.eqb attr "co_firstlineno" then AInt (co_firstlineno c)
  else if String.eqb attr "co_flags" then AInt (co_flags c)
  else if String.eqb attr "co_freevars" then ANames (co_freevars c)
  else if String.eqb attr "co_kwonlyargcount" then AInt (co_kwonlyargcount c)
  else if String.eqb attr "co_lines" then ALines (co_lines c)
  else if String.eqb attr "co_linetable" then ABytes (co_linetable c)
  else if String.eqb attr "co_lnotab" then ABytes (co_lnotab c)
  else if String.eqb attr "co_name" then AStr (co_name c)
  else if String.eqb attr "co_names" then ANames (co_names c)
  else if String.eqb attr "co_nlocals" then AInt (co_nlocals c)
  else if String.eqb attr "co_positions" then APositions (co_positions c)
  else if String.eqb attr "co_posonlyargcount" then AInt (co_posonlyargcount c)
  else if String.eqb attr "co_qualname" then AStr (co_qualname c)
  else if String.eqb attr "co_stacksize" then AInt (co_stacksize c)
  else if String.eqb attr "co_varnames" then ANames (co_varnames c)
  else AOther.

(** [==] on constants: a bool is an int. *)
Definition konst_eq (a b : konst) : bool :=
  match a, b with
  | KNone, KNone => true
  | KBool p, KBool q => Bool.eqb p q
  | KBool p, KInt n | KInt n, KBool p => Z.eqb (if p then 1 else 0) n
  | KInt m, KInt n => Z.eqb m n
  | KStr s, KStr t => String.eqb s t
  | KBytes s, KBytes t => bool_decide (s = t)
  | _, _ => false
  end.

Fixpoint konsts_eq (xs ys : list konst) : bool :=
  match xs, ys with
  | [], [] => true
  | a :: xs', b :: ys' => konst_eq a b && konsts_eq xs' ys'
  | _, _ => false
  end.

(** [==] on two attribute values.  [co_lines] and [co_positions] are bound
    methods, equal only when bound to the same code object; a code object has
    no identity here, so two of them are taken to differ. *)
Definition attr_eq (a b : attr_value) : bool :=
  match a, b with
  | AInt m, AInt n => Z.eqb m n
  | AStr s, AStr t => String.eqb s t
  | ABytes s, ABytes t => bool_decide (s = t)
  | ANames s, ANames t => bool_decide (s = t)
  | AConsts s, AConsts t => konsts_eq s t
  | _, _ => false
  end.

(** [needle in hay] on str *)
Fixpoint contains (needle hay : string) : bool :=
  String.prefix needle hay ||
  match hay with
  | EmptyString => false
  | String _ rest => contains needle rest
  end.

(** [x.__qualname__] and [x.__code__]; [None] where [hasattr] is [False]. *)
Definition qualname_attr (x : pyval) : option string :=
  match body_of x with SFunction q _ => Some q | _ => None end.

Definition code_attr (x : pyval) : option code :=
  match body_of x with SFunction _ c => Some c | _ => None end.

(** [callable(x)] *)
Definition callable (x : pyval) : bool :=
  match body_of x with SFunction _ _ => true | _ => false end.


(** A code object with other line and position tables. *)
Definition with_line_metadata (c : code) (lines : list (Z * Z * Z))
    (linetable lnotab : list Byte.byte) (positions : list (Z * Z * Z * Z)) : code :=
  {| co_argcount := co_argcount c; co_cellvars := co_cellvars c;
     co_code := co_code c; co_consts := co_consts c;
     co_exceptiontable := co_exceptiontable c; co_filename := co_filename c;
     co_firstlineno := co_firstlineno c; co_flags := co_flags c;
     co_freevars := co_freevars c; co_kwonlyargcount := co_kwonlyargcount c;
     co_lines := lines; co_linetable := linetable; co_lnotab := lnotab;
     co_name := co_name c; co_names := co_names c; co_nlocals := co_nlocals c;
     co_positions := positions; co_posonlyargcount := co_posonlyargcount c;
     co_qualname := co_qualname c; co_stacksize := co_stacksize c;
     co_varnames := co_varnames c |}.

(** The code object of a lambda without arguments, written on a given line
    of a component [view]. *)
Definition lambda_code (line : Z) : code :=
  {| co_argcount := 0; co_cellvars := []; co_code := []; co_consts := [KNone];
     co_exceptiontable := []; co_filename := "app.py"; co_firstlineno := line;
     co_flags := 19; co_freevars := []; co_kwonlyargcount := 0; co_lines := [];
     co_linetable := []; co_lnotab := []; co_name := "<lambda>"; co_names := [];
     co_nlocals := 0; co_positions := []; co_posonlyargcount := 0;
     co_qualname := "view.<locals>.<lambda>"; co_stacksize := 1;
     co_varnames := [] |}.

End Py.

(* ===================================================================== *)
(** * hooks.py *)
(* ===================================================================== *)

Module Hooks.
Import Py.

(** ** [strictly_equal] *)

Definition excluded_code_attrs : list string :=
  [ "co_positions"; "co_linetable"; "co_lines"; "co_lnotab" ].

(** The attributes the generator expression of [strictly_equal] ranges over. *)
Definition compared_code_attrs : list string :=
  filter (fun attr => String.prefix "co_" attr = true /\ attr ∉ excluded_code_attrs)
         dir_code.

(** The first condition of the second [if]: [x] has [__qualname__], the name
    holds ["<lambda>"] or ["<locals>"], and [x] has [__code__]. *)
Definition is_local_callable (x : pyval) : bool :=
  match qualname_attr x with
  | Some q =>
      (contains "<lambda>" q || contains "<locals>" q)
      && bool_decide (is_Some (code_attr x))
  | None => false
  end.

Definition strictly_equal (x y : pyval) : bool :=
  (* Return early if the objects are not the same type *)
  if bool_decide (type_of x ≠ type_of y) then false
  (* Compare the source code of lambda and local functions *)
  else if is_local_callable x then
    match qualname_attr x, qualname_attr y, code_attr x, code_attr y with
    | Some qx, Some qy, Some cx, Some cy =>
        if negb (String.eqb qx qy) then false
        else forallb (fun attr => attr_eq (getattr_code cx attr) (getattr_code cy attr))
                     compared_code_attrs
    | _, _, _, _ => false   (* not reached: [y] has the type of [x] *)
    end
  (* Check via the == operator if possible: every object has __eq__ *)
  else match py_eq x y with
       | Some b => b
       (* the Exception is suppressed: fallback to identity check *)
       | None => py_is x y
       end.

(** ** [use_state]: [_CurrentState] and its [dispatch] *)

Module UseState.
Section Dispatch.

(** What calling a callable object returns: with no argument (the
    constructor function of an initial value) and with one (an updater
    applied to the stored value). *)
Variable call0 : pyval -> pyval.
Variable call1 : pyval -> pyval -> pyval.

(** The owning hook, as far as [dispatch] touches it: the calls of
    [schedule_render] made so far. *)
Record LifeCycleHook := { scheduled_renders : nat }.

Definition schedule_render (hook : LifeCycleHook) : LifeCycleHook :=
  {| scheduled_renders := S (scheduled_renders hook) |}.

Record _CurrentState := { value : pyval }.

(** [_CurrentState.__init__] *)
Definition init (initial_value : pyval) : _CurrentState :=
  if callable initial_value then {| value := call0 initial_value |}
  else {| value := initial_value |}.

(** [new(self.value) if callable(new) else new] *)
Definition next_value (new : pyval) (self : _CurrentState) : pyval :=
  if callable new then call1 new (value self) else new.

(** The closure [dispatch], on the cell and the hook it captures. *)
Definition dispatch (new : pyval) (st : _CurrentState * LifeCycleHook)
  : _CurrentState * LifeCycleHook :=
  let '(self, hook) := st in
  let next := next_value new self in
  if negb (strictly_equal next (value self))
  then ({| value := next |}, schedule_render hook)
  else (self, hook).

(** A sequence of dispatch calls, first to last. *)
Definition dispatch_all (news : list pyval) (st : _CurrentState * LifeCycleHook)
  : _CurrentState * LifeCycleHook :=
  foldl (fun st new => dispatch new st) st news.

(** What a call [dispatch(new)] proposes, in the words of the
    documentation of [use_state]: the argument itself, or, when the argument
    is callable, what it returns for the value stored when the call
    arrives. *)
Definition dispatched_value (current new : pyval) : pyval :=
  match callable new with
  | true => call1 new current
  | false => new
  end.

(** The dispatched values the equality policy judges different from the
    value stored when they arrive, in the order of arrival.  It is written
    from the arguments of the calls and does not go through [dispatch] or
    [next_value]. *)
Fixpoint accepted_changes (current : pyval) (news : list pyval) : list pyval :=
  match news with
  | [] => []
  | new :: rest =>
      if strictly_equal (dispatched_value current new) current
      then accepted_changes current rest
      else dispatched_value current new
             :: accepted_changes (dispatched_value current new) rest
  end.

End Dispatch.
End UseState.

(** ** [use_memo] *)

Module UseMemo.
Section Memo.

(** What the functions passed to the hooks may read and change. *)
Variable World : Type.

(** A callable taking no argument: whether it is a [FunctionType], the
    contents of its closure cells ([[]] when [__closure__] is [None]), and
    what calling it does. *)
Record Function := {
  is_FunctionType : bool;
  closure : list pyval;
  run : World -> pyval * World
}.

(** The [dependencies] argument: [...], [None], or a sequence. *)
Inductive Dependencies :=
| Ellipsis
| DepsNone
| Deps (values : list pyval).

Definition _try_to_infer_closure_values
    (func : option Function) (values : Dependencies) : option (list pyval) :=
  match values with
  | Ellipsis =>
      match func with
      | Some f => if is_FunctionType f then Some (closure f) else None
      | None => None
      end
  | DepsNone => None
  | Deps l => Some l
  end.

(** [_Memo]: two slots, each unset ([None]) until assigned. *)
Record _Memo := { value : option pyval; deps : option (list pyval) }.

(** What [_use_const(_Memo)] creates on the first render. *)
Definition new_Memo : _Memo := {| value := None; deps := None |}.

(** [_Memo.empty] *)
Definition empty (self : _Memo) : bool :=
  match value self with None => true | Some _ => false end.

(** [all(strictly_equal(current, new) for current, new in zip(...))] *)
Definition all_strictly_equal (current new : list pyval) : bool :=
  forallb (fun p => strictly_equal p.1 p.2) (zip current new).

(** The [if]/[elif] chain: whether the memo changed, and the memo after the
    assignment to [memo.deps].  [None]: reading an unset slot raised
    [AttributeError]. *)
Definition compare_deps (memo : _Memo) (dependencies : option (list pyval))
  : option (bool * _Memo) :=
  if empty memo then
    Some (true, {| value := value memo; deps := Some (default [] dependencies) |})
  else match dependencies with
       | None => Some (true, {| value := value memo; deps := Some [] |})
       | Some d =>
           match deps memo with
           | None => None
           | Some cur =>
               if negb (Nat.eqb (length cur) (length d))
                  || negb (all_strictly_equal cur d)
               then Some (true, {| value := value memo; deps := Some d |})
               else Some (false, memo)
           end
       end.

(** The two closures named [setup], told apart by [changed]. *)
Definition setup (changed : bool) (function : Function) (memo : _Memo) (w : World)
  : option (pyval * _Memo * World) :=
  if changed then
    let '(current_value, w') := run function w in
    Some (current_value, {| value := Some current_value; deps := deps memo |}, w')
  else match value memo with
       | Some v => Some (v, memo, w)
       | None => None
       end.

(** What [use_memo] returns: the memoized value, or [setup] itself. *)
Inductive Outcome :=
| Value (v : pyval)
| Setup (changed : bool).

Definition use_memo (function : option Function) (dependencies : Dependencies)
    (memo : _Memo) (w : World) : option (Outcome * _Memo * World) :=
  let dependencies := _try_to_infer_closure_values function dependencies in
  match compare_deps memo dependencies with
  | None => None
  | Some (changed, memo) =>
      match function with
      | Some f =>
          match setup changed f memo w with
          | Some (v, memo, w) => Some (Value v, memo, w)
          | None => None
          end
      | None => Some (Setup changed, memo, w)
      end
  end.

(** The new dependency sequence differs from the stored one in length, or in
    some position under [strictly_equal]. *)
Definition deps_differ (stored new : list pyval) : Prop :=
  length stored ≠ length new
  \/ exists (i : nat) (a b : pyval),
       stored !! i = Some a /\ new !! i = Some b /\ strictly_equal a b = false.

(** The cases in which [use_memo] is specified to recompute. *)
Definition must_recompute (memo : _Memo) (dependencies : option (list pyval)) : Prop :=
  value memo = None
  \/ dependencies = None
  \/ exists stored new, 
       deps memo = Some stored /\ dependencies = Some new /\ deps_differ stored new.


(** A memo never has a value without dependencies: the slot [deps] is
    assigned before [setup] assigns [value]. *)
Definition deps_set_with_value (memo : _Memo) : Prop :=
  value memo <> None -> deps memo <> None.

End Memo.

Arguments is_FunctionType {World} _.
Arguments closure {World} _.
Arguments run {World} _ _.
Arguments _try_to_infer_closure_values {World} func values.
Arguments setup {World} changed function memo w.
Arguments use_memo {World} function dependencies memo w.

End UseMemo.

(** ** [use_effect], [use_async_effect] and [run_effect_cleanup] *)

Module UseEffect.

(** A clean-up callable, by identity.  The result of an effect body is
    [None] (Python's [None], or any falsy object: [run_effect_cleanup] tests
    truth) or [Some c] for a callable [c].  In this module bodies and
    clean-ups return; [EffectErrors] below is the slot when they raise. *)
Definition Callable := nat.

(** What happens to the hook slot, in the order it happens.  A clean-up is
    recorded with the registration whose body returned it. *)
Inductive Event :=
| RanBody (registration : nat)
| RanCleanup (registration : nat) (c : Callable)
| CreatedTask (registration : nat)
| CancelledTask (registration : nat).

Global Instance Event_eq_dec : EqDecision Event.
Proof. solve_decision. Defined.

(** [cleanup_func]: the [Ref] that [use_ref(None)] returns, one per hook
    slot and shared by all effects registered at the slot.  [current] holds
    the callable together with the registration that stored it. *)
Record Slot := {
  current : option (nat * Callable);
  trace : list Event
}.

Definition new_Slot : Slot := {| current := None; trace := [] |}.

Definition run_effect_cleanup (cleanup_func : Slot) : Slot :=
  match current cleanup_func with
  | Some (n, c) =>
      {| current := None; trace := trace cleanup_func ++ [RanCleanup n c] |}
  | None => cleanup_func
  end.

(** *** The synchronous effect *)

(** Where the coroutine [effect(stop)] of a registration stands. *)
Inductive Phase :=
| NotStarted
| AwaitingStop          (* suspended in [await stop.wait()] *)
| Finished.

Global Instance Phase_eq_dec : EqDecision Phase.
Proof. solve_decision. Defined.

(** The slot together with the coroutines of its registrations and their
    [stop] events. *)
Record Effects := {
  cleanup_func : Slot;
  phase : nat -> Phase;
  stop_is_set : nat -> bool
}.

Definition initial : Effects :=
  {| cleanup_func := new_Slot;
     phase := fun _ => NotStarted;
     stop_is_set := fun _ => false |}.

Definition update {A} (f : nat -> A) (n : nat) (a : A) : nat -> A :=
  fun m => if Nat.eqb m n then a else f m.

Section Sync.

(** What the body [func] of each registration returns. *)
Variable func : nat -> option Callable.

(** [effect] up to [await stop.wait()]. *)
Definition effect_begin (n : nat) (cf : Slot) : Slot :=
  (* always clean up the previous effect's resources *)
  let cf := run_effect_cleanup cf in
  (* execute the effect and store the clean-up function *)
  {| current := option_map (fun c => (n, c)) (func n);
     trace := trace cf ++ [RanBody n] |}.

(** [effect] after [await stop.wait()]. *)
Definition effect_end (cf : Slot) : Slot := run_effect_cleanup cf.

(** What the event loop may do next: run the coroutine of a registration
    until it suspends or returns, or set the [stop] event of one. *)
Inductive Action :=
| Resume (n : nat)
| SetStop (n : nat).

Definition step (a : Action) (s : Effects) : Effects :=
  match a with
  | SetStop n =>
      {| cleanup_func := cleanup_func s;
         phase := phase s;
         stop_is_set := update (stop_is_set s) n true |}
  | Resume n =>
      match phase s n with
      | NotStarted =>
          let cf := effect_begin n (cleanup_func s) in
          if stop_is_set s n
          then {| cleanup_func := effect_end cf;
                  phase := update (phase s) n Finished;
                  stop_is_set := stop_is_set s |}
          else {| cleanup_func := cf;
                  phase := update (phase s) n AwaitingStop;
                  stop_is_set := stop_is_set s |}
      | AwaitingStop =>
          if stop_is_set s n
          then {| cleanup_func := effect_end (cleanup_func s);
                  phase := update (phase s) n Finished;
                  stop_is_set := stop_is_set s |}
          else s
      | Finished => s
      end
  end.

Definition run_schedule (acts : list Action) (s : Effects) : Effects :=
  foldl (fun s a => step a s) s acts.

(** What must hold of the events [before] an event when it happens: a
    body runs only when the clean-up of every registration whose body ran
    earlier has run; a clean-up runs after the body that returned it and
    has not run before. *)
Definition in_order (before : list Event) (e : Event) : Prop :=
  match e with
  | RanBody _ =>
      forall n c, RanBody n ∈ before -> func n = Some c -> RanCleanup n c ∈ before
  | RanCleanup n c =>
      RanBody n ∈ before /\ func n = Some c /\ forall c', RanCleanup n c' ∉ before
  | _ => True
  end.

Definition ordered (t : list Event) : Prop :=
  forall t1 e t2, t = t1 ++ e :: t2 -> in_order t1 e.

(** The slot between two steps: its trace is ordered, and [current] holds
    the one clean-up that was returned and has not run. *)
Definition slot_ok (cf : Slot) : Prop :=
  ordered (trace cf)
  /\ (forall n c, current cf = Some (n, c) ->
        RanBody n ∈ trace cf /\ func n = Some c
        /\ forall c', RanCleanup n c' ∉ trace cf)
  /\ (forall n c, RanBody n ∈ trace cf -> func n = Some c ->
        RanCleanup n c ∈ trace cf \/ current cf = Some (n, c)).

Definition effects_ok (s : Effects) : Prop :=
  slot_ok (cleanup_func s)
  /\ forall n, phase s n = NotStarted -> RanBody n ∉ trace (cleanup_func s).

End Sync.

(** *** The asynchronous effect *)

Section Async.

(** The background task of the effect body, and [asyncio.wait([task],
    timeout)] on it: [Some r] when the task is done within the timeout,
    [r] being what [task.result()] returns; [None] when it is still
    pending. *)
Variable Task : Type.
Variable asyncio_wait : Task -> Q -> option (option Callable).

(** The default of the keyword [shutdown_timeout]. *)
Definition default_shutdown_timeout : Q := 1 # 10.

(** [effect] up to [await stop.wait()]. *)
Definition async_effect_begin (n : nat) (cf : Slot) : Slot :=
  let cf := run_effect_cleanup cf in
  {| current := current cf; trace := trace cf ++ [CreatedTask n] |}.

(** [effect] after [await stop.wait()]. *)
Definition async_effect_end (n : nat) (task : Task)
    (shutdown_timeout : option Q) (cf : Slot) : Slot :=
  let shutdown_timeout := default default_shutdown_timeout shutdown_timeout in
  let results := asyncio_wait task shutdown_timeout in
  let cf :=
    match results with
    | Some r =>
        {| current := option_map (fun c => (n, c)) r; trace := trace cf |}
    | None => cf
    end in
  let cf := run_effect_cleanup cf in
  (* cancel the task if it's still running *)
  {| current := current cf; trace := trace cf ++ [CancelledTask n] |}.

End Async.

Arguments async_effect_end {Task} asyncio_wait n task shutdown_timeout cf.

(** A test double for the task of an effect body: the time its body still
    needs when the stop signal arrives ([None]: it never finishes) and what
    it returns; [asyncio.wait] finds it done when that time is within the
    timeout. *)
Record TaskDouble := {
  finishes_after : option Q;
  result : option Callable
}.

Definition wait_double (task : TaskDouble) (timeout : Q) : option (option Callable) :=
  match finishes_after task with
  | Some d => if Qle_bool d timeout then Some (result task) else None
  | None => None
  end.

(** The events of invoking what a slot holds. *)
Definition cleanup_events (held : option (nat * Callable)) : list Event :=
  match held with
  | Some (n, c) => [RanCleanup n c]
  | None => []
  end.

End UseEffect.

End Hooks.

(* ===================================================================== *)
(** * hooks.py: effects whose clean-up or body raises *)
(* ===================================================================== *)

(** [Hooks.UseEffect] above is the slot when every call returns.  Here a
    call may raise, and a task may be cancelled.  The exception leaves the
    coroutine [effect] at the point of the call: [run_effect_cleanup] calls
    the clean-up first and resets the Ref afterwards, so a clean-up that
    raises stays in the Ref, and the statements of the coroutine after the
    call are skipped. *)

Module EffectErrors.
Import Hooks.UseEffect.

(** How a call ends. *)
Inductive Ending :=
| Returns
| Raises.

(** What calling the body [func] of a registration does: it returns [None]
    (or a falsy object) or a clean-up callable, or it raises. *)
Inductive Body :=
| BodyReturns (r : option Callable)
| BodyRaises.

(** Where the coroutine [effect(stop)] of a registration stands. *)
Inductive Coroutine :=
| Unstarted
| AtStopWait            (* suspended in [await stop.wait()] *)
| HasReturned
| HasRaised.            (* ended by an exception *)

Global Instance Coroutine_eq_dec : EqDecision Coroutine.
Proof. solve_decision. Defined.

Record Coroutines := {
  cleanup_ref : Slot;
  coroutine : nat -> Coroutine;
  stop_event : nat -> bool
}.

Definition initial : Coroutines :=
  {| cleanup_ref := new_Slot;
     coroutine := fun _ => Unstarted;
     stop_event := fun _ => false |}.

Definition ended (e : Ending) : Coroutine :=
  match e with Returns => HasReturned | Raises => HasRaised end.

(** What the event loop may do next: run the coroutine of a registration
    until it suspends or ends, set the [stop] event of one, or cancel the
    task of one.  The [await] of a cancelled task raises [CancelledError],
    which ends the coroutine there; a task cancelled before its first step
    never runs. *)
Inductive Turn :=
| Resume (n : nat)
| SetStop (n : nat)
| Cancel (n : nat).

(** In the trace [t] the clean-up [c] of registration [n] was invoked when
    [before] had happened. *)
Definition invoked_at (t : list Event) (n : nat) (c : Callable)
    (before : list Event) : Prop :=
  exists after, t = before ++ RanCleanup n c :: after.

Section Raising.

(** Whether a call of a clean-up raises, given what has happened at the
    slot before the call: a clean-up may raise at one call and return at the
    next. *)
Variable raises : list Event -> Callable -> bool.

(** [run_effect_cleanup]: the call, then the reset of the Ref. *)
Definition run_effect_cleanup (cleanup_func : Slot) : Slot * Ending :=
  match current cleanup_func with
  | Some (n, c) =>
      if raises (trace cleanup_func) c
      then ({| current := Some (n, c);
               trace := trace cleanup_func ++ [RanCleanup n c] |}, Raises)
      else ({| current := None;
               trace := trace cleanup_func ++ [RanCleanup n c] |}, Returns)
  | None => (cleanup_func, Returns)
  end.

Section Sync.

Variable func : nat -> Body.

(** [effect] of [use_effect] up to [await stop.wait()]. *)
Definition effect_begin (n : nat) (cf : Slot) : Slot * Ending :=
  (* always clean up the previous effect's resources *)
  match run_effect_cleanup cf with
  | (cf, Raises) => (cf, Raises)
  | (cf, Returns) =>
      (* execute the effect and store the clean-up function *)
      match func n with
      | BodyReturns r =>
          ({| current := option_map (fun c => (n, c)) r;
              trace := trace cf ++ [RanBody n] |}, Returns)
      | BodyRaises =>
          ({| current := current cf; trace := trace cf ++ [RanBody n] |}, Raises)
      end
  end.

(** [effect] after [await stop.wait()]. *)
Definition effect_end (cf : Slot) : Slot * Ending := run_effect_cleanup cf.

(** The coroutine of registration [n] from [await stop.wait()] on, with the
    stop event set. *)
Definition finish (n : nat) (cf : Slot) (s : Coroutines) : Coroutines :=
  let '(cf, e) := effect_end cf in
  {| cleanup_ref := cf;
     coroutine := update (coroutine s) n (ended e);
     stop_event := stop_event s |}.

Definition step (a : Turn) (s : Coroutines) : Coroutines :=
  match a with
  | SetStop n =>
      {| cleanup_ref := cleanup_ref s;
         coroutine := coroutine s;
         stop_event := update (stop_event s) n true |}
  | Cancel n =>
      match coroutine s n with
      | Unstarted | AtStopWait =>
          {| cleanup_ref := cleanup_ref s;
             coroutine := update (coroutine s) n HasRaised;
             stop_event := stop_event s |}
      | HasReturned | HasRaised => s
      end
  | Resume n =>
      match coroutine s n with
      | Unstarted =>
          match effect_begin n (cleanup_ref s) with
          | (cf, Raises) =>
              {| cleanup_ref := cf;
                 coroutine := update (coroutine s) n HasRaised;
                 stop_event := stop_event s |}
          | (cf, Returns) =>
              if stop_event s n then finish n cf s
              else {| cleanup_ref := cf;
                      coroutine := update (coroutine s) n AtStopWait;
                      stop_event := stop_event s |}
          end
      | AtStopWait => if stop_event s n then finish n (cleanup_ref s) s else s
      | HasReturned | HasRaised => s
      end
  end.

Definition run_schedule (acts : list Turn) (s : Coroutines) : Coroutines :=
  foldl (fun s a => step a s) s acts.

(** What holds of the events [before] an event when it happens: a body
    runs only when the clean-up of every registration whose body ran
    earlier has been invoked and has returned; a clean-up is invoked after
    the body that returned it, and each of its earlier invocations
    raised. *)
Definition in_order (before : list Event) (e : Event) : Prop :=
  match e with
  | RanBody _ =>
      forall n c, RanBody n ∈ before -> func n = BodyReturns (Some c) ->
        exists u, invoked_at before n c u /\ raises u c = false
  | RanCleanup n c =>
      RanBody n ∈ before /\ func n = BodyReturns (Some c)
      /\ (forall u c', invoked_at before n c' u -> raises u c' = true)
  | _ => True
  end.

Definition ordered (t : list Event) : Prop :=
  forall t1 e t2, t = t1 ++ e :: t2 -> in_order t1 e.

(** The slot between two steps: [current] holds a clean-up that has not
    been invoked, or one whose invocations all raised. *)
Definition slot_ok (cf : Slot) : Prop :=
  ordered (trace cf)
  /\ (forall n c, current cf = Some (n, c) ->
        RanBody n ∈ trace cf /\ func n = BodyReturns (Some c)
        /\ (forall u c', invoked_at (trace cf) n c' u -> raises u c' = true))
  /\ (forall n c, RanBody n ∈ trace cf -> func n = BodyReturns (Some c) ->
        (exists u, invoked_at (trace cf) n c u /\ raises u c = false)
        \/ current cf = Some (n, c)).


End Sync.

Section Async.

(** The task [asyncio.create_task(func())] of each registration of one
    [use_async_effect] slot.  [asyncio_wait task timeout] is [None] when the
    task is still pending after the timeout, and otherwise what
    [results.pop().result()] does: it returns what the body returned, or it
    raises what ended the task. *)
Variable Task : Type.
Variable asyncio_wait : Task -> Q -> option Body.
Variable task_of : nat -> Task.
Variable shutdown_timeout : option Q.

(** Where the coroutine [effect(stop)] of an asynchronous effect stands. *)
Inductive AsyncCoroutine :=
| NotBegun
| BeforeStopWait        (* suspended in [await stop.wait()] *)
| InGrace               (* suspended in [await asyncio.wait([task], ...)] *)
| AsyncReturned
| AsyncRaised.          (* ended by an exception *)

Record AsyncCoroutines := {
  async_ref : Slot;
  async_coroutine : nat -> AsyncCoroutine;
  async_stop : nat -> bool
}.

Definition async_initial : AsyncCoroutines :=
  {| async_ref := new_Slot;
     async_coroutine := fun _ => NotBegun;
     async_stop := fun _ => false |}.

Definition async_ended (e : Ending) : AsyncCoroutine :=
  match e with Returns => AsyncReturned | Raises => AsyncRaised end.

(** [effect] of [use_async_effect] up to [await stop.wait()]. *)
Definition async_effect_begin (n : nat) (cf : Slot) : Slot * Ending :=
  match run_effect_cleanup cf with
  | (cf, Raises) => (cf, Raises)
  | (cf, Returns) =>
      ({| current := current cf; trace := trace cf ++ [CreatedTask n] |}, Returns)
  end.

(** [effect] after [await stop.wait()]. *)
Definition async_effect_end (n : nat) (cf : Slot) : Slot * Ending :=
  let timeout := default default_shutdown_timeout shutdown_timeout in
  match asyncio_wait (task_of n) timeout with
  | Some BodyRaises => (cf, Raises)
  | results =>
      let cf :=
        match results with
        | Some (BodyReturns r) =>
            {| current := option_map (fun c => (n, c)) r; trace := trace cf |}
        | _ => cf
        end in
      match run_effect_cleanup cf with
      | (cf, Raises) => (cf, Raises)
      | (cf, Returns) =>
          (* cancel the task if it's still running *)
          ({| current := current cf; trace := trace cf ++ [CancelledTask n] |},
           Returns)
      end
  end.

Definition async_step (a : Turn) (s : AsyncCoroutines) : AsyncCoroutines :=
  match a with
  | SetStop n =>
      {| async_ref := async_ref s;
         async_coroutine := async_coroutine s;
         async_stop := update (async_stop s) n true |}
  | Cancel n =>
      match async_coroutine s n with
      | NotBegun | BeforeStopWait | InGrace =>
          {| async_ref := async_ref s;
             async_coroutine := update (async_coroutine s) n AsyncRaised;
             async_stop := async_stop s |}
      | AsyncReturned | AsyncRaised => s
      end
  | Resume n =>
      match async_coroutine s n with
      | NotBegun =>
          match async_effect_begin n (async_ref s) with
          | (cf, Raises) =>
              {| async_ref := cf;
                 async_coroutine := update (async_coroutine s) n AsyncRaised;
                 async_stop := async_stop s |}
          | (cf, Returns) =>
              {| async_ref := cf;
                 async_coroutine :=
                   update (async_coroutine s) n
                     (if async_stop s n then InGrace else BeforeStopWait);
                 async_stop := async_stop s |}
          end
      | BeforeStopWait =>
          if async_stop s n
          then {| async_ref := async_ref s;
                  async_coroutine := update (async_coroutine s) n InGrace;
                  async_stop := async_stop s |}
          else s
      | InGrace =>
          let '(cf, e) := async_effect_end n (async_ref s) in
          {| async_ref := cf;
             async_coroutine := update (async_coroutine s) n (async_ended e);
             async_stop := async_stop s |}
      | AsyncReturned | AsyncRaised => s
      end
  end.

Definition async_run_schedule (acts : list Turn) (s : AsyncCoroutines)
  : AsyncCoroutines :=
  foldl (fun s a => async_step a s) s acts.

(** The clean-up that [task.result()] gave the effect of a registration. *)
Definition obtained (n : nat) : option Callable :=
  match asyncio_wait (task_of n) (default default_shutdown_timeout shutdown_timeout) with
  | Some (BodyReturns r) => r
  | _ => None
  end.

(** A clean-up is invoked for the registration that obtained it, and each
    of its earlier invocations raised. *)
Definition async_in_order (before : list Event) (e : Event) : Prop :=
  match e with
  | RanCleanup n c =>
      obtained n = Some c
      /\ (forall u c', invoked_at before n c' u -> raises u c' = true)
  | _ => True
  end.

Definition async_ordered (t : list Event) : Prop :=
  forall t1 e t2, t = t1 ++ e :: t2 -> async_in_order t1 e.

(** Between two steps the Ref holds nothing, or a clean-up that has been
    invoked and raised each time. *)
Definition holds_raised (cf : Slot) : Prop :=
  forall n c, current cf = Some (n, c) ->
    obtained n = Some c /\ RanCleanup n c ∈ trace cf
    /\ (forall u c', invoked_at (trace cf) n c' u -> raises u c' = true).

Definition async_ok (s : AsyncCoroutines) : Prop :=
  holds_raised (async_ref s)
  /\ async_ordered (trace (async_ref s))
  /\ (forall n c, RanCleanup n c ∈ trace (async_ref s) ->
        async_coroutine s n = AsyncReturned \/ async_coroutine s n = AsyncRaised).

End Async.

End Raising.

Arguments async_effect_end raises {Task} asyncio_wait task_of shutdown_timeout n cf.
Arguments async_step raises {Task} asyncio_wait task_of shutdown_timeout a s.
Arguments async_run_schedule raises {Task} asyncio_wait task_of shutdown_timeout acts s.
Arguments obtained {Task} asyncio_wait task_of shutdown_timeout n.
Arguments async_in_order raises {Task} asyncio_wait task_of shutdown_timeout before e.
Arguments async_ordered raises {Task} asyncio_wait task_of shutdown_timeout t.
Arguments holds_raised raises {Task} asyncio_wait task_of shutdown_timeout cf.
Arguments async_ok raises {Task} asyncio_wait task_of shutdown_timeout s.

(** The slot of [Hooks.UseEffect] seen here: nothing raises and no task is
    cancelled. *)
Definition as_turn (a : Action) : Turn :=
  match a with
  | Hooks.UseEffect.Resume n => Resume n
  | Hooks.UseEffect.SetStop n => SetStop n
  end.

Definition as_coroutine (p : Phase) : Coroutine :=
  match p with
  | NotStarted => Unstarted
  | AwaitingStop => AtStopWait
  | Finished => HasReturned
  end.

Definition same_slot (s : Effects) (s' : Coroutines) : Prop :=
  cleanup_ref s' = cleanup_func s
  /\ (forall n, coroutine s' n = as_coroutine (phase s n))
  /\ (forall n, stop_event s' n = stop_is_set s n).

End EffectErrors.

(* ===================================================================== *)
(** * vdom.py *)
(* ===================================================================== *)

Module Vdom.

(** The objects that reach the VDOM constructor.  A [Dict] is an object whose
    type is exactly [dict]; a [VdomDictV] is an instance of [VdomDict], a
    subclass of dict.  Dictionaries keep their items in insertion order. *)
#[warnings="-register-all"]
Inductive obj :=
| NoneV
| Num (n : Z)
| Str (s : string)
| InlineJavaScriptV (s : string)              (* a subclass of str *)
| Dict (items : list (string * obj))
| VdomDictV (items : list (string * obj))
| ListV (items : list obj)
| TupleV (items : list obj)
| Component (key : option string)             (* has no __iter__ *)
| FunctionV (id : nat)
| EventHandlerV (id : nat).

(** [isinstance(value, (str, Mapping))] *)
Definition is_str_or_Mapping (value : obj) : bool :=
  match value with
  | Str _ | InlineJavaScriptV _ | Dict _ | VdomDictV _ => true
  | _ => false
  end.

(** [hasattr(value, "__iter__")], with the items iteration yields. *)
Definition iter (value : obj) : option (list obj) :=
  match value with
  | ListV l | TupleV l => Some l
  | Str s | InlineJavaScriptV s =>
      Some (map (fun c => Str (String c EmptyString)) (String.list_ascii_of_string s))
  | Dict d | VdomDictV d => Some (map (fun kv => Str kv.1) d)
  | _ => None
  end.

(** [_is_single_child]; the check made under [REACTPY_DEBUG] only warns. *)
Definition _is_single_child (value : obj) : bool :=
  is_str_or_Mapping value || negb (bool_decide (is_Some (iter value))).

Fixpoint _flatten_child (child : obj) : list obj :=
  match child with
  | ListV l | TupleV l =>
      (fix go (children : list obj) : list obj :=
         match children with
         | [] => []
         | c :: rest => _flatten_child c ++ go rest
         end) l
  | _ => [child]
  end.

Definition _flatten_children (children : list obj) : list obj :=
  flat_map _flatten_child children.

(** Dictionaries: [d.get(k, None)], [d[k] = v], truth. *)
Fixpoint dict_get {A} (d : list (string * A)) (k : string) : option A :=
  match d with
  | [] => None
  | (k', v) :: rest => if String.eqb k' k then Some v else dict_get rest k
  end.

Fixpoint dict_set {A} (d : list (string * A)) (k : string) (v : A) : list (string * A) :=
  match d with
  | [] => [(k, v)]
  | (k', v') :: rest =>
      if String.eqb k' k then (k', v) :: rest else (k', v') :: dict_set rest k v
  end.

Definition separate_attributes_and_children (values : list obj)
  : list (string * obj) * list obj :=
  match values with
  | [] => ([], [])
  | first :: rest =>
      match first with
      | Dict _attributes => (_attributes, _flatten_children rest)
      | _ => ([], _flatten_children values)
      end
  end.

(** [EVENT_ATTRIBUTE_PATTERN.match(k)]: [on], an upper-case letter, a word
    character.  A character of a string is a code point below 256.  [[A-Z]]
    is the range of ASCII; [\w] in a [str] pattern is the underscore and
    every character that is alphanumeric in Unicode, which below 256 are the
    ASCII letters and digits and the code points listed in
    [is_latin1_alnum]. *)
Definition is_upper (c : ascii) : bool :=
  let n := nat_of_ascii c in (65 <=? n)%nat && (n <=? 90)%nat.

Definition between (lo hi n : nat) : bool := (lo <=? n)%nat && (n <=? hi)%nat.

Definition is_latin1_alnum (n : nat) : bool :=
  (n =? 170)%nat || between 178 179 n || (n =? 181)%nat || between 185 186 n
  || between 188 190 n || between 192 214 n || between 216 246 n
  || between 248 255 n.

Definition is_word (c : ascii) : bool :=
  let n := nat_of_ascii c in
  ((65 <=? n)%nat && (n <=? 90)%nat) || ((97 <=? n)%nat && (n <=? 122)%nat)
  || ((48 <=? n)%nat && (n <=? 57)%nat) || (n =? 95)%nat
  || is_latin1_alnum n.

Definition EVENT_ATTRIBUTE_PATTERN_match (k : string) : bool :=
  match k with
  | String "o"%char (String "n"%char (String c (String w _))) =>
      is_upper c && is_word w
  | _ => false
  end.

(** [callable(v)] and the [isinstance] tests on attribute values. *)
Definition callable (v : obj) : bool :=
  match v with FunctionV _ => true | _ => false end.

Definition is_EventHandler (v : obj) : bool :=
  match v with EventHandlerV _ => true | _ => false end.

Definition is_str (v : obj) : bool :=
  match v with Str _ | InlineJavaScriptV _ => true | _ => false end.

Definition is_InlineJavaScript (v : obj) : bool :=
  match v with InlineJavaScriptV _ => true | _ => false end.

(** [EventHandler(to_event_handler_function(v))] and [InlineJavaScript(v)] *)
Definition to_EventHandler (v : obj) : obj :=
  match v with FunctionV id => EventHandlerV id | _ => v end.

Definition to_InlineJavaScript (v : obj) : obj :=
  match v with Str s => InlineJavaScriptV s | _ => v end.

Definition separate_attributes_handlers_and_inline_javascript
    (attributes : list (string * obj))
  : list (string * obj) * list (string * obj) * list (string * obj) :=
  foldl
    (fun '(_attributes, _event_handlers, _inline_javascript) '(k, v) =>
       if callable v then
         (_attributes, dict_set _event_handlers k (to_EventHandler v), _inline_javascript)
       else if is_EventHandler v then
         (_attributes, dict_set _event_handlers k v, _inline_javascript)
       else if EVENT_ATTRIBUTE_PATTERN_match k && is_str v then
         (_attributes, _event_handlers, dict_set _inline_javascript k (to_InlineJavaScript v))
       else if is_InlineJavaScript v then
         (_attributes, _event_handlers, dict_set _inline_javascript k v)
       else
         (dict_set _attributes k v, _event_handlers, _inline_javascript))
    ([], [], []) attributes.

(** Whether [json.dumps] accepts a value. *)
Fixpoint json_serializable (v : obj) : bool :=
  match v with
  | NoneV | Num _ | Str _ | InlineJavaScriptV _ => true
  | Dict d | VdomDictV d =>
      (fix go (d : list (string * obj)) : bool :=
         match d with
         | [] => true
         | (_, x) :: rest => json_serializable x && go rest
         end) d
  | ListV l | TupleV l =>
      (fix go (l : list obj) : bool :=
         match l with
         | [] => true
         | x :: rest => json_serializable x && go rest
         end) l
  | Component _ | FunctionV _ | EventHandlerV _ => false
  end.

(** The keywords [Vdom.__call__] passes to [VdomDict]; an absent keyword is
    [None]. *)
Record VdomDict := {
  tagName : string;
  key : option obj;
  children : option (list obj);
  attributes : option (list (string * obj));
  eventHandlers : option (list (string * obj));
  inlineJavaScript : option (list (string * obj));
  importSource : option obj
}.

Inductive Error :=
| TypeError (msg : string)
| JsonTypeError.

(** [{"k": v} if v else {}] for a list or a dict [v] *)
Definition if_nonempty {A} (v : list A) : option (list A) :=
  match v with [] => None | _ => Some v end.

(** A [Vdom] constructor object. *)
Record Vdom := {
  __name__ : string;
  allow_children : bool;
  custom_constructor :
    option (option obj -> list obj -> list (string * obj) -> list (string * obj)
            -> VdomDict);
  import_source : option obj
}.

(** [result | {"tagName": name}] *)
Definition with_tagName (result : VdomDict) (name : string) : VdomDict :=
  {| tagName := name;
     key := key result;
     children := children result;
     attributes := attributes result;
     eventHandlers := eventHandlers result;
     inlineJavaScript := inlineJavaScript result;
     importSource := importSource result |}.

Section Call.

(** [REACTPY_CHECK_JSON_ATTRS.current] *)
Variable REACTPY_CHECK_JSON_ATTRS : bool.

(** [Vdom.__call__] *)
Definition call (self : Vdom) (attributes_and_children : list obj)
  : Error + VdomDict :=
  let '(attributes, children) :=
    separate_attributes_and_children attributes_and_children in
  let key :=
    match dict_get attributes "key" with
    | Some NoneV | None => None
    | Some k => Some k
    end in
  let '(attributes, event_handlers, inline_javascript) :=
    separate_attributes_handlers_and_inline_javascript attributes in
  if REACTPY_CHECK_JSON_ATTRS && negb (json_serializable (Dict attributes))
  then inl JsonTypeError
  else
    let result :=
      match custom_constructor self with
      | Some construct => construct key children attributes event_handlers
      | None =>
          {| tagName := "";
             key := key;
             children := if_nonempty children;
             attributes := if_nonempty attributes;
             eventHandlers := if_nonempty event_handlers;
             inlineJavaScript := if_nonempty inline_javascript;
             importSource := import_source self |}
      end in
    let result := with_tagName result (__name__ self) in
    match children with
    | _ :: _ =>
        if negb (allow_children self)
        then inl (TypeError ("'" ++ __name__ self ++ "' nodes cannot have children."))
        else inr result
    | [] => inr result
    end.

End Call.





End Vdom.

(* ===================================================================== *)
(** * render.py *)
(* ===================================================================== *)

Module Render.

(** The result of a step that may raise [KeyError]: the state reached, and
    the missing key when it raised. *)
Inductive Outcome (A : Type) :=
| Returned (a : A)
| KeyError (k : string) (a : A).
Arguments Returned {A} a.
Arguments KeyError {A} k a.

Section Renderer.

(** The model of one element, and the error marker of an update. *)
Variable Model : Type.
Variable Error : Type.

(** [LayoutUpdate(src, new, old, error)], what [layout.render()] returns. *)
Record LayoutUpdate := {
  src : string;
  new : gmap string Model;
  old : list string;
  error : option Error
}.

(** The values of an outgoing message. *)
Inductive Field :=
| FId (id : string)
| FModels (models : gmap string Model)
| FIds (ids : list string)
| FError (e : option Error).

(** An outgoing message: a dict with string keys. *)
Definition Message := list (string * Field).

(** [msg.get(k)] *)
Fixpoint get (msg : Message) (k : string) : option Field :=
  match msg with
  | [] => None
  | (k', v) :: rest => if String.eqb k' k then Some v else get rest k
  end.

(** ** [SingleStateRenderer] *)

(** [SingleStateRenderer._outgoing], given the root of the layout and the
    update that [await layout.render()] returned. *)
Definition single_outgoing (root : string) (update : LayoutUpdate) : Message :=
  let '{| src := src; new := new; old := old; error := error |} := update in
  [ ("root", FId root); ("src", FId src); ("new", FModels new); ("old", FIds old) ].

(** ** [SharedStateRenderer] *)

(** Where the outgoing loop of a client stands. *)
Inductive LoopPC :=
| AtStart              (* spawned, [_outgoing_loop] not yet entered *)
| InLoop.              (* inside [super()._outgoing_loop] *)

Record SharedStateRenderer := {
  root : string;                               (* [self._layout.root] *)
  _models : gmap string Model;
  _updates : gmap string (list LayoutUpdate);  (* the queues, oldest first *)
  render_task_failed : bool;                   (* [_render_loop] has raised *)
  loops : gmap string LoopPC;                  (* the outgoing loops *)
  sent : gmap string (list Message);           (* what [send] was given *)
  enqueued : list LayoutUpdate                 (* every update put on the queues *)
}.

(** [SharedStateRenderer._outgoing], given the update that
    [await self._updates[context].get()] returned. *)
Definition shared_outgoing (root : string) (update : LayoutUpdate) : Message :=
  let '{| src := src; new := new; old := old; error := error |} := update in
  [ ("root", FId root); ("src", FId src); ("new", FModels new); ("old", FIds old) ].

(** The message [_outgoing_loop] sends first when the root is known. *)
Definition snapshot (self : SharedStateRenderer) : Message :=
  [ ("root", FId (root self)); ("src", FId (root self));
    ("new", FModels (_models self)); ("old", FIds []) ].

(** [for old_id in old: del self._models[old_id]] *)
Fixpoint evict (old : list string) (models : gmap string Model)
  : Outcome (gmap string Model) :=
  match old with
  | [] => Returned models
  | old_id :: rest =>
      match models !! old_id with
      | Some _ => evict rest (delete old_id models)
      | None => KeyError old_id models
      end
  end.

(** The ids evicted before the loop over [old] stops. *)
Definition evicted (models : gmap string Model) (ids : list string)
  : gmap string Model :=
  foldl (fun m id => delete id m) models ids.


(** One turn of the [while True] of [_render_loop], given the update that
    [await self._layout.render()] returned. *)
Definition render_iteration (update : LayoutUpdate) (self : SharedStateRenderer)
  : Outcome SharedStateRenderer :=
  (* add new models to the overall state *)
  let models := new update ∪ _models self in
  (* remove old ones from the overall state *)
  match evict (old update) models with
  | KeyError k models =>
      KeyError k
        {| root := root self; _models := models; _updates := _updates self;
           render_task_failed := true; loops := loops self; sent := sent self;
           enqueued := enqueued self |}
  | Returned models =>
      (* append updates to all other contexts *)
      Returned
        {| root := root self; _models := models;
           _updates := (fun queue => queue ++ [update]) <$> _updates self;
           render_task_failed := render_task_failed self;
           loops := loops self; sent := sent self;
           enqueued := enqueued self ++ [update] |}
  end.

(** [SharedStateRenderer.run]: a fresh queue for the context, and the two
    loops of [AbstractRenderer.run] spawned. *)
Definition run (context : string) (self : SharedStateRenderer) : SharedStateRenderer :=
  {| root := root self; _models := _models self;
     _updates := <[context := []]> (_updates self);
     render_task_failed := render_task_failed self;
     loops := <[context := AtStart]> (loops self);
     sent := <[context := []]> (sent self);
     enqueued := enqueued self |}.

Definition send (context : string) (msg : Message) (self : SharedStateRenderer)
  : SharedStateRenderer :=
  {| root := root self; _models := _models self; _updates := _updates self;
     render_task_failed := render_task_failed self; loops := loops self;
     sent := <[context := default [] (sent self !! context) ++ [msg]]> (sent self);
     enqueued := enqueued self |}.

(** One turn of [AbstractRenderer._outgoing_loop] for a client of the shared
    renderer: [await send(await self._outgoing(...))].  With an empty queue
    [get] suspends and nothing changes. *)
Definition loop_turn (context : string) (self : SharedStateRenderer)
  : SharedStateRenderer :=
  match _updates self !! context with
  | Some (update :: queue) =>
      send context (shared_outgoing (root self) update)
        {| root := root self; _models := _models self;
           _updates := <[context := queue]> (_updates self);
           render_task_failed := render_task_failed self; loops := loops self;
           sent := sent self; enqueued := enqueued self |}
  | _ => self
  end.

Definition enter_loop (context : string) (self : SharedStateRenderer)
  : SharedStateRenderer :=
  {| root := root self; _models := _models self; _updates := _updates self;
     render_task_failed := render_task_failed self;
     loops := <[context := InLoop]> (loops self);
     sent := sent self; enqueued := enqueued self |}.

(** The outgoing task of a client, run until its next suspension:
    [SharedStateRenderer._outgoing_loop] from its start to the end of its
    first [send], or one turn of the loop it hands over to. *)
Definition outgoing_step (context : string) (self : SharedStateRenderer)
  : SharedStateRenderer :=
  match loops self !! context with
  | Some AtStart =>
      if bool_decide (root self ∈ dom (_models self))
      then enter_loop context (send context (snapshot self) self)
      else loop_turn context (enter_loop context self)
  | Some InLoop => loop_turn context self
  | None => self
  end.

(** What the event loop may run next. *)
Inductive Action :=
| Render (update : LayoutUpdate)     (* a turn of the render loop *)
| Run (context : string)             (* a call of [run] *)
| Outgoing (context : string).       (* the outgoing task of a client *)

Definition state_of (o : Outcome SharedStateRenderer) : SharedStateRenderer :=
  match o with Returned s | KeyError _ s => s end.

Definition step (a : Action) (self : SharedStateRenderer) : SharedStateRenderer :=
  match a with
  | Render update =>
      if render_task_failed self then self
      else state_of (render_iteration update self)
  | Run context => run context self
  | Outgoing context => outgoing_step context self
  end.

Definition run_schedule (acts : list Action) (self : SharedStateRenderer)
  : SharedStateRenderer :=
  foldl (fun s a => step a s) self acts.

(** The actions that leave the session of [context] in place. *)
Definition keeps_session (context : string) (a : Action) : Prop :=
  match a with Run c => c ≠ context | _ => True end.

(** The session of [context] once its outgoing loop has started: [pre] is
    what the start of the loop sent, [seen] the updates enqueued before. *)
Definition streaming (context : string) (r : string) (pre : list Message)
    (seen : list LayoutUpdate)
    (s : SharedStateRenderer) : Prop :=
  root s = r
  /\ loops s !! context = Some InLoop
  /\ exists news k,
      enqueued s = seen ++ news
      /\ (k <= length news)%nat
      /\ sent s !! context = Some (pre ++ map (shared_outgoing r) (take k news))
      /\ _updates s !! context = Some (drop k news).

End Renderer.

Arguments src {Model Error} _.
Arguments new {Model Error} _.
Arguments old {Model Error} _.
Arguments error {Model Error} _.
Arguments FId {Model Error} id.
Arguments FModels {Model Error} models.
Arguments FIds {Model Error} ids.
Arguments FError {Model Error} e.
Arguments get {Model Error} msg k.
Arguments single_outgoing {Model Error} root update.
Arguments shared_outgoing {Model Error} root update.
Arguments root {Model Error} _.
Arguments _models {Model Error} _.
Arguments _updates {Model Error} _.
Arguments render_task_failed {Model Error} _.
Arguments loops {Model Error} _.
Arguments sent {Model Error} _.
Arguments enqueued {Model Error} _.
Arguments snapshot {Model Error} self.
Arguments evict {Model} old models.
Arguments render_iteration {Model Error} update self.
Arguments run {Model Error} context self.
Arguments send {Model Error} context msg self.
Arguments loop_turn {Model Error} context self.
Arguments enter_loop {Model Error} context self.
Arguments outgoing_step {Model Error} context self.
Arguments Render {Model Error} update.
Arguments Run {Model Error} context.
Arguments Outgoing {Model Error} context.
Arguments state_of {Model Error} o.
Arguments step {Model Error} a self.
Arguments run_schedule {Model Error} acts self.
Arguments keeps_session {Model Error} context a.
Arguments streaming {Model Error} context r pre seen s.
Arguments evicted {Model} models ids.

(** ** [join]: [SharedStateRenderer.__aexit__] *)

Module Join.

(** A caller of [join()], by identity. *)
Definition Caller := nat.

Inductive Event :=
| ScopeExitBegins (c : Caller)     (* [task_group.__aexit__] awaited *)
| ScopeExitEnds (c : Caller)       (* ... and returned *)
| RenderTaskCancelled (c : Caller) (* [self._render_task.cancel()] *)
| JoinReturns (c : Caller).

Global Instance Event_eq_dec : EqDecision Event.
Proof. solve_decision. Defined.

(** Where a call of [__aexit__] stands. *)
Inductive PC :=
| NotCalled
| InScopeExit          (* suspended in [await self.task_group.__aexit__] *)
| Waiting              (* suspended in [await self._join_event.wait()] *)
| Woken                (* the event was set; not yet resumed *)
| Done                 (* [join()] returned *)
| Raised.              (* [join()] ended with an exception *)

Global Instance PC_eq_dec : EqDecision PC.
Proof. solve_decision. Defined.

Record State := {
  _joining : bool;
  pc : Caller -> PC;
  trace : list Event
}.

Definition initial : State :=
  {| _joining := false; pc := fun _ => NotCalled; trace := [] |}.

Definition set_pc (f : Caller -> PC) (c : Caller) (p : PC) : Caller -> PC :=
  fun d => if Nat.eqb d c then p else f d.

(** [self._join_event.set()]: every waiter is woken.  The [clear()] that
    follows leaves the event unset for later callers. *)
Definition wake_all (f : Caller -> PC) : Caller -> PC :=
  fun d => match f d with Waiting => Woken | p => p end.

(** What the event loop may do next to a caller.  The [await] at which a
    caller is suspended either returns or raises: [asyncio] raises
    [CancelledError] there when the task of the caller is cancelled, and the
    scope exit may raise an exception of its own. *)
Inductive Action :=
| Call (c : Caller)              (* [c] calls [join()] and runs to its await *)
| ScopeExitCompletes (c : Caller)  (* the scope exit of [c] returns *)
| Resume (c : Caller)              (* a woken waiter runs on *)
| AwaitRaises (c : Caller).        (* the [await] of [c] raises *)

Definition step (a : Action) (s : State) : State :=
  match a with
  | Call c =>
      match pc s c with
      | NotCalled =>
          if negb (_joining s) then
            {| _joining := true;
               pc := set_pc (pc s) c InScopeExit;
               trace := trace s ++ [ScopeExitBegins c] |}
          else
            {| _joining := _joining s;
               pc := set_pc (pc s) c Waiting;
               trace := trace s |}
      | _ => s
      end
  | ScopeExitCompletes c =>
      match pc s c with
      | InScopeExit =>
          (* finally: cancel, set, clear; finally: _joining = False *)
          {| _joining := false;
             pc := set_pc (wake_all (pc s)) c Done;
             trace := trace s ++ [ScopeExitEnds c; RenderTaskCancelled c; JoinReturns c] |}
      | _ => s
      end
  | Resume c =>
      match pc s c with
      | Woken =>
          (* finally: _joining = False *)
          {| _joining := false;
             pc := set_pc (pc s) c Done;
             trace := trace s ++ [JoinReturns c] |}
      | _ => s
      end
  | AwaitRaises c =>
      match pc s c with
      | InScopeExit =>
          (* finally: cancel, set, clear; finally: _joining = False;
             the exception goes on to the caller *)
          {| _joining := false;
             pc := set_pc (wake_all (pc s)) c Raised;
             trace := trace s ++ [RenderTaskCancelled c] |}
      | Waiting | Woken =>
          (* finally: _joining = False *)
          {| _joining := false;
             pc := set_pc (pc s) c Raised;
             trace := trace s |}
      | _ => s
      end
  end.

Definition run_schedule (acts : list Action) (s : State) : State :=
  foldl (fun s a => step a s) s acts.

(** How often the teardown was run: the scope exits begun and the
    cancellations of the render task. *)
Definition is_ScopeExitBegins (e : Event) : bool :=
  match e with ScopeExitBegins _ => true | _ => false end.


Definition scope_exits (t : list Event) : nat :=
  length (List.filter is_ScopeExitBegins t).



(** Every return of [join()] comes after a cancellation of the render
    task, the last act of a teardown. *)
Definition returns_after_teardown (t : list Event) : Prop :=
  forall t1 c t2, t = t1 ++ JoinReturns c :: t2 ->
    exists d, RenderTaskCancelled d ∈ t1.




End Join.

End Render.

(* ===================================================================== *)
(** * Vocabulary of the further properties *)
(* ===================================================================== *)

Module Vocabulary.
Import Py Hooks.

(** A float that is not-a-number, or a complex number with such a part. *)
Definition is_nan (f : pyfloat) : bool :=
  match f with FNan => true | _ => false end.

Definition holds_nan (x : pyval) : bool :=
  match body_of x with
  | SFloat f => is_nan f
  | SComplex re im => is_nan re || is_nan im
  | _ => false
  end.

(** The objects that [==] finds different from themselves: a float or a
    complex number that is not-a-number, and an instance of a class whose
    [__eq__] answers [False]. *)
Definition unequal_to_itself (x : pyval) : bool :=
  match body_of x with
  | SInstance _ (EqAnswers b) _ => negb b
  | _ => holds_nan x
  end.

End Vocabulary.

(* ===================================================================== *)
(** * hooks.py: the effects of one slot under the event loop *)
(* ===================================================================== *)

Module EffectLoop.
Import Hooks.UseEffect.

(** A trace in which every event stands in the relation [P] to the events
    before it. *)
Definition each_after {E : Type} (P : list E -> E -> Prop) (t : list E) : Prop :=
  forall t1 e t2, t = t1 ++ e :: t2 -> P t1 e.

Section SyncDone.

Variable func : nat -> option Callable.

(** The coroutines that have started have run their body, and those that
    have returned have had their clean-up run. *)
Definition finished_ok (s : Effects) : Prop :=
  (forall n, phase s n <> NotStarted -> RanBody n ∈ trace (cleanup_func s))
  /\ (forall n c, phase s n = Finished -> func n = Some c ->
        RanCleanup n c ∈ trace (cleanup_func s)).

End SyncDone.

Section Async.

(** The task [asyncio.create_task(func())] of each registration of one
    [use_async_effect] slot, [asyncio.wait] on it, and the grace period. *)
Variable Task : Type.
Variable asyncio_wait : Task -> Q -> option (option Callable).
Variable task_of : nat -> Task.
Variable shutdown_timeout : option Q.

(** Where the coroutine [effect(stop)] of an asynchronous effect stands. *)
Inductive AsyncPhase :=
| Unstarted
| BeforeStop            (* suspended in [await stop.wait()] *)
| InGracePeriod         (* suspended in [await asyncio.wait([task], ...)] *)
| Over.

Record AsyncEffects := {
  slot : Slot;
  async_phase : nat -> AsyncPhase;
  stop_set : nat -> bool
}.

Definition async_initial : AsyncEffects :=
  {| slot := new_Slot;
     async_phase := fun _ => Unstarted;
     stop_set := fun _ => false |}.

(** The event loop runs the coroutine of a registration until it suspends
    or returns, or sets the [stop] event of one. *)
Definition async_step (a : Action) (s : AsyncEffects) : AsyncEffects :=
  match a with
  | SetStop n =>
      {| slot := slot s;
         async_phase := async_phase s;
         stop_set := update (stop_set s) n true |}
  | Resume n =>
      match async_phase s n with
      | Unstarted =>
          {| slot := async_effect_begin n (slot s);
             async_phase :=
               update (async_phase s) n
                 (if stop_set s n then InGracePeriod else BeforeStop);
             stop_set := stop_set s |}
      | BeforeStop =>
          if stop_set s n
          then {| slot := slot s;
                  async_phase := update (async_phase s) n InGracePeriod;
                  stop_set := stop_set s |}
          else s
      | InGracePeriod =>
          {| slot := async_effect_end asyncio_wait n (task_of n) shutdown_timeout (slot s);
             async_phase := update (async_phase s) n Over;
             stop_set := stop_set s |}
      | Over => s
      end
  end.

Definition async_run_schedule (acts : list Action) (s : AsyncEffects) : AsyncEffects :=
  foldl (fun s a => async_step a s) s acts.

(** What [task.result()] gave the effect of a registration: the clean-up of
    a task done within the grace period, nothing otherwise. *)
Definition obtained (n : nat) : option Callable :=
  match asyncio_wait (task_of n) (default default_shutdown_timeout shutdown_timeout) with
  | Some r => r
  | None => None
  end.

(** A clean-up is invoked for the registration that obtained it, and not a
    second time. *)
Definition async_in_order (before : list Event) (e : Event) : Prop :=
  match e with
  | RanCleanup n c => obtained n = Some c /\ forall c', RanCleanup n c' ∉ before
  | _ => True
  end.

Definition async_ok (s : AsyncEffects) : Prop :=
  current (slot s) = None
  /\ each_after async_in_order (trace (slot s))
  /\ (forall n c, RanCleanup n c ∈ trace (slot s) -> async_phase s n = Over)
  /\ (forall n c, async_phase s n = Over -> obtained n = Some c ->
        RanCleanup n c ∈ trace (slot s)).

End Async.

Arguments async_step {Task} asyncio_wait task_of shutdown_timeout a s.
Arguments async_run_schedule {Task} asyncio_wait task_of shutdown_timeout acts s.
Arguments obtained {Task} asyncio_wait task_of shutdown_timeout n.
Arguments async_in_order {Task} asyncio_wait task_of shutdown_timeout before e.
Arguments async_ok {Task} asyncio_wait task_of shutdown_timeout s.

End EffectLoop.

(* ===================================================================== *)
(** * vdom.py: attribute kinds and nested constructors *)
(* ===================================================================== *)

Module VdomMore.
Import Vdom.

(** The dictionary an item of the attributes ends in, by the [if]/[elif]
    chain of [separate_attributes_handlers_and_inline_javascript]. *)
Inductive AttrKind :=
| EventHandlerAttr
| InlineJavaScriptAttr
| PlainAttr.

Global Instance AttrKind_eq_dec : EqDecision AttrKind.
Proof. solve_decision. Defined.

Definition classify (k : string) (v : obj) : AttrKind :=
  if callable v || is_EventHandler v then EventHandlerAttr
  else if (EVENT_ATTRIBUTE_PATTERN_match k && is_str v) || is_InlineJavaScript v
       then InlineJavaScriptAttr
  else PlainAttr.

(** The value stored for an item: a callable wrapped in an [EventHandler],
    text under an event name wrapped in [InlineJavaScript], anything else as
    it is. *)
Definition stored_as (k : string) (v : obj) : obj :=
  if callable v then to_EventHandler v
  else if is_EventHandler v then v
  else if EVENT_ATTRIBUTE_PATTERN_match k && is_str v then to_InlineJavaScript v
  else v.

(** The items of one kind, in the order of the attributes. *)
Definition of_kind (kind : AttrKind) (attributes : list (string * obj))
  : list (string * obj) :=
  map (fun kv => (kv.1, stored_as kv.1 kv.2))
      (filter (fun kv => classify kv.1 kv.2 = kind) attributes).

(** [bool(v)] *)
Definition truthy (v : obj) : bool :=
  match v with
  | NoneV => false
  | Num n => negb (n =? 0)%Z
  | Str s | InlineJavaScriptV s => negb (String.eqb s "")
  | Dict d | VdomDictV d => match d with [] => false | _ => true end
  | ListV l | TupleV l => match l with [] => false | _ => true end
  | Component _ | FunctionV _ | EventHandlerV _ => true
  end.

(** The method [Vdom.__getattr__]: a nested component of a web module
    component; [None] is the [AttributeError] it raises when the import
    source is [None] or falsy.  The module names that [Vdom.__init__] sets
    for the debugger are left out. *)
Definition __getattr__ (self : Vdom) (attr : string) : option Vdom :=
  if negb (match import_source self with
           | Some source => truthy source
           | None => false
           end)
  then None
  else Some {| __name__ := __name__ self ++ "." ++ attr;
               allow_children := allow_children self;
               custom_constructor := None;
               import_source := import_source self |}.

(** What the attribute access [self.attr] gives. *)
Inductive Access :=
| FoundByLookup           (* an attribute of the instance, of [Vdom] or of [object] *)
| Nested (v : Vdom)       (* what [__getattr__] returned *)
| AttributeError.

Section Access.

(** Whether the normal lookup finds the name on the object: in the instance
    ([allow_children], [import_source], [__name__], ...), in the class
    ([__call__], ...) or in [object].  Python calls [__getattr__] only when
    it does not. *)
Variable found_by_lookup : Vdom -> string -> bool.

Definition getattr (self : Vdom) (attr : string) : Access :=
  if found_by_lookup self attr then FoundByLookup
  else match __getattr__ self attr with
       | Some nested => Nested nested
       | None => AttributeError
       end.

(** [self.a.b.c]: one access after the other. *)
Fixpoint getattr_path (self : Vdom) (path : list string) : Access :=
  match path with
  | [] => Nested self
  | attr :: rest =>
      match getattr self attr with
      | Nested nested => getattr_path nested rest
      | r => r
      end
  end.

End Access.

(** ["a.b.c"] after a name: each attribute behind a dot. *)
Definition dotted (name : string) (path : list string) : string :=
  foldl (fun (acc attr : string) => (acc ++ "." ++ attr)%string) name path.

End VdomMore.

(* ===================================================================== *)
(** * render.py: a client draining its queue *)
(* ===================================================================== *)

Module RenderMore.
Import Render.

Section Draining.

Variable Model : Type.
Variable Error : Type.

(** The session of [context] inside its outgoing loop: [sent0] is what it
    had been sent and [backlog] what its queue held at some earlier moment,
    [seen] the updates enqueued up to that moment.  Since then the client has
    been sent the first [k] of the backlog and the later updates, and its
    queue holds the rest. *)
Definition draining (context : string) (r : string)
    (sent0 : list (Message Model Error))
    (backlog seen : list (LayoutUpdate Model Error))
    (s : SharedStateRenderer Model Error) : Prop :=
  root s = r
  /\ loops s !! context = Some InLoop
  /\ exists news k,
      enqueued s = seen ++ news
      /\ (k <= length (backlog ++ news))%nat
      /\ sent s !! context
         = Some (sent0 ++ map (shared_outgoing r) (take k (backlog ++ news)))
      /\ _updates s !! context = Some (drop k (backlog ++ news)).

End Draining.

Arguments draining {Model Error} context r sent0 backlog seen s.

End RenderMore.

(* ===================================================================== *)
(** * render.py: [join] between two steps of the event loop *)
(* ===================================================================== *)

Module JoinMore.
Import Render.Join.

(** Returns come after a teardown, a caller that has been woken was woken by
    one, and a caller that waits, or a set flag, has a scope exit in
    progress. *)
Definition join_ok (s : State) : Prop :=
  returns_after_teardown (trace s)
  /\ (forall c, pc s c = Woken -> exists d, RenderTaskCancelled d ∈ trace s)
  /\ ((_joining s = true \/ exists c, pc s c = Waiting) ->
      exists d, pc s d = InScopeExit).

End JoinMore.

(* ===================================================================== *)
(** * Properties *)
(* ===================================================================== *)

Import Py Hooks.

(** ** The equality policy *)

Lemma compared_code_attrs_eq :
  compared_code_attrs =
  [ "co_argcount"; "co_cellvars"; "co_code"; "co_consts"; "co_exceptiontable";
    "co_filename"; "co_firstlineno"; "co_flags"; "co_freevars";
    "co_kwonlyargcount"; "co_name"; "co_names"; "co_nlocals";
    "co_posonlyargcount"; "co_qualname"; "co_stacksize"; "co_varnames" ].
Proof. vm_compute. reflexivity. Qed.

(** Values of differing runtime type are never strictly equal. *)
Lemma strictly_equal_type_mismatch (x y : pyval) :
  type_of x ≠ type_of y -> strictly_equal x y = false.
Proof.
  intros Hne. unfold strictly_equal.
  rewrite bool_decide_eq_true_2; done.
Qed.

(** Two objects of the same type of which the first is a function are both
    functions: the branch of [strictly_equal] marked as not reached is not. *)
Lemma same_type_function (x y : pyval) q c :
  type_of x = type_of y -> body_of x = SFunction q c ->
  exists q' c', body_of y = SFunction q' c'.
Proof.
  unfold type_of. intros Ht Hx. rewrite Hx in Ht. simpl in Ht.
  destruct (body_of y); simpl in Ht; try discriminate. eauto.
Qed.

(** A local function or lambda is compared by qualified name and by the
    attributes of its code object other than the four excluded ones. *)
Lemma strictly_equal_local_function a b q q' c c' :
  contains "<lambda>" q || contains "<locals>" q = true ->
  strictly_equal (Obj a (SFunction q c)) (Obj b (SFunction q' c')) =
  String.eqb q q'
  && forallb (fun attr => attr_eq (getattr_code c attr) (getattr_code c' attr))
             compared_code_attrs.
Proof.
  intros Hq. unfold strictly_equal, is_local_callable. simpl.
  rewrite Hq. simpl.
  destruct (String.eqb q q'); reflexivity.
Qed.

(** The line table and the positions of a code object play no part. *)
Lemma strictly_equal_ignores_line_metadata a b q q' c c' l lt ln p :
  contains "<lambda>" q || contains "<locals>" q = true ->
  strictly_equal (Obj a (SFunction q c))
                 (Obj b (SFunction q' (with_line_metadata c' l lt ln p))) =
  strictly_equal (Obj a (SFunction q c)) (Obj b (SFunction q' c')).
Proof.
  intros Hq. rewrite !strictly_equal_local_function by exact Hq.
  rewrite compared_code_attrs_eq. reflexivity.
Qed.

(** Objects that are neither of differing type nor local callables are
    compared with [==], and by identity only when [==] raises. *)
Lemma strictly_equal_otherwise (x y : pyval) :
  type_of x = type_of y -> is_local_callable x = false ->
  strictly_equal x y = match py_eq x y with Some b => b | None => py_is x y end.
Proof.
  intros Ht Hl. unfold strictly_equal.
  rewrite bool_decide_eq_false_2 by (intros H; apply H, Ht).
  rewrite Hl. reflexivity.
Qed.

(** Numbers, text and binary sequences of one type are compared by value. *)
Lemma strictly_equal_int a b m n :
  strictly_equal (Obj a (SInt m)) (Obj b (SInt n)) = Z.eqb m n.
Proof.
  unfold strictly_equal. simpl.
  rewrite Z.pow_0_r, Z.mul_1_r, andb_true_r. reflexivity.
Qed.

Lemma strictly_equal_str a b s t :
  strictly_equal (Obj a (SStr s)) (Obj b (SStr t)) = String.eqb s t.
Proof. reflexivity. Qed.

Lemma strictly_equal_float a b f g :
  strictly_equal (Obj a (SFloat f)) (Obj b (SFloat g)) = float_eq f g.
Proof. unfold strictly_equal. simpl. rewrite andb_true_r. reflexivity. Qed.

Lemma strictly_equal_complex a b r i r' i' :
  strictly_equal (Obj a (SComplex r i)) (Obj b (SComplex r' i')) =
  float_eq r r' && float_eq i i'.
Proof. reflexivity. Qed.

Lemma strictly_equal_bytes a b s t :
  strictly_equal (Obj a (SBytes s)) (Obj b (SBytes t)) = bool_decide (s = t).
Proof. reflexivity. Qed.

Lemma strictly_equal_bytearray a b s t :
  strictly_equal (Obj a (SByteArray s)) (Obj b (SByteArray t)) = bool_decide (s = t).
Proof. reflexivity. Qed.

Lemma strictly_equal_memoryview a b s t :
  strictly_equal (Obj a (SMemoryView s)) (Obj b (SMemoryView t)) = bool_decide (s = t).
Proof. reflexivity. Qed.

(** C3, at the input where the code leaves the documented policy: two
    distinct list objects with equal items.  The docstring of [strictly_equal]
    has lists compared by identity; the code compares them with [==]. *)
Theorem strictly_equal_distinct_equal_lists :
  let x := Obj 1 (SList [Obj 10 (SInt 1)]) in
  let y := Obj 2 (SList [Obj 11 (SInt 1)]) in
  type_of x = type_of y /\ py_is x y = false /\ strictly_equal x y = true.
Proof. vm_compute. repeat split. Qed.

(** The first line number of a code object is compared: the same lambda
    written on another line is another function to [strictly_equal]. *)
Example strictly_equal_same_lambda_two_renders :
  strictly_equal (Obj 1 (SFunction "view.<locals>.<lambda>" (lambda_code 7)))
                 (Obj 2 (SFunction "view.<locals>.<lambda>" (lambda_code 7))) = true.
Proof. vm_compute. reflexivity. Qed.

Example strictly_equal_lambda_moved_line :
  strictly_equal (Obj 1 (SFunction "view.<locals>.<lambda>" (lambda_code 7)))
                 (Obj 2 (SFunction "view.<locals>.<lambda>" (lambda_code 8))) = false.
Proof. vm_compute. reflexivity. Qed.

(** An object whose [__eq__] raises is compared by identity. *)
Example strictly_equal_raising_eq :
  strictly_equal (Obj 1 (SInstance "A" EqRaises [])) (Obj 1 (SInstance "A" EqRaises [])) = true
  /\ strictly_equal (Obj 1 (SInstance "A" EqRaises [])) (Obj 2 (SInstance "A" EqRaises [])) = false.
Proof. vm_compute. split; reflexivity. Qed.

(** ** [use_state] *)

Section DispatchFacts.
Import UseState.
Variable call0 : pyval -> pyval.
Variable call1 : pyval -> pyval -> pyval.

Lemma dispatch_accepted new self hook :
  strictly_equal (next_value call1 new self) (value self) = false ->
  dispatch call1 new (self, hook)
  = ({| value := next_value call1 new self |}, schedule_render hook).
Proof. intros H. unfold dispatch. rewrite H. reflexivity. Qed.

Lemma dispatch_rejected new self hook :
  strictly_equal (next_value call1 new self) (value self) = true ->
  dispatch call1 new (self, hook) = (self, hook).
Proof. intros H. unfold dispatch. rewrite H. reflexivity. Qed.

Lemma last_cons_any_default {A} (x : A) (l : list A) (d d' : A) :
  List.last (x :: l) d = List.last (x :: l) d'.
Proof.
  revert x. induction l as [|y l IH]; intros x; [reflexivity|].
  change (List.last (y :: l) d = List.last (y :: l) d'). apply IH.
Qed.

Lemma dispatch_all_cons new news st :
  dispatch_all call1 (new :: news) st = dispatch_all call1 news (dispatch call1 new st).
Proof. reflexivity. Qed.

Lemma next_value_dispatched new v :
  next_value call1 new {| value := v |} = dispatched_value call1 v new.
Proof. unfold next_value, dispatched_value. cbn [value]. destruct (callable new); reflexivity. Qed.

(** C1: after any sequence of dispatch calls the cell holds the last
    dispatched value that [strictly_equal] judged different from the value
    stored when it arrived (the initial value when there is none), and
    [schedule_render] was called once for each such value and for no
    other.  The dispatched value is the argument of the call itself, or what
    a callable argument returns for the value stored at that moment: a
    single call whose value differs from the stored one stores that value
    and schedules one render, and a call whose value does not differ changes
    nothing. *)
Theorem dispatch_all_last_accepted (news : list pyval) (self : _CurrentState)
    (hook : LifeCycleHook) :
  let accepted := accepted_changes call1 (value self) news in
  (let '(self', hook') := dispatch_all call1 news (self, hook) in
   value self' = List.last accepted (value self)
   /\ scheduled_renders hook' = (scheduled_renders hook + length accepted)%nat)
  /\ (forall new,
        dispatch call1 new (self, hook)
        = if strictly_equal (dispatched_value call1 (value self) new) (value self)
          then (self, hook)
          else ({| value := dispatched_value call1 (value self) new |},
                {| scheduled_renders := S (scheduled_renders hook) |})).
Proof.
  cbv zeta. split.
  - revert self hook. induction news as [|new news IH]; intros [v] [n].
    + simpl. split; [reflexivity | lia].
    + rewrite dispatch_all_cons. cbn [accepted_changes value].
      rewrite <- next_value_dispatched.
      destruct (strictly_equal (next_value call1 new {| value := v |}) v) eqn:E.
      * rewrite dispatch_rejected by exact E.
        apply (IH {| value := v |} {| scheduled_renders := n |}).
      * rewrite dispatch_accepted by exact E.
        specialize (IH {| value := next_value call1 new {| value := v |} |}
                       (schedule_render {| scheduled_renders := n |})).
        cbn [value] in IH.
        destruct (dispatch_all call1 news _) as [self' hook'].
        destruct IH as [IHv IHn]. split.
        -- rewrite IHv.
           destruct (accepted_changes call1 (next_value call1 new {| value := v |}) news);
             [reflexivity|].
           change (List.last (?a :: ?b :: ?l) ?d) with (List.last (b :: l) d).
           apply last_cons_any_default.
        -- rewrite IHn. simpl. lia.
  - intros new. destruct self as [v]. unfold dispatch.
    rewrite next_value_dispatched. cbn [value].
    destruct (strictly_equal (dispatched_value call1 v new) v); reflexivity.
Qed.

End DispatchFacts.

(** ** [use_memo] *)

Section MemoFacts.
Import UseMemo.
Variable World : Type.

(** [all(...)] over the zipped sequences fails exactly when some position
    holds a pair that is not strictly equal. *)
Lemma all_strictly_equal_false (stored new : list pyval) :
  all_strictly_equal stored new = false <->
  exists (i : nat) (a b : pyval),
    stored !! i = Some a /\ new !! i = Some b /\ strictly_equal a b = false.
Proof.
  unfold all_strictly_equal. revert new.
  induction stored as [|a stored IH]; intros [|b new]; simpl.
  - split; [discriminate | intros (i & ? & ? & H & _); destruct i; discriminate].
  - split; [discriminate | intros (i & ? & ? & H & _); destruct i; discriminate].
  - split; [discriminate | intros (i & ? & ? & _ & H & _); destruct i; discriminate].
  - rewrite andb_false_iff, IH. split.
    + intros [H | (i & x & y & Hx & Hy & H)].
      * exists 0%nat, a, b. auto.
      * exists (S i), x, y. auto.
    + intros ([|i] & x & y & Hx & Hy & H); simpl in Hx, Hy.
      * left. congruence.
      * right. eauto 6.
Qed.

Lemma deps_differ_test (stored new : list pyval) :
  negb (Nat.eqb (length stored) (length new)) || negb (all_strictly_equal stored new)
  = true <-> deps_differ stored new.
Proof.
  unfold deps_differ.
  rewrite orb_true_iff, !negb_true_iff, Nat.eqb_neq, all_strictly_equal_false.
  reflexivity.
Qed.


Lemma new_Memo_deps_set_with_value : deps_set_with_value new_Memo.
Proof. intros H. exfalso. apply H. reflexivity. Qed.

Lemma use_memo_deps_set_with_value (function : option (Function World))
    dependencies memo (w w' : World) out memo' :
  deps_set_with_value memo ->
  use_memo function dependencies memo w = Some (out, memo', w') ->
  deps_set_with_value memo'.
Proof.
  intros Hwf. unfold use_memo, compare_deps.
  set (d := _try_to_infer_closure_values function dependencies).
  assert (Hc : forall changed m,
    deps m <> None ->
    match function with
    | Some f =>
        match setup changed f m w with
        | Some (v, memo, w) => Some (Value v, memo, w)
        | None => None
        end
    | None => Some (Setup changed, m, w)
    end = Some (out, memo', w') -> deps_set_with_value memo').
  { intros changed m Hm Hr _. destruct function as [f|].
    - unfold setup in Hr. destruct changed.
      + destruct (run f w) as [v w1]. injection Hr as _ <- _. exact Hm.
      + destruct (value m); [|discriminate]. injection Hr as _ <- _. exact Hm.
    - injection Hr as _ <- _. exact Hm. }
  destruct (empty memo) eqn:He.
  - apply Hc. discriminate.
  - destruct d as [d|].
    + destruct (deps memo) as [cur|] eqn:Hd; [|discriminate].
      destruct (negb _ || negb _).
      * apply Hc. discriminate.
      * apply Hc. rewrite Hd. discriminate.
    + apply Hc. discriminate.
Qed.

(** C2: [use_memo] called with a function on a memo whose [deps] are set
    whenever its [value] is.  When the memo is empty (the first call for the
    slot), or the dependencies are [None], or they differ from the stored
    ones in length or in some position under [strictly_equal], the function
    is invoked and its result and the new dependencies are stored ([()] for
    [None]).  In every other case the stored value is returned, and neither
    the memo nor the world the function acts on changes. *)
Theorem use_memo_recomputes_exactly_when (f : Function World)
    (dependencies : Dependencies) (memo : _Memo) (w : World) :
  deps_set_with_value memo ->
  let d := _try_to_infer_closure_values (Some f) dependencies in
  (must_recompute memo d ->
     use_memo (Some f) dependencies memo w
     = Some (Value (run f w).1,
             {| value := Some (run f w).1; deps := Some (default [] d) |},
             (run f w).2))
  /\ (~ must_recompute memo d ->
     exists v, value memo = Some v
       /\ use_memo (Some f) dependencies memo w = Some (Value v, memo, w)).
Proof.
  intros Hwf d. unfold use_memo, compare_deps. fold d.
  destruct memo as [mv md]. unfold empty. cbn [value deps] in *.
  split.
  - intros Hre. destruct mv as [v|].
    + destruct d as [new|].
      * destruct md as [stored|]; [|exfalso; apply Hwf; [discriminate|reflexivity]].
        destruct Hre as [Hre | [Hre | (s & n & Hs & Hn & Hdiff)]]; try discriminate.
        injection Hs as <-. injection Hn as <-.
        apply deps_differ_test in Hdiff. rewrite Hdiff.
        unfold setup. destruct (run f w); reflexivity.
      * unfold setup. destruct (run f w); reflexivity.
    + unfold setup. destruct (run f w); reflexivity.
  - intros Hno. destruct mv as [v|].
    2:{ exfalso. apply Hno. left. reflexivity. }
    exists v. split; [reflexivity|].
    destruct d as [new|].
    2:{ exfalso. apply Hno. right. left. reflexivity. }
    destruct md as [stored|]; [|exfalso; apply Hwf; [discriminate|reflexivity]].
    destruct (negb (Nat.eqb (length stored) (length new))
              || negb (all_strictly_equal stored new)) eqn:Ht.
    + exfalso. apply Hno. right. right. exists stored, new.
      repeat split. apply deps_differ_test. exact Ht.
    + reflexivity.
Qed.

End MemoFacts.

(** ** [use_effect] *)

Lemma snoc_eq_app_cons {A} (t t1 t2 : list A) (e e' : A) :
  t ++ [e] = t1 ++ e' :: t2 ->
  (t1 = t /\ e' = e /\ t2 = []) \/ exists t2', t2 = t2' ++ [e] /\ t = t1 ++ e' :: t2'.
Proof.
  destruct t2 as [|x t2 _] using rev_ind; intros H.
  - left. apply app_inj_tail in H. destruct H as [-> ->]. auto.
  - right. exists t2.
    change (t ++ [e] = t1 ++ (e' :: t2) ++ [x]) in H.
    rewrite app_assoc in H. apply app_inj_tail in H. destruct H as [-> ->]. auto.
Qed.

Section SyncEffectFacts.
Import UseEffect.
Variable func : nat -> option Callable.

Lemma ordered_nil : ordered func [].
Proof. intros t1 e t2 H. destruct t1; discriminate. Qed.

Lemma ordered_snoc t e :
  ordered func t -> in_order func t e -> ordered func (t ++ [e]).
Proof.
  intros Ho He t1 e' t2 H. apply snoc_eq_app_cons in H.
  destruct H as [(-> & -> & _) | (t2' & _ & ->)]; [exact He|].
  eapply Ho. reflexivity.
Qed.

(** A clean-up in an ordered trace comes after the body that returned it. *)
Lemma ordered_cleanup_after_body t n c :
  ordered func t -> RanCleanup n c ∈ t -> RanBody n ∈ t.
Proof.
  intros Ho Hin. apply list_elem_of_split in Hin. destruct Hin as (t1 & t2 & ->).
  destruct (Ho t1 _ t2 eq_refl) as (Hb & _). apply elem_of_app. auto.
Qed.

Lemma slot_ok_new : slot_ok func new_Slot.
Proof.
  split; [apply ordered_nil|]. split.
  - intros n c H. discriminate.
  - intros n c H. apply elem_of_nil in H. destruct H.
Qed.

Lemma run_effect_cleanup_ok cf :
  slot_ok func cf ->
  slot_ok func (run_effect_cleanup cf) /\ current (run_effect_cleanup cf) = None
  /\ forall n, RanBody n ∈ trace (run_effect_cleanup cf) <-> RanBody n ∈ trace cf.
Proof.
  intros (Ho & Hcur & Hall). unfold run_effect_cleanup.
  destruct (current cf) as [[n c]|] eqn:Ec.
  - destruct (Hcur n c eq_refl) as (Hb & Hf & Hno). cbn [current trace].
    split; [|split; [reflexivity|]].
    + split; [|split].
      * apply ordered_snoc; [exact Ho|]. cbn. auto.
      * intros ? ? H. discriminate.
      * intros n' c' Hb' Hf'. left. cbn [trace] in *.
        apply elem_of_app in Hb'. destruct Hb' as [Hb'|Hb'].
        2:{ apply list_elem_of_singleton in Hb'. discriminate. }
        destruct (Hall n' c' Hb' Hf') as [H|H].
        -- apply elem_of_app. auto.
        -- injection H as -> ->. apply elem_of_app. right.
           apply list_elem_of_singleton. reflexivity.
    + intros m. rewrite elem_of_app, list_elem_of_singleton.
      split; [intros [H|H]; [exact H|discriminate] | auto].
  - split; [|split; [first [exact Ec | reflexivity] | reflexivity]].
    split; [exact Ho|].
    split; intros n c; rewrite Ec; [discriminate | apply Hall].
Qed.

Lemma effect_begin_ok n cf :
  slot_ok func cf -> RanBody n ∉ trace cf ->
  slot_ok func (effect_begin func n cf)
  /\ forall m, RanBody m ∈ trace (effect_begin func n cf) <-> m = n \/ RanBody m ∈ trace cf.
Proof.
  intros Hok Hfresh.
  destruct (run_effect_cleanup_ok cf Hok) as ((Ho & Hcur & Hall) & Hnone & Hsame).
  unfold effect_begin. set (cf1 := run_effect_cleanup cf) in *. cbn [current trace].
  assert (Hfresh1 : RanBody n ∉ trace cf1) by (rewrite Hsame; exact Hfresh).
  split.
  - split; [|split].
    + apply ordered_snoc; [exact Ho|]. cbn. intros n' c Hb Hf.
      destruct (Hall n' c Hb Hf) as [H|H]; [exact H|]. rewrite Hnone in H. discriminate.
    + intros n' c H. destruct (func n) as [c0|] eqn:Ef; [|discriminate].
      cbn in H. injection H as <- <-.
      split; [|split; [exact Ef|]].
      * apply elem_of_app. right. apply list_elem_of_singleton. reflexivity.
      * intros c' Hin. apply elem_of_app in Hin. destruct Hin as [Hin|Hin].
        -- apply Hfresh1. eapply ordered_cleanup_after_body; eauto.
        -- apply list_elem_of_singleton in Hin. discriminate.
    + intros n' c Hb Hf. apply elem_of_app in Hb. destruct Hb as [Hb|Hb].
      * left. apply elem_of_app. left.
        destruct (Hall n' c Hb Hf) as [H|H]; [exact H|]. rewrite Hnone in H. discriminate.
      * apply list_elem_of_singleton in Hb. injection Hb as ->.
        right. rewrite Hf. reflexivity.
  - intros m. rewrite elem_of_app, list_elem_of_singleton, Hsame.
    split.
    + intros [H|H]; [auto | injection H as ->; auto].
    + intros [->|H]; auto.
Qed.

Lemma effects_ok_initial : effects_ok func initial.
Proof.
  split; [apply slot_ok_new|]. intros n _ H. apply elem_of_nil in H. destruct H.
Qed.

Lemma step_ok a s : effects_ok func s -> effects_ok func (step func a s).
Proof.
  intros (Hslot & Hph). destruct a as [n|n]; cbn [step].
  2:{ split; [exact Hslot | exact Hph]. }
  destruct (phase s n) eqn:En.
  - pose proof (Hph n En) as Hfresh.
    destruct (effect_begin_ok n _ Hslot Hfresh) as (Hb & Hbody).
    assert (Hph' : forall cf', (forall m, RanBody m ∈ trace cf' <->
                                 RanBody m ∈ trace (effect_begin func n (cleanup_func s))) ->
              forall p, p <> NotStarted ->
              forall m, update (phase s) n p m = NotStarted -> RanBody m ∉ trace cf').
    { intros cf' Hcf' p Hp m Hm. unfold update in Hm. rewrite Hcf', Hbody.
      destruct (Nat.eqb m n) eqn:Emn; [congruence|].
      apply Nat.eqb_neq in Emn. intros [H|H]; [congruence|]. exact (Hph m Hm H). }
    destruct (stop_is_set s n).
    + destruct (run_effect_cleanup_ok _ Hb) as (Hc & _ & Hsame).
      split; cbn [cleanup_func phase]; [exact Hc|].
      apply Hph'; [exact Hsame | discriminate].
    + split; cbn [cleanup_func phase]; [exact Hb|].
      apply Hph'; [reflexivity | discriminate].
  - destruct (stop_is_set s n); [|split; [exact Hslot | exact Hph]].
    destruct (run_effect_cleanup_ok _ Hslot) as (Hc & _ & Hsame).
    split; cbn [cleanup_func phase]; [exact Hc|].
    intros m Hm. unfold effect_end. rewrite Hsame. apply Hph.
    unfold update in Hm. destruct (Nat.eqb m n); [discriminate | exact Hm].
  - split; [exact Hslot | exact Hph].
Qed.

Lemma run_schedule_ok acts s :
  effects_ok func s -> effects_ok func (run_schedule func acts s).
Proof.
  revert s. induction acts as [|a acts IH]; intros s Hs; [exact Hs|].
  apply IH. apply step_ok. exact Hs.
Qed.

(** When every body and every clean-up returns: whatever the event loop does
    with the effects registered at one hook slot, the clean-up returned by
    the body of a registration is invoked at most once, and when the body of
    a registration runs, the clean-up of every registration whose body ran
    before it has already been run. *)
Lemma effect_cleanup_once_and_before_next_body (acts : list Action) :
  let t := trace (cleanup_func (run_schedule func acts initial)) in
  (forall t1 t2 n c, t = t1 ++ RanCleanup n c :: t2 ->
     forall c', (RanCleanup n c' ∉ t1) /\ (RanCleanup n c' ∉ t2))
  /\ (forall t1 t2 m, t = t1 ++ RanBody m :: t2 ->
       forall n c, RanBody n ∈ t1 -> func n = Some c -> RanCleanup n c ∈ t1).
Proof.
  intros t.
  destruct (run_schedule_ok acts initial effects_ok_initial) as ((Ho & _) & _).
  fold t in Ho. split.
  - intros t1 t2 n c Ht c'.
    destruct (Ho t1 _ t2 Ht) as (_ & _ & Hno). split; [apply Hno|].
    intros Hin. apply list_elem_of_split in Hin. destruct Hin as (u & v & ->).
    assert (Ht' : t = (t1 ++ RanCleanup n c :: u) ++ RanCleanup n c' :: v).
    { rewrite Ht, <- app_assoc. reflexivity. }
    destruct (Ho _ _ _ Ht') as (_ & _ & Hno').
    apply (Hno' c). apply elem_of_app. right. apply elem_of_cons. auto.
  - intros t1 t2 m Ht. exact (Ho t1 _ t2 Ht).
Qed.

End SyncEffectFacts.

(** Two registrations, the second activated before the first is stopped. *)
Example effect_schedule_example :
  let func := fun n : nat => Some (100 + n)%nat in
  UseEffect.trace (UseEffect.cleanup_func
    (UseEffect.run_schedule func
       [UseEffect.Resume 0; UseEffect.Resume 1; UseEffect.SetStop 0;
        UseEffect.Resume 0; UseEffect.SetStop 1; UseEffect.Resume 1]%nat
       UseEffect.initial))
  = [UseEffect.RanBody 0; UseEffect.RanCleanup 0 100; UseEffect.RanBody 1;
     UseEffect.RanCleanup 1 101]%nat.
Proof. reflexivity. Qed.

(** ** [use_effect] when a clean-up or a body raises *)

Section RaisingEffectFacts.
Import UseEffect EffectErrors.
Variable raises : list Event -> Callable -> bool.
Variable func : nat -> Body.


Lemma invoked_at_snoc_inv t e n c u :
  invoked_at (t ++ [e]) n c u ->
  (u = t /\ e = RanCleanup n c) \/ invoked_at t n c u.
Proof.
  intros (v & H). apply snoc_eq_app_cons in H.
  destruct H as [(-> & -> & _) | (v' & _ & ->)]; [auto|].
  right. exists v'. reflexivity.
Qed.

Lemma invoked_at_elem t n c u : invoked_at t n c u -> RanCleanup n c ∈ t.
Proof. intros (v & ->). apply elem_of_app. right. apply elem_of_cons. auto. Qed.













(** When nothing raises and no task is cancelled, this slot is the slot of
    [Hooks.UseEffect]. *)
Lemma step_same_slot (f : nat -> option Callable) a s s' :
  same_slot s s' ->
  same_slot (UseEffect.step f a s)
            (step (fun _ _ => false) (fun n => BodyReturns (f n)) (as_turn a) s').
Proof.
  intros (Hc & Hp & Hs). destruct a as [n|n]; cbn [UseEffect.step step as_turn].
  2:{ split; [exact Hc|]. split; [exact Hp|]. cbn [stop_event stop_is_set].
      intros m. unfold update. rewrite Hs. reflexivity. }
  assert (Hcl : forall cf, run_effect_cleanup (fun _ _ => false) cf
                           = (UseEffect.run_effect_cleanup cf, Returns)).
  { intros cf. unfold run_effect_cleanup, UseEffect.run_effect_cleanup.
    destruct (current cf) as [[k c]|]; reflexivity. }
  assert (Hupd : forall p m, update (coroutine s') n (as_coroutine p) m
                             = as_coroutine (update (phase s) n p m)).
  { intros p m. unfold update. rewrite Hp. destruct (Nat.eqb m n); reflexivity. }
  rewrite Hp, Hs, Hc. destruct (phase s n); cbn [as_coroutine].
  - unfold effect_begin, finish, effect_end. rewrite Hcl. cbv beta iota.
    unfold UseEffect.effect_begin, UseEffect.effect_end.
    destruct (stop_is_set s n).
    + rewrite Hcl. split; [reflexivity|]. split; [apply (Hupd Finished) | exact Hs].
    + split; [reflexivity|]. split; [apply (Hupd AwaitingStop) | exact Hs].
  - destruct (stop_is_set s n).
    + unfold finish, effect_end. rewrite Hcl.
      split; [reflexivity|]. split; [apply (Hupd Finished) | exact Hs].
    + split; [exact Hc|]. split; [exact Hp | exact Hs].
  - split; [exact Hc|]. split; [exact Hp | exact Hs].
Qed.

End RaisingEffectFacts.


(** A clean-up that raises at its first call only: the next effect ends at
    that call, before its body; the effect after it invokes the clean-up
    again and runs. *)
Example cleanup_raising_once_example :
  let raises := fun (before : list UseEffect.Event) (c : UseEffect.Callable) =>
    bool_decide (UseEffect.RanCleanup 0 c ∉ before) in
  let func := fun n : nat => EffectErrors.BodyReturns (Some (100 + n)%nat) in
  let s := EffectErrors.run_schedule raises func
             [EffectErrors.Resume 0; EffectErrors.Resume 1; EffectErrors.Resume 2]%nat
             EffectErrors.initial in
  UseEffect.trace (EffectErrors.cleanup_ref s)
  = [UseEffect.RanBody 0; UseEffect.RanCleanup 0 100; UseEffect.RanCleanup 0 100;
     UseEffect.RanBody 2]%nat
  /\ EffectErrors.coroutine s 1%nat = EffectErrors.HasRaised
  /\ EffectErrors.coroutine s 2%nat = EffectErrors.AtStopWait.
Proof. vm_compute. repeat split. Qed.

(** The same registrations with clean-ups that return: the effect that is
    stopped invokes the clean-up the Ref holds, which is the one of the
    later registration. *)
Example returning_cleanups_example :
  let raises := fun (_ : list UseEffect.Event) (c : UseEffect.Callable) => false in
  let func := fun n : nat => EffectErrors.BodyReturns (Some (100 + n)%nat) in
  let s := EffectErrors.run_schedule raises func
             [EffectErrors.Resume 0; EffectErrors.Resume 1; EffectErrors.SetStop 0;
              EffectErrors.Resume 0]%nat
             EffectErrors.initial in
  UseEffect.trace (EffectErrors.cleanup_ref s)
  = [UseEffect.RanBody 0; UseEffect.RanCleanup 0 100; UseEffect.RanBody 1;
     UseEffect.RanCleanup 1 101]%nat
  /\ EffectErrors.coroutine s 0%nat = EffectErrors.HasReturned.
Proof. vm_compute. repeat split. Qed.

(** An effect whose task is cancelled while it waits for the stop signal
    leaves its clean-up in the Ref; the next effect invokes it. *)
Example cancelled_effect_example :
  let raises := fun (_ : list UseEffect.Event) (c : UseEffect.Callable) => false in
  let func := fun n : nat => EffectErrors.BodyReturns (Some (100 + n)%nat) in
  let s := EffectErrors.run_schedule raises func
             [EffectErrors.Resume 0; EffectErrors.Cancel 0; EffectErrors.Resume 1]%nat
             EffectErrors.initial in
  UseEffect.trace (EffectErrors.cleanup_ref s)
  = [UseEffect.RanBody 0; UseEffect.RanCleanup 0 100; UseEffect.RanBody 1]%nat
  /\ EffectErrors.coroutine s 0%nat = EffectErrors.HasRaised.
Proof. vm_compute. repeat split. Qed.

(** ** [use_async_effect] *)

Section AsyncEffectFacts.
Import UseEffect.
Variable Task : Type.
Variable asyncio_wait : Task -> Q -> option (option Callable).


End AsyncEffectFacts.


(** ** VDOM construction *)

Section VdomFacts.
Import Vdom.

(** A value is flattened to itself exactly when it is a single child, and
    to its flattened items otherwise. *)
Lemma _flatten_child_single (child : obj) :
  _is_single_child child = true -> _flatten_child child = [child].
Proof. destruct child; simpl; (reflexivity || discriminate). Qed.

Lemma _flatten_child_iterable (child : obj) (items : list obj) :
  _is_single_child child = false -> iter child = Some items ->
  _flatten_child child = _flatten_children items.
Proof.
  destruct child; simpl; try discriminate; intros _ [= <-];
    unfold _flatten_children;
    match goal with |- _ = flat_map _ ?l => induction l as [|? ? IH] end;
    simpl; congruence.
Qed.

(** A leading argument whose type is [dict] is the attributes, the other
    arguments, flattened, are the children. *)
Lemma separate_attributes_and_children_dict attrs rest :
  separate_attributes_and_children (Dict attrs :: rest)
  = (attrs, _flatten_children rest).
Proof. reflexivity. Qed.

(** A leading mapping of another type, such as a [VdomDict], is a child. *)
Lemma separate_attributes_and_children_VdomDict items rest :
  separate_attributes_and_children (VdomDictV items :: rest)
  = ([], VdomDictV items :: _flatten_children rest).
Proof. reflexivity. Qed.





End VdomFacts.

(** ** The renderers: outgoing messages *)

Section RendererFacts.
Import Render.
Variable Model : Type.
Variable Error : Type.

Lemma get_four_keys (a b c d : Field Model Error) (k : string) (e : option Error) :
  (forall e', a <> FError e') -> (forall e', b <> FError e') ->
  (forall e', c <> FError e') -> (forall e', d <> FError e') ->
  get [("root", a); ("src", b); ("new", c); ("old", d)] k <> Some (FError e).
Proof.
  intros Ha Hb Hc Hd H. cbn [get] in H.
  repeat match type of H with
         | (if ?b then _ else _) = _ => destruct b; [congruence|]
         end.
  discriminate.
Qed.

(** C7, amended: the outgoing message of either renderer holds [root],
    [src], [new] and [old], the last three as the update has them.  The
    error marker is unpacked and left out: no key of the message holds it,
    and the message is the same whatever the marker is.  The render loop of
    the shared renderer does put the update on the queues as it is, error
    marker included. *)
Theorem outgoing_message_leaves_error_out (r : string)
    (update : LayoutUpdate Model Error) :
  let msg : Message Model Error :=
    [ ("root", FId r); ("src", FId (src update));
      ("new", FModels (new update)); ("old", FIds (old update)) ] in
  single_outgoing r update = msg
  /\ shared_outgoing r update = msg
  /\ (forall k e, get msg k <> Some (FError e))
  /\ (forall e,
        single_outgoing r
          {| src := src update; new := new update; old := old update; error := e |}
        = msg)
  /\ (forall self s', render_iteration update self = Returned s' ->
        _updates s' = (fun queue => queue ++ [update]) <$> _updates self).
Proof.
  intros msg. destruct update as [s n o e]. cbn [src new old] in *.
  repeat split.
  - intros k e'. apply get_four_keys; discriminate.
  - intros self s' H. unfold render_iteration in H.
    destruct (evict _ _); [|discriminate]. injection H as <-. reflexivity.
Qed.

End RendererFacts.

(** C7, as stated, fails: an update with an error marker and the same update
    without one give the same message, and no key of it holds the marker. *)
Lemma outgoing_message_drops_error :
  let failed : Render.LayoutUpdate nat string :=
    {| Render.src := "7"; Render.new := ∅; Render.old := []; Render.error := Some "boom" |} in
  let fine : Render.LayoutUpdate nat string :=
    {| Render.src := "7"; Render.new := ∅; Render.old := []; Render.error := None |} in
  Render.single_outgoing "0" failed = Render.single_outgoing "0" fine
  /\ Render.shared_outgoing "0" failed = Render.shared_outgoing "0" fine
  /\ ~ (exists k, Render.get (Render.single_outgoing "0" failed) k
                  = Some (Render.FError (Render.error failed)))
  /\ ~ (exists k, Render.get (Render.shared_outgoing "0" failed) k
                  = Some (Render.FError (Render.error failed))).
Proof.
  intros failed fine. split; [reflexivity|]. split; [reflexivity|].
  split; intros (k & H); revert H; apply get_four_keys; discriminate.
Qed.

(** ** The shared renderer: the render loop *)

Section RenderLoopFacts.
Import Render.
Variable Model : Type.
Variable Error : Type.


Lemma evict_missing (ids : list string) (models : gmap string Model) (id : string) :
  id ∈ ids -> models !! id = None ->
  exists k pre post,
    ids = pre ++ k :: post /\ evict ids models = KeyError k (evicted models pre)
    /\ evicted models pre !! k = None.
Proof.
  revert models. induction ids as [|x ids IH]; intros models Hin Hnone.
  - apply elem_of_nil in Hin. destruct Hin.
  - cbn [evict]. destruct (models !! x) as [v|] eqn:Ex.
    + assert (Hne : x <> id) by congruence.
      apply elem_of_cons in Hin. destruct Hin as [->|Hin]; [congruence|].
      destruct (IH (delete x models) Hin) as (k & pre & post & -> & He & Hk).
      { rewrite lookup_delete_ne by exact Hne. exact Hnone. }
      exists k, (x :: pre), post. auto.
    + exists x, [], ids. auto.
Qed.

Lemma evict_returned (ids : list string) (models models' : gmap string Model) :
  evict ids models = Returned models' ->
  models' = evicted models ids /\ forall id, id ∈ ids -> is_Some (models !! id).
Proof.
  revert models. induction ids as [|x ids IH]; intros models H; cbn [evict] in H.
  - injection H as <-. split; [reflexivity|].
    intros id Hin. apply elem_of_nil in Hin. destruct Hin.
  - destruct (models !! x) as [v|] eqn:Ex; [|discriminate].
    destruct (IH _ H) as (-> & Hall). split; [reflexivity|].
    intros id Hin. apply elem_of_cons in Hin. destruct Hin as [->|Hin]; [eauto|].
    specialize (Hall id Hin). destruct (decide (x = id)) as [->|Hne]; [eauto|].
    rewrite lookup_delete_ne in Hall by exact Hne. exact Hall.
Qed.

(** An id that is a key neither of the shared model nor of the [new] nodes of
    the update is missing when the ids are evicted. *)
Lemma evict_missing_before_merge (update : LayoutUpdate Model Error)
    (self : SharedStateRenderer Model Error) (old_id : string) :
  old_id ∈ old update -> _models self !! old_id = None -> new update !! old_id = None ->
  exists k models, evict (old update) (new update ∪ _models self) = KeyError k models.
Proof.
  intros Hin Hm Hn.
  destruct (evict_missing (old update) (new update ∪ _models self) old_id Hin)
    as (k & pre & post & _ & He & _).
  - apply lookup_union_None. auto.
  - eauto.
Qed.

(** C10: a turn of the render loop on an update whose [old] lists an id that
    is not a key of the shared model (the model as it is when the ids are
    evicted, the [new] nodes of the update merged in) raises [KeyError].  At
    that point the model holds the merged nodes less the ids evicted before
    the missing one, and no queue has received the update.  A turn that does
    not raise had every id of [old] in the model. *)
Theorem render_iteration_missing_old_id (update : LayoutUpdate Model Error)
    (self : SharedStateRenderer Model Error) :
  let merged := new update ∪ _models self in
  (forall old_id, old_id ∈ old update -> merged !! old_id = None ->
     exists k pre post,
       old update = pre ++ k :: post
       /\ evicted merged pre !! k = None
       /\ render_iteration update self
          = KeyError k
              {| root := root self;
                 _models := evicted merged pre;
                 _updates := _updates self;
                 render_task_failed := true;
                 loops := loops self;
                 sent := sent self;
                 enqueued := enqueued self |})
  /\ (forall s', render_iteration update self = Returned s' ->
        (forall old_id, old_id ∈ old update -> is_Some (merged !! old_id))
        /\ _models s' = evicted merged (old update)
        /\ _updates s' = (fun queue => queue ++ [update]) <$> _updates self).
Proof.
  intros merged. split.
  - intros old_id Hin Hnone.
    destruct (evict_missing _ merged old_id Hin Hnone) as (k & pre & post & Ho & He & Hk).
    exists k, pre, post. split; [exact Ho|]. split; [exact Hk|].
    unfold render_iteration. fold merged. rewrite He. reflexivity.
  - intros s' H. unfold render_iteration in H. fold merged in H.
    destruct (evict (old update) merged) as [m|] eqn:He; [|discriminate].
    injection H as <-. destruct (evict_returned _ _ _ He) as (-> & Hall).
    auto.
Qed.

End RenderLoopFacts.

Lemma render_iteration_witness :
  let update : Render.LayoutUpdate nat string :=
    {| Render.src := "0"; Render.new := {[ "b" := 2%nat ]};
       Render.old := ["a"; "zz"]; Render.error := None |} in
  let self : Render.SharedStateRenderer nat string :=
    {| Render.root := "0"; Render._models := {[ "a" := 1%nat ]};
       Render._updates := {[ "client" := [] ]}; Render.render_task_failed := false;
       Render.loops := ∅; Render.sent := ∅; Render.enqueued := [] |} in
  exists k pre post,
    Render.old update = pre ++ k :: post
    /\ Render.evicted (Render.new update ∪ Render._models self) pre !! k = None
    /\ Render.render_iteration update self
       = Render.KeyError k
           {| Render.root := "0";
              Render._models := Render.evicted (Render.new update ∪ Render._models self) pre;
              Render._updates := {[ "client" := [] ]};
              Render.render_task_failed := true;
              Render.loops := ∅; Render.sent := ∅; Render.enqueued := [] |}.
Proof.
  intros update self.
  apply (proj1 (render_iteration_missing_old_id nat string update self) "zz").
  - apply elem_of_cons. right. apply elem_of_cons. left. reflexivity.
  - vm_compute. reflexivity.
Defined.

(** ** The shared renderer: a joining client *)

Section SharedClientFacts.
Import Render.
Variable Model : Type.
Variable Error : Type.
Variable context : string.


Lemma outgoing_step_other c (s : SharedStateRenderer Model Error) :
  c <> context ->
  let s' := outgoing_step c s in
  root s' = root s /\ loops s' !! context = loops s !! context
  /\ enqueued s' = enqueued s /\ sent s' !! context = sent s !! context
  /\ _updates s' !! context = _updates s !! context.
Proof.
  intros Hne. unfold outgoing_step, loop_turn, enter_loop, send.
  destruct (loops s !! c) as [[|]|]; cbn [root _models _updates loops sent enqueued].
  - case_bool_decide; cbn [root _models _updates loops sent enqueued].
    + rewrite !lookup_insert_ne by exact Hne. auto.
    + destruct (_updates s !! c) as [[|u q]|];
        cbn [root _models _updates loops sent enqueued];
        rewrite ?lookup_insert_ne by exact Hne; auto.
  - destruct (_updates s !! c) as [[|u q]|];
      cbn [root _models _updates loops sent enqueued];
      rewrite ?lookup_insert_ne by exact Hne; auto.
  - auto.
Qed.

Lemma step_streaming r pre seen a (s : SharedStateRenderer Model Error) :
  keeps_session context a -> streaming context r pre seen s ->
  streaming context r pre seen (step a s).
Proof.
  intros Hkeep (Hr & Hl & news & k & He & Hk & Hs & Hq).
  destruct a as [update|c|c]; cbn [step].
  - destruct (render_task_failed s).
    { split; [exact Hr|]. split; [exact Hl|]. exists news, k. auto. }
    unfold render_iteration.
    destruct (evict _ _) as [m|key m]; cbn [state_of].
    + split; [exact Hr|]. split; [exact Hl|].
      exists (news ++ [update]), k. cbn [root _models _updates loops sent enqueued].
      split; [rewrite He, app_assoc; reflexivity|].
      split; [rewrite length_app; lia|].
      split; [rewrite take_app_le by exact Hk; exact Hs|].
      rewrite lookup_fmap, Hq. cbn. rewrite drop_app_le by exact Hk. reflexivity.
    + split; [exact Hr|]. split; [exact Hl|]. exists news, k. auto.
  - cbn in Hkeep. unfold run. split; [exact Hr|].
    cbn [root _models _updates loops sent enqueued].
    rewrite !lookup_insert_ne by exact Hkeep.
    split; [exact Hl|]. exists news, k. auto.
  - destruct (decide (c = context)) as [->|Hne].
    + unfold outgoing_step. rewrite Hl. unfold loop_turn. rewrite Hq.
      destruct (drop k news) as [|u q] eqn:Ed.
      * split; [exact Hr|]. split; [exact Hl|]. exists news, k.
        rewrite Ed. auto.
      * assert (Hu : news !! k = Some u).
        { rewrite <- (Nat.add_0_r k), <- lookup_drop, Ed. reflexivity. }
        assert (Hq' : q = drop (S k) news).
        { rewrite <- (Nat.add_1_r k), <- drop_drop, Ed. reflexivity. }
        unfold send. cbn [root _models _updates loops sent enqueued].
        split; [exact Hr|]. split; [exact Hl|].
        exists news, (S k).
        split; [exact He|].
        split; [apply lookup_lt_Some in Hu; lia|].
        cbn [root _models _updates loops sent enqueued].
        rewrite !lookup_insert_eq, Hs. cbn [default].
        rewrite (take_S_r _ _ _ Hu), map_app, app_assoc, Hr, Hq'. auto.
    + destruct (outgoing_step_other c s Hne) as (H1 & H2 & H3 & H4 & H5).
      split; [congruence|]. split; [congruence|].
      exists news, k. rewrite H3, H4, H5. auto.
Qed.

Lemma run_schedule_streaming r pre seen acts (s : SharedStateRenderer Model Error) :
  Forall (keeps_session context) acts -> streaming context r pre seen s ->
  streaming context r pre seen (run_schedule acts s).
Proof.
  intros Hacts. revert s. induction Hacts as [|a acts Ha _ IH]; intros s Hs.
  - exact Hs.
  - apply IH. apply step_streaming; assumption.
Qed.

(** One turn of the outgoing loop of [context], inside the loop: the oldest
    queued update leaves the queue and is sent; with an empty queue nothing
    moves. *)
Lemma outgoing_turn r pre (all : list (LayoutUpdate Model Error)) k
    (s : SharedStateRenderer Model Error) :
  root s = r -> loops s !! context = Some InLoop ->
  (k <= length all)%nat ->
  sent s !! context = Some (pre ++ map (shared_outgoing r) (take k all)) ->
  _updates s !! context = Some (drop k all) ->
  let s' := step (Outgoing context) s in
  let k' := Nat.min (S k) (length all) in
  root s' = r /\ loops s' !! context = Some InLoop
  /\ enqueued s' = enqueued s
  /\ sent s' !! context = Some (pre ++ map (shared_outgoing r) (take k' all))
  /\ _updates s' !! context = Some (drop k' all).
Proof.
  intros Hr Hl Hk Hs Hq. cbn [step]. unfold outgoing_step. rewrite Hl.
  unfold loop_turn. rewrite Hq.
  destruct (drop k all) as [|u q] eqn:Ed.
  - assert (Hlen : k = length all).
    { apply (f_equal length) in Ed. rewrite length_drop in Ed. cbn in Ed. lia. }
    replace (Nat.min (S k) (length all)) with k by lia.
    rewrite Ed. auto.
  - assert (Hu : all !! k = Some u).
    { rewrite <- (Nat.add_0_r k), <- lookup_drop, Ed. reflexivity. }
    assert (Hq' : q = drop (S k) all).
    { rewrite <- (Nat.add_1_r k), <- drop_drop, Ed. reflexivity. }
    replace (Nat.min (S k) (length all)) with (S k)
      by (apply lookup_lt_Some in Hu; lia).
    unfold send. cbn [root _models _updates loops sent enqueued].
    rewrite !lookup_insert_eq, Hs. cbn [default].
    rewrite (take_S_r _ _ _ Hu), map_app, app_assoc, Hr, Hq'. auto.
Qed.

(** As many turns as updates are waiting empty the queue: everything has
    been sent, in order. *)
Lemma outgoing_drain r pre (all : list (LayoutUpdate Model Error)) n k
    (s : SharedStateRenderer Model Error) :
  root s = r -> loops s !! context = Some InLoop ->
  (k + n = length all)%nat ->
  sent s !! context = Some (pre ++ map (shared_outgoing r) (take k all)) ->
  _updates s !! context = Some (drop k all) ->
  let s' := run_schedule (replicate n (Outgoing context)) s in
  enqueued s' = enqueued s
  /\ sent s' !! context = Some (pre ++ map (shared_outgoing r) all)
  /\ _updates s' !! context = Some [].
Proof.
  revert k s. induction n as [|n IH]; intros k s Hr Hl Hk Hs Hq.
  - cbn. replace k with (length all) in Hs, Hq by lia.
    rewrite firstn_all in Hs. rewrite drop_all in Hq. auto.
  - cbn [replicate]. unfold run_schedule. cbn [foldl].
    destruct (outgoing_turn r pre all k s Hr Hl ltac:(lia) Hs Hq)
      as (Hr' & Hl' & He' & Hs' & Hq').
    replace (Nat.min (S k) (length all)) with (S k) in Hs', Hq' by lia.
    destruct (IH (S k) _ Hr' Hl' ltac:(lia) Hs' Hq') as (He & H1 & H2).
    split; [|split]; [|exact H1|exact H2].
    unfold run_schedule in He. rewrite He. exact He'.
Qed.

(** C8: a client of the shared renderer whose session has just been set up
    ([run] gave it an empty queue, its outgoing loop has not started).  Once
    its outgoing loop has started, whatever the event loop runs afterwards,
    the client has been sent: first, when the root was a key of the shared
    model at that moment, one snapshot with [src] the root, [new] the whole
    model and [old] empty, and nothing when the root was not; then the first
    [k] of the updates enqueued since, in order, while its queue holds the
    others.  The loop goes on consuming the queue: its next turn sends the
    oldest update still queued, and after as many turns as updates are
    queued the client has been sent the snapshot (if any) followed by every
    update enqueued since, and its queue is empty. *)
Theorem joining_client_gets_one_snapshot (self : SharedStateRenderer Model Error)
    (acts : list (Action Model Error)) :
  _updates self !! context = Some [] ->
  loops self !! context = Some AtStart ->
  sent self !! context = Some [] ->
  Forall (keeps_session context) acts ->
  let s' := run_schedule (Outgoing context :: acts) self in
  let first : list (Message Model Error) :=
    if bool_decide (root self ∈ dom (_models self))
    then [ [ ("root", FId (root self)); ("src", FId (root self));
             ("new", FModels (_models self)); ("old", FIds []) ] ]
    else [] in
  exists news k,
    enqueued s' = enqueued self ++ news
    /\ (k <= length news)%nat
    /\ sent s' !! context
       = Some (first ++ map (shared_outgoing (root self)) (take k news))
    /\ _updates s' !! context = Some (drop k news)
    /\ (let turn := step (Outgoing context) s' in
        let k' := Nat.min (S k) (length news) in
        sent turn !! context
        = Some (first ++ map (shared_outgoing (root self)) (take k' news))
        /\ _updates turn !! context = Some (drop k' news))
    /\ (let drained :=
          run_schedule (replicate (length news - k) (Outgoing context)) s' in
        enqueued drained = enqueued s'
        /\ sent drained !! context
           = Some (first ++ map (shared_outgoing (root self)) news)
        /\ _updates drained !! context = Some []).
Proof.
  intros Hq Hl Hs Hacts s' first.
  assert (Hstart : streaming context (root self) first (enqueued self)
                     (step (Outgoing context) self)).
  { cbn [step]. unfold outgoing_step. rewrite Hl. unfold first.
    case_bool_decide.
    - unfold enter_loop, send. split; [reflexivity|].
      cbn [root _models _updates loops sent enqueued].
      split; [apply lookup_insert_eq|].
      exists [], 0%nat. cbn [take map drop length].
      rewrite !app_nil_r, lookup_insert_eq, Hs. cbn [default app].
      unfold snapshot. auto.
    - unfold loop_turn, enter_loop. cbn [root _models _updates loops sent enqueued].
      rewrite Hq. split; [reflexivity|].
      cbn [root _models _updates loops sent enqueued].
      split; [apply lookup_insert_eq|].
      exists [], 0%nat. cbn [take map drop length app].
      rewrite !app_nil_r. auto. }
  destruct (run_schedule_streaming _ _ _ acts _ Hacts Hstart)
    as (Hr & Hloop & news & k & He & Hk & Hsent & Hqueue).
  change (run_schedule acts (step (Outgoing context) self)) with s'
    in Hr, Hloop, He, Hsent, Hqueue.
  exists news, k.
  split; [exact He|]. split; [exact Hk|]. split; [exact Hsent|].
  split; [exact Hqueue|]. split.
  - destruct (outgoing_turn _ _ _ _ _ Hr Hloop Hk Hsent Hqueue)
      as (_ & _ & _ & H1 & H2).
    split; [exact H1 | exact H2].
  - apply (outgoing_drain (root self) first news (length news - k) k s'
             Hr Hloop ltac:(lia) Hsent Hqueue).
Qed.

End SharedClientFacts.

Lemma joining_client_witness :
  let update : Render.LayoutUpdate nat string :=
    {| Render.src := "5"; Render.new := {[ "5" := 2%nat ]};
       Render.old := []; Render.error := None |} in
  let self : Render.SharedStateRenderer nat string :=
    Render.run "client"
      {| Render.root := "0"; Render._models := {[ "0" := 1%nat ]};
         Render._updates := ∅; Render.render_task_failed := false;
         Render.loops := ∅; Render.sent := ∅; Render.enqueued := [] |} in
  let acts := [Render.Render update; Render.Outgoing "client"] in
  let s' := Render.run_schedule (Render.Outgoing "client" :: acts) self in
  let first : list (Render.Message nat string) :=
    [ [ ("root", Render.FId "0"); ("src", Render.FId "0");
        ("new", Render.FModels {[ "0" := 1%nat ]});
        ("old", Render.FIds []) ] ] in
  exists news k,
    Render.enqueued s' = Render.enqueued self ++ news
    /\ (k <= length news)%nat
    /\ Render.sent s' !! "client"
       = Some (first ++ map (Render.shared_outgoing "0") (take k news))
    /\ Render._updates s' !! "client" = Some (drop k news)
    /\ (let turn := Render.step (Render.Outgoing "client") s' in
        let k' := Nat.min (S k) (length news) in
        Render.sent turn !! "client"
        = Some (first ++ map (Render.shared_outgoing "0") (take k' news))
        /\ Render._updates turn !! "client" = Some (drop k' news))
    /\ (let drained :=
          Render.run_schedule
            (replicate (length news - k) (Render.Outgoing "client")) s' in
        Render.enqueued drained = Render.enqueued s'
        /\ Render.sent drained !! "client"
           = Some (first ++ map (Render.shared_outgoing "0") news)
        /\ Render._updates drained !! "client" = Some []).
Proof.
  intros update self acts.
  apply (joining_client_gets_one_snapshot nat string "client" self acts).
  - reflexivity.
  - reflexivity.
  - reflexivity.
  - repeat constructor.
Defined.

(** The same session, computed: the snapshot, then the update rendered after
    the loop had started. *)
Example joining_client_example :
  let update : Render.LayoutUpdate nat string :=
    {| Render.src := "5"; Render.new := {[ "5" := 2%nat ]};
       Render.old := []; Render.error := None |} in
  let self : Render.SharedStateRenderer nat string :=
    Render.run "client"
      {| Render.root := "0"; Render._models := {[ "0" := 1%nat ]};
         Render._updates := ∅; Render.render_task_failed := false;
         Render.loops := ∅; Render.sent := ∅; Render.enqueued := [] |} in
  Render.sent
    (Render.run_schedule
       [Render.Outgoing "client"; Render.Render update; Render.Outgoing "client"] self)
    !! "client"
  = Some [ [ ("root", Render.FId "0"); ("src", Render.FId "0");
             ("new", Render.FModels {[ "0" := 1%nat ]}); ("old", Render.FIds []) ];
           [ ("root", Render.FId "0"); ("src", Render.FId "5");
             ("new", Render.FModels {[ "5" := 2%nat ]}); ("old", Render.FIds []) ] ].
Proof. reflexivity. Qed.

(** ** The shared renderer: [join] *)

Section JoinFacts.
Import Render.Join.

Lemma set_pc_eq f c p : set_pc f c p c = p.
Proof. unfold set_pc. rewrite Nat.eqb_refl. reflexivity. Qed.

Lemma set_pc_ne f c p d : d <> c -> set_pc f c p d = f d.
Proof. intros H. unfold set_pc. apply Nat.eqb_neq in H. rewrite H. reflexivity. Qed.









End JoinFacts.


(** The calls have to be made before a waiting caller is cancelled as well:
    leaving, the cancelled waiter resets [_joining], and the next call of
    [join()] exits the scope again while the first exit is still under
    way. *)
Example cancelled_waiter_reopens_teardown :
  let s := Render.Join.run_schedule
             [Render.Join.Call 0; Render.Join.Call 1;
              Render.Join.AwaitRaises 1; Render.Join.Call 2]%nat
             Render.Join.initial in
  Render.Join.trace s
  = [Render.Join.ScopeExitBegins 0; Render.Join.ScopeExitBegins 2]%nat
  /\ Render.Join.scope_exits (Render.Join.trace s) = 2%nat
  /\ Render.Join.pc s 0%nat = Render.Join.InScopeExit
  /\ Render.Join.pc s 1%nat = Render.Join.Raised
  /\ Render.Join.pc s 2%nat = Render.Join.InScopeExit.
Proof. vm_compute. repeat split. Qed.

(** A scope exit that raises still cancels the render task and wakes the
    waiters before the exception leaves [join()]. *)
Example failed_scope_exit_still_tears_down :
  let s := Render.Join.run_schedule
             [Render.Join.Call 0; Render.Join.Call 1;
              Render.Join.AwaitRaises 0; Render.Join.Resume 1]%nat
             Render.Join.initial in
  Render.Join.trace s
  = [Render.Join.ScopeExitBegins 0; Render.Join.RenderTaskCancelled 0;
     Render.Join.JoinReturns 1]%nat
  /\ Render.Join.pc s 0%nat = Render.Join.Raised
  /\ Render.Join.pc s 1%nat = Render.Join.Done.
Proof. vm_compute. repeat split. Qed.


(** [use_memo] on a world that counts the calls of the memoized function:
    with an unchanged dependency the stored value comes back and the count
    stays; on the first call the function runs. *)
Lemma use_memo_witness :
  let f : UseMemo.Function nat :=
    {| UseMemo.is_FunctionType := true; UseMemo.closure := [];
       UseMemo.run := fun calls => (Obj 5 (SInt 42), S calls) |} in
  let memo :=
    {| UseMemo.value := Some (Obj 1 (SInt 7)); UseMemo.deps := Some [Obj 2 (SInt 1)] |} in
  (exists v, UseMemo.value memo = Some v
     /\ UseMemo.use_memo (Some f) (UseMemo.Deps [Obj 3 (SInt 1)]) memo 0%nat
        = Some (UseMemo.Value v, memo, 0%nat))
  /\ UseMemo.use_memo (Some f) (UseMemo.Deps [Obj 3 (SInt 1)]) UseMemo.new_Memo 0%nat
     = Some (UseMemo.Value (Obj 5 (SInt 42)),
             {| UseMemo.value := Some (Obj 5 (SInt 42));
                UseMemo.deps := Some [Obj 3 (SInt 1)] |}, 1%nat).
Proof.
  intros f memo. split.
  - apply (proj2 (use_memo_recomputes_exactly_when nat f (UseMemo.Deps [Obj 3 (SInt 1)])
                    memo 0%nat (fun _ => ltac:(discriminate)))).
    intros [H | [H | (stored & new & Hs & Hn & [Hl | (i & a & b & Ha & Hb & He)])]];
      try discriminate.
    + injection Hs as <-. injection Hn as <-. apply Hl. reflexivity.
    + injection Hs as <-. injection Hn as <-.
      destruct i as [|i]; [|discriminate].
      injection Ha as <-. injection Hb as <-. vm_compute in He. discriminate.
  - apply (proj1 (use_memo_recomputes_exactly_when nat f (UseMemo.Deps [Obj 3 (SInt 1)])
                    UseMemo.new_Memo 0%nat (new_Memo_deps_set_with_value))).
    left. reflexivity.
Defined.

(* ===================================================================== *)
(** * Further properties *)
(* ===================================================================== *)

Import Vocabulary.

(** ** [strictly_equal] on one object *)

Lemma float_eq_refl (f : pyfloat) : float_eq f f = negb (is_nan f).
Proof.
  destruct f as [|s|m e]; cbn.
  - reflexivity.
  - destruct s; reflexivity.
  - rewrite Z.leb_refl, Z.sub_diag, Z.pow_0_r, Z.mul_1_r. apply Z.eqb_refl.
Qed.

Lemma konsts_eq_refl (l : list konst) : konsts_eq l l = true.
Proof.
  induction l as [|k l IH]; [reflexivity|]. cbn. rewrite IH, andb_true_r.
  destruct k as [|b|n|s|b]; cbn.
  - reflexivity.
  - destruct b; reflexivity.
  - apply Z.eqb_refl.
  - apply String.eqb_refl.
  - apply bool_decide_eq_true_2. reflexivity.
Qed.

Lemma py_eq_same_items a : forall xs : list pyval,
  py_eq (Obj a (SList xs)) (Obj a (SList xs)) = Some true
  /\ py_eq (Obj a (STuple xs)) (Obj a (STuple xs)) = Some true.
Proof.
  intros xs. cbn [py_eq body_of]. rewrite Nat.eqb_refl.
  split; (induction xs as [|x xs IH]; [reflexivity|]);
    cbn [py_is addr_of]; unfold py_is; rewrite Nat.eqb_refl; exact IH.
Qed.

Lemma py_eq_same_fields a c : forall fs : list pyval,
  py_eq (Obj a (SInstance c EqByFields fs)) (Obj a (SInstance c EqByFields fs)) = Some true.
Proof.
  intros fs. cbn [py_eq body_of]. rewrite String.eqb_refl, Nat.eqb_refl.
  induction fs as [|x xs IH]; [reflexivity|].
  unfold py_is. rewrite Nat.eqb_refl. exact IH.
Qed.

(** An object compared with itself by [==], or by identity when [==] raises. *)
Lemma eq_or_is_refl (x : pyval) :
  match py_eq x x with Some b => b | None => py_is x x end
  = negb (unequal_to_itself x).
Proof.
  destruct x as [a s]. unfold unequal_to_itself, holds_nan, py_is.
  cbn [body_of addr_of].
  destruct s as [|b|n|f|re im|t|b|b|b|xs|xs|q c|cls k fs].
  - reflexivity.
  - cbn. destruct b; reflexivity.
  - cbn. rewrite Z.mul_1_r, Z.eqb_refl. reflexivity.
  - cbn [py_eq body_of as_complex]. rewrite float_eq_refl. cbn. apply andb_true_r.
  - cbn [py_eq body_of as_complex]. rewrite !float_eq_refl.
    destruct (is_nan re), (is_nan im); reflexivity.
  - cbn. apply String.eqb_refl.
  - cbn. apply bool_decide_eq_true_2. reflexivity.
  - cbn. apply bool_decide_eq_true_2. reflexivity.
  - cbn. apply bool_decide_eq_true_2. reflexivity.
  - rewrite (proj2 (py_eq_same_items a xs)). reflexivity.
  - rewrite (proj1 (py_eq_same_items a xs)). reflexivity.
  - cbn. apply Nat.eqb_refl.
  - destruct k as [| | |b].
    + cbn. apply Nat.eqb_refl.
    + rewrite py_eq_same_fields. reflexivity.
    + cbn. apply Nat.eqb_refl.
    + cbn. destruct b; reflexivity.
Qed.

Lemma strictly_equal_same_object (x : pyval) :
  strictly_equal x x = negb (unequal_to_itself x).
Proof.
  unfold strictly_equal.
  rewrite bool_decide_eq_false_2 by (intros H; apply H; reflexivity).
  destruct (is_local_callable x) eqn:El; [|apply eq_or_is_refl].
  destruct x as [a s]. unfold is_local_callable, qualname_attr, code_attr in *.
  cbn [body_of] in *. destruct s; try discriminate.
  rewrite String.eqb_refl, compared_code_attrs_eq.
  cbn [negb forallb getattr_code String.eqb Ascii.eqb Bool.eqb attr_eq
       unequal_to_itself holds_nan body_of].
  rewrite !Z.eqb_refl, !String.eqb_refl, konsts_eq_refl.
  rewrite !bool_decide_eq_true_2 by reflexivity. reflexivity.
Qed.

(** X1: [strictly_equal(x, x)] is what [x == x] is, and [True] when
    [x == x] raises.  It is [True] for [None], a [bool], an [int], a [str],
    a [bytes], [bytearray] or [memoryview], a function (local or not), a
    list or a tuple whatever it holds (items are compared by identity
    first), and an instance of a class whose [__eq__] is inherited from
    [object], compares the fields, raises or answers [True]; it is [False]
    for a float or a complex number that is not-a-number, and for an
    instance of a class whose [__eq__] answers [False]. *)
Theorem strictly_equal_reflexive_except_nan (x : pyval) :
  strictly_equal x x = negb (unequal_to_itself x)
  /\ (unequal_to_itself x = true <->
      match body_of x with
      | SFloat f => f = FNan
      | SComplex re im => re = FNan \/ im = FNan
      | SInstance _ k _ => k = EqAnswers false
      | _ => False
      end).
Proof.
  split; [apply strictly_equal_same_object|].
  destruct x as [a s]. unfold unequal_to_itself, holds_nan. cbn [body_of].
  destruct s as [|b|n|f|re im|t|b|b|b|xs|xs|q c|cls k fs];
    try (split; [discriminate | intros []]).
  - destruct f; cbn; split; try discriminate; auto.
  - destruct re, im; cbn; split; try discriminate; auto;
      intros [H|H]; discriminate.
  - destruct k as [| | |[|]]; cbn; split; try discriminate; auto.
Qed.

Example strictly_equal_on_itself :
  strictly_equal (Obj 4 (SList [Obj 5 (SFloat FNan)])) (Obj 4 (SList [Obj 5 (SFloat FNan)])) = true
  /\ strictly_equal (Obj 5 (SFloat FNan)) (Obj 5 (SFloat FNan)) = false
  /\ strictly_equal (Obj 6 (SInstance "Decimal" (EqAnswers false) []))
                    (Obj 6 (SInstance "Decimal" (EqAnswers false) [])) = false
  /\ strictly_equal (Obj 7 (SInstance "A" EqRaises [])) (Obj 7 (SInstance "A" EqRaises [])) = true.
Proof. vm_compute. repeat split. Qed.

(** ** [dispatch] of the value already stored *)

Section DispatchStoredValue.
Import UseState.
Variable call1 : pyval -> pyval -> pyval.

(** X2: dispatching the very object the cell holds (not a callable, which
    [dispatch] would call) changes nothing and schedules no render, unless
    [==] finds the object unequal to itself (a not-a-number float or
    complex, an instance whose [__eq__] answers [False]): then every such
    dispatch schedules a render and leaves the object in the cell. *)
Theorem dispatch_stored_value (self : _CurrentState) (hook : LifeCycleHook) :
  callable (value self) = false ->
  dispatch call1 (value self) (self, hook)
  = (self, if unequal_to_itself (value self) then schedule_render hook else hook).
Proof.
  intros Hc. unfold dispatch, next_value. rewrite Hc, strictly_equal_same_object.
  destruct self as [v]. cbn [value].
  destruct (unequal_to_itself v); reflexivity.
Qed.

End DispatchStoredValue.

Lemma dispatch_stored_value_witness :
  let call1 := fun _ v : pyval => v in
  let nan := {| UseState.value := Obj 5 (SFloat FNan) |} in
  let one := {| UseState.value := Obj 6 (SInt 1) |} in
  let hook := {| UseState.scheduled_renders := 0 |} in
  UseState.dispatch call1 (Obj 6 (SInt 1)) (one, hook) = (one, hook)
  /\ UseState.dispatch call1 (Obj 5 (SFloat FNan)) (nan, hook)
     = (nan, {| UseState.scheduled_renders := 1 |}).
Proof.
  intros call1 nan one hook. split.
  - apply (dispatch_stored_value call1 one hook eq_refl).
  - apply (dispatch_stored_value call1 nan hook eq_refl).
Defined.

(** ** [use_memo]: unset slots, callables that cannot be inspected, repeated calls *)

Section MemoMore.
Import UseMemo.
Variable World : Type.

(** X3: a memo in which [deps] is set whenever [value] is (a fresh [_Memo] is
    one) stays so under [use_memo], and on such a memo neither [use_memo] nor
    the [setup] it returns reads an unset slot: no [AttributeError]. *)
Theorem use_memo_never_reads_unset_slot (function : option (Function World))
    (dependencies : Dependencies) (memo : _Memo) (w : World) :
  deps_set_with_value memo ->
  exists out memo' w',
    use_memo function dependencies memo w = Some (out, memo', w')
    /\ deps_set_with_value memo'
    /\ forall changed (f : Function World) (w2 : World),
         out = Setup changed -> is_Some (setup changed f memo' w2).
Proof.
  intros Hwf.
  assert (Hsome : exists r, use_memo function dependencies memo w = Some r).
  { unfold use_memo, compare_deps.
    destruct (empty memo) eqn:He.
    - destruct function as [f|]; [|eauto]. unfold setup.
      destruct (run f w). eauto.
    - destruct (_try_to_infer_closure_values function dependencies) as [d|].
      + destruct (deps memo) as [cur|] eqn:Hd.
        * destruct (negb _ || negb _); (destruct function as [f|]; [|eauto]);
            unfold setup; [destruct (run f w); eauto|].
          unfold empty in He. destruct (value memo); [eauto | discriminate].
        * exfalso. apply Hwf; [|exact Hd]. unfold empty in He.
          destruct (value memo); [discriminate | discriminate].
      + destruct function as [f|]; [|eauto]. unfold setup.
        destruct (run f w). eauto. }
  destruct Hsome as ([[out memo'] w'] & Hr).
  exists out, memo', w'. split; [exact Hr|].
  split; [eapply use_memo_deps_set_with_value; eauto|].
  intros changed f w2 ->. unfold setup. destruct changed.
  - destruct (run f w2). eauto.
  - unfold use_memo in Hr.
    destruct (compare_deps memo _) as [[ch m]|] eqn:Hc; [|discriminate].
    destruct function as [g|].
    { destruct (setup ch g m w) as [[[? ?] ?]|]; discriminate. }
    injection Hr as Hch Hm Hw. subst ch m w'.
    unfold compare_deps in Hc. destruct (empty memo) eqn:He; [discriminate|].
    destruct (_try_to_infer_closure_values None dependencies) as [d|].
    + destruct (deps memo) as [cur|]; [|discriminate].
      destruct (negb _ || negb _); [discriminate|]. injection Hc as <-.
      unfold empty in He. destruct (value memo); [eauto | discriminate].
    + discriminate.
Qed.

(** X4: with the default [dependencies] ([...]), a callable that is not a
    [FunctionType] gives no dependencies to compare: [use_memo] invokes it on
    every call, whatever the memo holds, and stores the empty tuple; called
    without a function it returns the recomputing [setup]. *)
Theorem use_memo_uninspectable_always_recomputes (f : Function World)
    (memo : _Memo) (w : World) :
  is_FunctionType f = false ->
  use_memo (Some f) Ellipsis memo w
  = Some (Value (run f w).1,
          {| value := Some (run f w).1; deps := Some [] |}, (run f w).2)
  /\ use_memo None Ellipsis memo w
     = Some (Setup true, {| value := value memo; deps := Some [] |}, w).
Proof.
  intros Hf. unfold use_memo, _try_to_infer_closure_values, compare_deps.
  rewrite Hf. split.
  - destruct (empty memo); unfold setup; destruct (run f w); reflexivity.
  - destruct (empty memo); reflexivity.
Qed.

Lemma all_strictly_equal_same (d : list pyval) :
  Forall (fun x => strictly_equal x x = true) d -> all_strictly_equal d d = true.
Proof.
  unfold all_strictly_equal. induction 1 as [|x d Hx _ IH]; [reflexivity|].
  cbn. rewrite Hx. exact IH.
Qed.

(** X5: once [use_memo] has returned a value for the dependencies [d], each
    of them strictly equal to itself, every further call with the same
    objects [d] returns that value, whatever function it is given, without
    invoking it and without changing the memo.  (With a dependency that is
    not strictly equal to itself, a not-a-number float for one, the function
    is invoked again on every call.) *)
Theorem use_memo_same_dependencies_again (f g : Function World) (d : list pyval)
    (memo memo' : _Memo) (w w' w2 : World) (out : Outcome) :
  Forall (fun x => strictly_equal x x = true) d ->
  use_memo (Some f) (Deps d) memo w = Some (out, memo', w') ->
  exists v, out = Value v
    /\ use_memo (Some g) (Deps d) memo' w2 = Some (Value v, memo', w2).
Proof.
  intros Hd Hr. unfold use_memo, _try_to_infer_closure_values in *.
  assert (Hagain : forall v m,
    value m = Some v ->
    (exists cur, deps m = Some cur
       /\ negb (Nat.eqb (length cur) (length d)) || negb (all_strictly_equal cur d) = false) ->
    match compare_deps m (Some d) with
    | Some (changed, m0) =>
        match setup changed g m0 w2 with
        | Some (v0, m1, w0) => Some (Value v0, m1, w0)
        | None => None
        end
    | None => None
    end = Some (Value v, m, w2)).
  { intros v m Hv (cur & Hc & Ht). unfold compare_deps, empty.
    rewrite Hv, Hc, Ht. unfold setup. rewrite Hv. reflexivity. }
  assert (Hsame : negb (Nat.eqb (length d) (length d)) || negb (all_strictly_equal d d) = false).
  { rewrite Nat.eqb_refl, all_strictly_equal_same by exact Hd. reflexivity. }
  unfold compare_deps in Hr. destruct (empty memo) eqn:He.
  - unfold setup in Hr. destruct (run f w) as [v w1]. injection Hr as <- <- <-.
    exists v. split; [reflexivity|]. apply Hagain; [reflexivity|]. cbn. eauto.
  - destruct (deps memo) as [cur|] eqn:Hc; [|discriminate].
    destruct (negb (Nat.eqb (length cur) (length d)) || negb (all_strictly_equal cur d)) eqn:Ht.
    + unfold setup in Hr. destruct (run f w) as [v w1]. injection Hr as <- <- <-.
      exists v. split; [reflexivity|]. apply Hagain; [reflexivity|]. cbn. eauto.
    + unfold setup in Hr. destruct (value memo) as [v|] eqn:Hv; [|discriminate].
      injection Hr as <- <- <-.
      exists v. split; [reflexivity|]. apply Hagain; [exact Hv|]. eauto.
Qed.

End MemoMore.

(** ** [use_effect]: a stopped effect has cleaned up *)

Section SyncEffectDone.
Import UseEffect EffectLoop.
Variable func : nat -> option Callable.

Lemma run_effect_cleanup_extends cf e :
  e ∈ trace cf -> e ∈ trace (run_effect_cleanup cf).
Proof.
  intros H. unfold run_effect_cleanup. destruct (current cf) as [[n c]|]; [|exact H].
  cbn [trace]. apply elem_of_app. auto.
Qed.

Lemma effect_begin_extends n cf e :
  e ∈ trace cf -> e ∈ trace (effect_begin func n cf).
Proof.
  intros H. unfold effect_begin. cbn [trace]. apply elem_of_app. left.
  apply run_effect_cleanup_extends. exact H.
Qed.

Lemma cleaned_after_cleanup cf n c :
  slot_ok func cf -> RanBody n ∈ trace cf -> func n = Some c ->
  RanCleanup n c ∈ trace (run_effect_cleanup cf).
Proof.
  intros Hok Hb Hf.
  destruct (run_effect_cleanup_ok func cf Hok) as ((_ & _ & Hall) & Hnone & Hsame).
  destruct (Hall n c) as [H|H]; [apply Hsame; exact Hb | exact Hf | exact H |].
  rewrite Hnone in H. discriminate.
Qed.

Lemma step_finished_ok a s :
  effects_ok func s -> finished_ok func s -> finished_ok func (step func a s).
Proof.
  intros (Hslot & Hph) (Hstarted & Hdone). destruct a as [n|n]; cbn [step].
  2:{ split; assumption. }
  destruct (phase s n) eqn:En.
  - pose proof (Hph n En) as Hfresh.
    destruct (effect_begin_ok func n _ Hslot Hfresh) as (Hb & Hbody).
    assert (Hn : RanBody n ∈ trace (effect_begin func n (cleanup_func s))).
    { apply Hbody. left. reflexivity. }
    destruct (stop_is_set s n); split; cbn [cleanup_func phase]; unfold update.
    + intros m Hm. unfold effect_end. apply run_effect_cleanup_extends.
      destruct (Nat.eqb m n) eqn:Emn.
      * apply Nat.eqb_eq in Emn. subst m. exact Hn.
      * apply effect_begin_extends. apply Hstarted. exact Hm.
    + intros m c Hm Hf. unfold effect_end. destruct (Nat.eqb m n) eqn:Emn.
      * apply Nat.eqb_eq in Emn. subst m. apply cleaned_after_cleanup; assumption.
      * apply run_effect_cleanup_extends, effect_begin_extends. apply Hdone; assumption.
    + intros m Hm. destruct (Nat.eqb m n) eqn:Emn.
      * apply Nat.eqb_eq in Emn. subst m. exact Hn.
      * apply effect_begin_extends. apply Hstarted. exact Hm.
    + intros m c Hm Hf. destruct (Nat.eqb m n) eqn:Emn; [discriminate|].
      apply effect_begin_extends. apply Hdone; assumption.
  - destruct (stop_is_set s n); [|split; assumption].
    split; cbn [cleanup_func phase]; unfold update, effect_end.
    + intros m Hm. apply run_effect_cleanup_extends. apply Hstarted.
      destruct (Nat.eqb m n) eqn:Emn; [|exact Hm].
      apply Nat.eqb_eq in Emn. subst m. rewrite En. discriminate.
    + intros m c Hm Hf. destruct (Nat.eqb m n) eqn:Emn.
      * apply Nat.eqb_eq in Emn. subst m.
        apply cleaned_after_cleanup; [exact Hslot | | exact Hf].
        apply Hstarted. rewrite En. discriminate.
      * apply run_effect_cleanup_extends. apply Hdone; assumption.
  - split; assumption.
Qed.

Lemma run_schedule_finished_ok acts s :
  effects_ok func s -> finished_ok func s ->
  finished_ok func (run_schedule func acts s).
Proof.
  revert s. induction acts as [|a acts IH]; intros s Hok Hfin; [exact Hfin|].
  apply IH; [apply step_ok; exact Hok | apply step_finished_ok; assumption].
Qed.

(** X6: the coroutine of a synchronous effect that has returned (it was
    started, its [stop] event was set and it ran on) has had the clean-up its
    body returned invoked, by itself or by an effect registered after it. *)
Theorem stopped_effect_has_cleaned_up (acts : list Action) (n : nat) (c : Callable) :
  let s := run_schedule func acts initial in
  phase s n = Finished -> func n = Some c ->
  RanCleanup n c ∈ trace (cleanup_func s).
Proof.
  intros s Hn Hf.
  assert (Hfin : finished_ok func s).
  { apply run_schedule_finished_ok; [apply effects_ok_initial|].
    split; intros m; cbn; [congruence | discriminate]. }
  destruct Hfin as (_ & Hdone). eapply Hdone; eassumption.
Qed.

End SyncEffectDone.

Lemma stopped_effect_witness :
  let func := fun n : nat => Some (100 + n)%nat in
  let s := UseEffect.run_schedule func
             [UseEffect.Resume 0; UseEffect.SetStop 0; UseEffect.Resume 0]%nat
             UseEffect.initial in
  UseEffect.RanCleanup 0%nat 100%nat ∈ UseEffect.trace (UseEffect.cleanup_func s).
Proof.
  intros func.
  apply (stopped_effect_has_cleaned_up func
           [UseEffect.Resume 0; UseEffect.SetStop 0; UseEffect.Resume 0]%nat 0%nat 100%nat);
    reflexivity.
Defined.

(** ** [use_async_effect] under the event loop *)

Lemma each_after_snoc {E} (P : list E -> E -> Prop) t e :
  EffectLoop.each_after P t -> P t e -> EffectLoop.each_after P (t ++ [e]).
Proof.
  intros Ho He t1 e' t2 H. apply snoc_eq_app_cons in H.
  destruct H as [(-> & -> & _) | (t2' & _ & ->)]; [exact He|].
  eapply Ho. reflexivity.
Qed.

Section AsyncEffectLoop.
Import UseEffect EffectLoop.
Variable Task : Type.
Variable asyncio_wait : Task -> Q -> option (option Callable).
Variable task_of : nat -> Task.
Variable shutdown_timeout : option Q.

Lemma async_effect_begin_on_empty n cf :
  current cf = None ->
  async_effect_begin n cf = {| current := None; trace := trace cf ++ [CreatedTask n] |}.
Proof.
  intros H. unfold async_effect_begin, run_effect_cleanup. rewrite H, H. reflexivity.
Qed.

Lemma async_effect_end_on_empty n cf :
  current cf = None ->
  async_effect_end asyncio_wait n (task_of n) shutdown_timeout cf
  = {| current := None;
       trace := (trace cf
                 ++ cleanup_events
                      (option_map (fun c => (n, c)) (obtained asyncio_wait task_of shutdown_timeout n)))
                ++ [CancelledTask n] |}.
Proof.
  intros H. unfold async_effect_end, obtained, run_effect_cleanup.
  destruct (asyncio_wait _ _) as [[c|]|]; cbn; rewrite ?H, ?app_nil_r; reflexivity.
Qed.

Lemma async_ok_initial : async_ok asyncio_wait task_of shutdown_timeout async_initial.
Proof.
  split; [reflexivity|]. split.
  - intros t1 e t2 H. destruct t1; discriminate.
  - split.
    + intros n c H. apply elem_of_nil in H. destruct H.
    + intros n c H. discriminate.
Qed.

Lemma async_step_ok a s :
  async_ok asyncio_wait task_of shutdown_timeout s ->
  async_ok asyncio_wait task_of shutdown_timeout
    (async_step asyncio_wait task_of shutdown_timeout a s).
Proof.
  intros (Hcur & Hord & Hran & Hover). destruct a as [n|n]; cbn [async_step].
  2:{ repeat split; assumption. }
  assert (Hnot : async_phase s n <> Over -> forall c, RanCleanup n c ∉ trace (slot s)).
  { intros Hn c Hin. apply Hn. eapply Hran. exact Hin. }
  assert (Hkeep : forall p, p <> Over -> async_phase s n <> Over ->
            (forall m c, RanCleanup m c ∈ trace (slot s) ->
                         update (async_phase s) n p m = Over)
            /\ (forall m c, update (async_phase s) n p m = Over ->
                  obtained asyncio_wait task_of shutdown_timeout m = Some c ->
                  RanCleanup m c ∈ trace (slot s))).
  { intros p Hp Hn. split; intros m c; unfold update;
      destruct (Nat.eqb m n) eqn:Emn; try apply Nat.eqb_eq in Emn; subst.
    - intros Hin. exfalso. exact (Hnot Hn c Hin).
    - apply Hran.
    - intros H. congruence.
    - apply Hover. }
  destruct (async_phase s n) eqn:En.
  - rewrite async_effect_begin_on_empty by exact Hcur. unfold async_ok.
    cbn [slot async_phase trace current].
    destruct (Hkeep (if stop_set s n then InGracePeriod else BeforeStop)) as (H3 & H4).
    { destruct (stop_set s n); discriminate. }
    { discriminate. }
    split; [reflexivity|]. cbn [trace current]. split; [|split].
    + apply each_after_snoc; [exact Hord | exact I].
    + intros m c Hin. apply elem_of_app in Hin. destruct Hin as [Hin|Hin].
      * eapply H3. exact Hin.
      * apply list_elem_of_singleton in Hin. discriminate.
    + intros m c Hm Ho. apply elem_of_app. left. eapply H4; eassumption.
  - destruct (stop_set s n); [|repeat split; assumption].
    destruct (Hkeep InGracePeriod) as (H3 & H4); [discriminate | discriminate |].
    cbn [slot async_phase]. repeat split; assumption.
  - rewrite async_effect_end_on_empty by exact Hcur. unfold async_ok.
    cbn [slot async_phase trace current].
    split; [reflexivity|].
    set (got := obtained asyncio_wait task_of shutdown_timeout n) in *.
    assert (Hev : forall e, e ∈ cleanup_events (option_map (fun c => (n, c)) got)
                  -> exists c, got = Some c /\ e = RanCleanup n c).
    { intros e He. destruct got as [c|]; cbn in He.
      - apply list_elem_of_singleton in He. eauto.
      - apply elem_of_nil in He. destruct He. }
    split; [|split].
    + apply each_after_snoc; [|exact I].
      destruct got as [c|] eqn:Eg; cbn [option_map cleanup_events].
      * apply each_after_snoc; [exact Hord|]. cbn. split; [exact Eg|].
        apply Hnot. discriminate.
      * rewrite app_nil_r. exact Hord.
    + intros m c Hin. unfold update.
      destruct (Nat.eqb m n) eqn:Emn; [reflexivity|].
      apply elem_of_app in Hin. destruct Hin as [Hin|Hin].
      2:{ apply list_elem_of_singleton in Hin. discriminate. }
      apply elem_of_app in Hin. destruct Hin as [Hin|Hin]; [eapply Hran; exact Hin|].
      destruct (Hev _ Hin) as (c' & _ & Heq). injection Heq as -> _.
      rewrite Nat.eqb_refl in Emn. discriminate.
    + intros m c Hm Ho. unfold update in Hm. apply elem_of_app. left.
      apply elem_of_app. destruct (Nat.eqb m n) eqn:Emn.
      * apply Nat.eqb_eq in Emn. subst m. right. fold got in Ho. rewrite Ho. cbn.
        apply list_elem_of_singleton. reflexivity.
      * left. apply Hover; assumption.
  - repeat split; assumption.
Qed.

Lemma async_run_schedule_ok acts s :
  async_ok asyncio_wait task_of shutdown_timeout s ->
  async_ok asyncio_wait task_of shutdown_timeout
    (async_run_schedule asyncio_wait task_of shutdown_timeout acts s).
Proof.
  revert s. induction acts as [|a acts IH]; intros s Hs; [exact Hs|].
  apply IH. apply async_step_ok. exact Hs.
Qed.

(** X8: an asynchronous effect whose coroutine has returned and whose task
    was done within the grace period has had the clean-up the task returned
    invoked. *)
Theorem async_effect_over_has_cleaned_up (acts : list Action) (n : nat) (c : Callable) :
  let s := async_run_schedule asyncio_wait task_of shutdown_timeout acts async_initial in
  async_phase s n = Over ->
  asyncio_wait (task_of n) (default (1 # 10) shutdown_timeout) = Some (Some c) ->
  RanCleanup n c ∈ trace (slot s).
Proof.
  intros s Hn Hw.
  destruct (async_run_schedule_ok acts _ async_ok_initial) as (_ & _ & _ & Hover).
  apply Hover; [exact Hn|]. unfold obtained.
  change default_shutdown_timeout with (1 # 10). rewrite Hw. reflexivity.
Qed.

End AsyncEffectLoop.

Lemma async_effect_over_witness :
  let task_of := fun _ : nat =>
    {| UseEffect.finishes_after := Some (1 # 20); UseEffect.result := Some 7%nat |} in
  let s := EffectLoop.async_run_schedule UseEffect.wait_double task_of None
             [UseEffect.Resume 2; UseEffect.SetStop 2; UseEffect.Resume 2;
              UseEffect.Resume 2]%nat EffectLoop.async_initial in
  UseEffect.RanCleanup 2%nat 7%nat ∈ UseEffect.trace (EffectLoop.slot s).
Proof.
  intros task_of.
  apply (async_effect_over_has_cleaned_up _ UseEffect.wait_double task_of None
           [UseEffect.Resume 2; UseEffect.SetStop 2; UseEffect.Resume 2;
            UseEffect.Resume 2]%nat 2%nat 7%nat); reflexivity.
Defined.

(** ** [use_async_effect] when a clean-up or a task raises *)

Section AsyncRaisingFacts.
Import UseEffect EffectErrors.
Variable raises : list Event -> Callable -> bool.
Variable Task : Type.
Variable asyncio_wait : Task -> Q -> option Body.
Variable task_of : nat -> Task.
Variable shutdown_timeout : option Q.

Lemma async_ordered_snoc t e :
  async_ordered raises asyncio_wait task_of shutdown_timeout t ->
  async_in_order raises asyncio_wait task_of shutdown_timeout t e ->
  async_ordered raises asyncio_wait task_of shutdown_timeout (t ++ [e]).
Proof.
  intros Ho He t1 e' t2 H. apply snoc_eq_app_cons in H.
  destruct H as [(-> & -> & _) | (t2' & _ & ->)]; [exact He|].
  eapply Ho. reflexivity.
Qed.

(** [run_effect_cleanup] between two steps: the Ref is empty, or it holds a
    clean-up that raised before and is invoked again. *)
Lemma async_cleanup_between_steps cf :
  holds_raised raises asyncio_wait task_of shutdown_timeout cf ->
  async_ordered raises asyncio_wait task_of shutdown_timeout (trace cf) ->
  holds_raised raises asyncio_wait task_of shutdown_timeout (run_effect_cleanup raises cf).1
  /\ async_ordered raises asyncio_wait task_of shutdown_timeout
       (trace (run_effect_cleanup raises cf).1)
  /\ ((run_effect_cleanup raises cf).2 = Returns ->
      current (run_effect_cleanup raises cf).1 = None)
  /\ (forall n c, RanCleanup n c ∈ trace (run_effect_cleanup raises cf).1 ->
        RanCleanup n c ∈ trace cf).
Proof.
  intros Hcur Hord. unfold run_effect_cleanup.
  destruct (current cf) as [[k c]|] eqn:Ec; [|cbn [fst snd]; auto].
  destruct (Hcur k c Ec) as (Hob & Hin & Hraised).
  assert (Ho' : async_ordered raises asyncio_wait task_of shutdown_timeout
                  (trace cf ++ [RanCleanup k c])).
  { apply async_ordered_snoc; [exact Hord|]. cbn. auto. }
  assert (Hsub : forall n c', RanCleanup n c' ∈ trace cf ++ [RanCleanup k c] ->
                   RanCleanup n c' ∈ trace cf).
  { intros n c' H. apply elem_of_app in H. destruct H as [H|H]; [exact H|].
    apply list_elem_of_singleton in H. injection H as -> ->. exact Hin. }
  destruct (raises (trace cf) c) eqn:Er; cbn [fst snd trace current].
  - split; [|split; [exact Ho' | split; [discriminate | exact Hsub]]].
    intros n c' H. cbn [current] in H. injection H as <- <-. cbn [trace].
    split; [exact Hob|]. split; [apply elem_of_app; auto|].
    intros u c' H. apply invoked_at_snoc_inv in H.
    destruct H as [(-> & H) | H]; [|eapply Hraised; exact H].
    injection H as <-. exact Er.
  - split; [|split; [exact Ho' | split; [reflexivity | exact Hsub]]].
    intros n c' H. discriminate.
Qed.

Lemma async_raising_ok_initial :
  async_ok raises asyncio_wait task_of shutdown_timeout async_initial.
Proof.
  split; [|split].
  - intros n c H. discriminate.
  - intros t1 e t2 H. destruct t1; discriminate.
  - intros n c H. apply elem_of_nil in H. destruct H.
Qed.

Lemma async_raising_step_ok a s :
  async_ok raises asyncio_wait task_of shutdown_timeout s ->
  async_ok raises asyncio_wait task_of shutdown_timeout
    (async_step raises asyncio_wait task_of shutdown_timeout a s).
Proof.
  intros (Hcur & Hord & Hran). destruct a as [n|n|n]; cbn [async_step].
  2:{ split; [exact Hcur|]. split; [exact Hord | exact Hran]. }
  2:{ assert (Hc : async_ok raises asyncio_wait task_of shutdown_timeout
                     {| async_ref := async_ref s;
                        async_coroutine := update (async_coroutine s) n AsyncRaised;
                        async_stop := async_stop s |}).
      { split; [exact Hcur|]. split; [exact Hord|]. cbn [async_ref async_coroutine].
        intros m c Hin. unfold update. destruct (Nat.eqb m n); [auto|].
        eapply Hran. exact Hin. }
      destruct (async_coroutine s n);
        first [exact Hc | split; [exact Hcur | split; [exact Hord | exact Hran]]]. }
  assert (Hkeep : forall p m c, RanCleanup m c ∈ trace (async_ref s) ->
            async_coroutine s n <> AsyncReturned -> async_coroutine s n <> AsyncRaised ->
            update (async_coroutine s) n p m = AsyncReturned
            \/ update (async_coroutine s) n p m = AsyncRaised).
  { intros p m c Hin H1 H2. unfold update. destruct (Nat.eqb m n) eqn:Emn.
    - apply Nat.eqb_eq in Emn. subst m. destruct (Hran n c Hin); contradiction.
    - eapply Hran. exact Hin. }
  assert (Hend : forall e m c, RanCleanup m c ∈ trace (async_ref s) ->
            update (async_coroutine s) n (async_ended e) m = AsyncReturned
            \/ update (async_coroutine s) n (async_ended e) m = AsyncRaised).
  { intros e m c Hin. unfold update. destruct (Nat.eqb m n).
    - destruct e; auto.
    - eapply Hran. exact Hin. }
  destruct (async_cleanup_between_steps _ Hcur Hord) as (Hc1 & Ho1 & Hnone & Hsub).
  destruct (async_coroutine s n) eqn:En.
  - unfold async_effect_begin.
    destruct (run_effect_cleanup raises (async_ref s)) as [cf e] eqn:Ecl.
    cbn [fst snd] in *. destruct e.
    + specialize (Hnone eq_refl).
      split; [|split]; cbn [async_ref async_coroutine trace current].
      * intros m c H. rewrite Hnone in H. discriminate.
      * apply async_ordered_snoc; [exact Ho1 | exact I].
      * intros m c Hin. apply elem_of_app in Hin. destruct Hin as [Hin|Hin].
        -- eapply Hkeep; [apply Hsub; exact Hin | congruence | congruence].
        -- apply list_elem_of_singleton in Hin. discriminate.
    + split; [|split]; cbn [async_ref async_coroutine]; [exact Hc1 | exact Ho1 |].
      intros m c Hin. apply (Hend Raises m c). apply Hsub, Hin.
  - destruct (async_stop s n); [|split; [exact Hcur | split; [exact Hord | exact Hran]]].
    split; [|split]; cbn [async_ref async_coroutine]; [exact Hcur | exact Hord |].
    intros m c Hin. eapply Hkeep; [exact Hin | congruence | congruence].
  - assert (Hnot : forall c, RanCleanup n c ∉ trace (async_ref s)).
    { intros c Hin. destruct (Hran n c Hin); congruence. }
    unfold async_effect_end.
    pose proof (eq_refl (obtained asyncio_wait task_of shutdown_timeout n)) as Hob.
    unfold obtained at 2 in Hob.
    destruct (asyncio_wait (task_of n) (default default_shutdown_timeout shutdown_timeout))
      as [[[c|]|]|].
    + (* the task returned a clean-up *)
      unfold run_effect_cleanup. cbn [current trace option_map].
      assert (Hin' : forall m c', RanCleanup m c' ∈ trace (async_ref s) ++ [RanCleanup n c] ->
                forall e, update (async_coroutine s) n (async_ended e) m = AsyncReturned
                          \/ update (async_coroutine s) n (async_ended e) m = AsyncRaised).
      { intros m c' Hin e. apply elem_of_app in Hin. destruct Hin as [Hin|Hin].
        - eapply Hend. exact Hin.
        - apply list_elem_of_singleton in Hin. injection Hin as -> ->.
          unfold update. rewrite Nat.eqb_refl. destruct e; auto. }
      assert (Ho' : async_ordered raises asyncio_wait task_of shutdown_timeout
                      (trace (async_ref s) ++ [RanCleanup n c])).
      { apply async_ordered_snoc; [exact Hord|]. cbn. split; [exact Hob|].
        intros u c' H. exfalso. eapply Hnot. eapply invoked_at_elem. exact H. }
      destruct (raises (trace (async_ref s)) c) eqn:Er.
      * split; [|split]; cbn [async_ref async_coroutine trace current].
        -- intros m c' H. injection H as <- <-.
           split; [exact Hob|]. split.
           ++ apply elem_of_app. right. apply list_elem_of_singleton. reflexivity.
           ++ intros u c' H. apply invoked_at_snoc_inv in H.
              destruct H as [(-> & H) | H].
              ** injection H as <-. exact Er.
              ** exfalso. eapply Hnot. eapply invoked_at_elem. exact H.
        -- exact Ho'.
        -- intros m c' Hin. apply (Hin' m c' Hin Raises).
      * split; [|split]; cbn [async_ref async_coroutine trace current].
        -- intros m c' H. discriminate.
        -- apply async_ordered_snoc; [exact Ho' | exact I].
        -- intros m c' Hin. apply elem_of_app in Hin. destruct Hin as [Hin|Hin].
           ++ apply (Hin' m c' Hin Returns).
           ++ apply list_elem_of_singleton in Hin. discriminate.
    + (* the task returned no clean-up *)
      unfold run_effect_cleanup. cbn [current trace option_map].
      split; [|split]; cbn [async_ref async_coroutine trace current].
      * intros m c' H. discriminate.
      * apply async_ordered_snoc; [exact Hord | exact I].
      * intros m c' Hin. apply elem_of_app in Hin. destruct Hin as [Hin|Hin].
        -- apply (Hend Returns m c' Hin).
        -- apply list_elem_of_singleton in Hin. discriminate.
    + (* [result()] raises *)
      split; [|split]; cbn [async_ref async_coroutine]; [exact Hcur | exact Hord |].
      intros m c Hin. apply (Hend Raises m c Hin).
    + (* the task is still pending *)
      destruct (run_effect_cleanup raises (async_ref s)) as [cf e] eqn:Ecl.
      cbn [fst snd] in *. destruct e.
      * specialize (Hnone eq_refl).
        split; [|split]; cbn [async_ref async_coroutine trace current].
        -- intros m c H. rewrite Hnone in H. discriminate.
        -- apply async_ordered_snoc; [exact Ho1 | exact I].
        -- intros m c Hin. apply elem_of_app in Hin. destruct Hin as [Hin|Hin].
           ++ apply (Hend Returns m c). apply Hsub, Hin.
           ++ apply list_elem_of_singleton in Hin. discriminate.
      * split; [|split]; cbn [async_ref async_coroutine]; [exact Hc1 | exact Ho1 |].
        intros m c Hin. apply (Hend Raises m c). apply Hsub, Hin.
  - split; [exact Hcur|]. split; [exact Hord | exact Hran].
  - split; [exact Hcur|]. split; [exact Hord | exact Hran].
Qed.

Lemma async_raising_run_schedule_ok acts s :
  async_ok raises asyncio_wait task_of shutdown_timeout s ->
  async_ok raises asyncio_wait task_of shutdown_timeout
    (async_run_schedule raises asyncio_wait task_of shutdown_timeout acts s).
Proof.
  revert s. induction acts as [|a acts IH]; intros s Hs; [exact Hs|].
  apply IH. apply async_raising_step_ok. exact Hs.
Qed.

(** X7: whatever the event loop does with the asynchronous effects of one
    slot (run them, stop them, cancel their tasks), and whichever clean-ups
    and tasks raise: whenever an effect is suspended or has ended, the slot
    holds no clean-up, or one that has been invoked and has raised each time
    (so with clean-ups that return, the [run_effect_cleanup] at the start of
    an effect finds nothing); a clean-up is invoked only for a registration
    whose task was done within the grace period, and it is the callable that
    task returned; it is invoked again only when each of its earlier
    invocations raised, so that once an invocation of it has returned it is
    not invoked again. *)
Theorem async_cleanup_only_when_obtained (acts : list Turn) :
  let s := async_run_schedule raises asyncio_wait task_of shutdown_timeout acts
             async_initial in
  (forall n c, current (async_ref s) = Some (n, c) ->
     RanCleanup n c ∈ trace (async_ref s)
     /\ forall u c', invoked_at (trace (async_ref s)) n c' u -> raises u c' = true)
  /\ forall t1 t2 n c, trace (async_ref s) = t1 ++ RanCleanup n c :: t2 ->
       asyncio_wait (task_of n) (default (1 # 10) shutdown_timeout)
       = Some (BodyReturns (Some c))
       /\ (forall u c', invoked_at t1 n c' u -> raises u c' = true)
       /\ (raises t1 c = false -> forall c', RanCleanup n c' ∉ t2).
Proof.
  intros s.
  destruct (async_raising_run_schedule_ok acts _ async_raising_ok_initial)
    as (Hcur & Hord & _).
  fold s in Hcur, Hord. split.
  { intros n c H. destruct (Hcur n c H) as (_ & H1 & H2). auto. }
  assert (Hgot : forall n c, obtained asyncio_wait task_of shutdown_timeout n = Some c ->
            asyncio_wait (task_of n) (default (1 # 10) shutdown_timeout)
            = Some (BodyReturns (Some c))).
  { intros n c H. unfold obtained in H. change default_shutdown_timeout with (1 # 10) in H.
    destruct (asyncio_wait _ _) as [[r|]|]; [congruence | discriminate | discriminate]. }
  intros t1 t2 n c Ht. destruct (Hord t1 _ t2 Ht) as (Hob & Hearlier).
  split; [apply Hgot, Hob|]. split; [exact Hearlier|].
  intros Hr c' Hin. apply list_elem_of_split in Hin. destruct Hin as (u & v & ->).
  assert (Ht' : trace (async_ref s) = (t1 ++ RanCleanup n c :: u) ++ RanCleanup n c' :: v).
  { rewrite Ht, <- app_assoc. reflexivity. }
  destruct (Hord _ _ _ Ht') as (_ & Hraised).
  rewrite (Hraised t1 c) in Hr; [discriminate|]. exists u. reflexivity.
Qed.

End AsyncRaisingFacts.

(** When nothing raises, the two halves of the asynchronous effect are those
    of [Hooks.UseEffect]. *)
Lemma async_effect_same_slot {Task : Type}
    (asyncio_wait : Task -> Q -> option (option UseEffect.Callable))
    (task_of : nat -> Task) (shutdown_timeout : option Q) (n : nat)
    (cf : UseEffect.Slot) :
  let returns_only := fun (_ : list UseEffect.Event) (_ : UseEffect.Callable) => false in
  let wait := fun task timeout =>
    option_map EffectErrors.BodyReturns (asyncio_wait task timeout) in
  EffectErrors.async_effect_begin returns_only n cf
  = (UseEffect.async_effect_begin n cf, EffectErrors.Returns)
  /\ EffectErrors.async_effect_end returns_only wait task_of shutdown_timeout n cf
     = (UseEffect.async_effect_end asyncio_wait n (task_of n) shutdown_timeout cf,
        EffectErrors.Returns).
Proof.
  intros returns_only wait.
  assert (Hcl : forall cf, EffectErrors.run_effect_cleanup returns_only cf
                           = (UseEffect.run_effect_cleanup cf, EffectErrors.Returns)).
  { intros cf0. unfold EffectErrors.run_effect_cleanup, UseEffect.run_effect_cleanup.
    destruct (UseEffect.current cf0) as [[k c]|]; reflexivity. }
  split.
  - unfold EffectErrors.async_effect_begin, UseEffect.async_effect_begin.
    rewrite Hcl. reflexivity.
  - unfold EffectErrors.async_effect_end, UseEffect.async_effect_end, wait.
    destruct (asyncio_wait (task_of n) _) as [r|]; cbn [option_map];
      rewrite Hcl; reflexivity.
Qed.

(** A clean-up that raises stays in the slot: the next asynchronous effect
    invokes it again and ends before it has created its task. *)
Example async_raising_cleanup_example :
  let raises := fun (_ : list UseEffect.Event) (c : UseEffect.Callable) => true in
  let wait := fun (task : nat) (_ : Q) =>
    Some (EffectErrors.BodyReturns (Some (100 + task)%nat)) in
  let s := EffectErrors.async_run_schedule raises wait (fun n => n) None
             [EffectErrors.Resume 0; EffectErrors.SetStop 0; EffectErrors.Resume 0;
              EffectErrors.Resume 0; EffectErrors.Resume 1]%nat
             EffectErrors.async_initial in
  UseEffect.trace (EffectErrors.async_ref s)
  = [UseEffect.CreatedTask 0; UseEffect.RanCleanup 0 100;
     UseEffect.RanCleanup 0 100]%nat
  /\ UseEffect.current (EffectErrors.async_ref s) = Some (0, 100)%nat
  /\ EffectErrors.async_coroutine s 1%nat = EffectErrors.AsyncRaised.
Proof. vm_compute. repeat split. Qed.

(** ** [_flatten_children] *)

Section FlattenFacts.
Import Vdom.

(** Induction on an object through the items of the lists and tuples in it. *)
Lemma obj_sequence_ind (P : obj -> Prop) :
  (forall l, Forall P l -> P (ListV l)) ->
  (forall l, Forall P l -> P (TupleV l)) ->
  (forall c, _is_single_child c = true -> P c) ->
  forall c, P c.
Proof.
  intros HL HT HS. fix IH 1. intros c.
  destruct c as [| | | | | |l|l| | |]; try (apply HS; reflexivity).
  - apply HL. induction l as [|x l IHl]; constructor; [apply IH | exact IHl].
  - apply HT. induction l as [|x l IHl]; constructor; [apply IH | exact IHl].
Qed.

Lemma _flatten_child_sequence (l : list obj) :
  _flatten_child (ListV l) = _flatten_children l
  /\ _flatten_child (TupleV l) = _flatten_children l.
Proof.
  split; apply _flatten_child_iterable; reflexivity.
Qed.

Lemma _flatten_child_all_single (c : obj) :
  Forall (fun x => _is_single_child x = true) (_flatten_child c).
Proof.
  induction c as [l IH|l IH|c Hc] using obj_sequence_ind.
  - rewrite (proj1 (_flatten_child_sequence l)). unfold _flatten_children.
    induction IH as [|x l Hx _ IHl]; [constructor|].
    cbn [flat_map]. apply Forall_app. split; assumption.
  - rewrite (proj2 (_flatten_child_sequence l)). unfold _flatten_children.
    induction IH as [|x l Hx _ IHl]; [constructor|].
    cbn [flat_map]. apply Forall_app. split; assumption.
  - rewrite _flatten_child_single by exact Hc. constructor; [exact Hc | constructor].
Qed.

Lemma _flatten_children_of_single (l : list obj) :
  Forall (fun x => _is_single_child x = true) l -> _flatten_children l = l.
Proof.
  unfold _flatten_children. induction 1 as [|x l Hx _ IH]; [reflexivity|].
  cbn [flat_map]. rewrite _flatten_child_single by exact Hx. rewrite IH. reflexivity.
Qed.

(** X9: what [_flatten_children] returns holds single children only (text,
    mappings, objects that cannot be iterated), however deep lists and tuples
    were nested in its argument, and flattening the result again returns it
    unchanged. *)
Theorem _flatten_children_flat (children : list obj) :
  Forall (fun x => _is_single_child x = true) (_flatten_children children)
  /\ _flatten_children (_flatten_children children) = _flatten_children children.
Proof.
  assert (H : Forall (fun x => _is_single_child x = true) (_flatten_children children)).
  { unfold _flatten_children. induction children as [|c l IH]; [constructor|].
    cbn [flat_map]. apply Forall_app. split; [apply _flatten_child_all_single | exact IH]. }
  split; [exact H | apply _flatten_children_of_single, H].
Qed.

(** X10: a list or tuple among the children is replaced, in place, by its own
    flattened items: the order of the leaves is kept. *)
Theorem _flatten_children_splices (before inner after : list obj) :
  _flatten_children (before ++ ListV inner :: after)
  = _flatten_children before ++ _flatten_children inner ++ _flatten_children after
  /\ _flatten_children (before ++ TupleV inner :: after)
     = _flatten_children before ++ _flatten_children inner ++ _flatten_children after.
Proof.
  unfold _flatten_children. rewrite !flat_map_app. cbn [flat_map].
  fold (_flatten_children inner).
  rewrite (proj1 (_flatten_child_sequence inner)), (proj2 (_flatten_child_sequence inner)).
  split; reflexivity.
Qed.

End FlattenFacts.

(** ** [separate_attributes_handlers_and_inline_javascript] *)

Section AttributeFacts.
Import Vdom VdomMore.

Lemma dict_set_fresh {A} (d : list (string * A)) (k : string) (v : A) :
  k ∉ d.*1 -> dict_set d k v = d ++ [(k, v)].
Proof.
  induction d as [|[k' v'] d IH]; intros Hk; [reflexivity|].
  cbn [dict_set]. destruct (String.eqb k' k) eqn:E.
  - apply String.eqb_eq in E. subst k'. exfalso. apply Hk. cbn. apply elem_of_cons. auto.
  - cbn. rewrite IH; [reflexivity|]. intros H. apply Hk. cbn. apply elem_of_cons. auto.
Qed.

Lemma of_kind_keys kind attributes k :
  k ∈ (of_kind kind attributes).*1 -> k ∈ attributes.*1.
Proof.
  unfold of_kind. intros H. apply list_elem_of_fmap in H.
  destruct H as ([k' v'] & -> & H). apply list_elem_of_fmap in H.
  destruct H as ([k0 v0] & [= -> ->] & H). apply list_elem_of_filter in H.
  destruct H as [_ H]. apply list_elem_of_fmap. exists (k0, v0). auto.
Qed.

Lemma of_kind_snoc kind attributes k v :
  of_kind kind (attributes ++ [(k, v)])
  = of_kind kind attributes
    ++ if decide (classify k v = kind) then [(k, stored_as k v)] else [].
Proof.
  unfold of_kind. rewrite filter_app, map_app. f_equal.
  rewrite filter_cons, filter_nil. cbn [fst snd].
  destruct (decide (classify k v = kind)); reflexivity.
Qed.

Lemma separate_snoc attributes k v :
  separate_attributes_handlers_and_inline_javascript (attributes ++ [(k, v)])
  = let '(_attributes, _event_handlers, _inline_javascript) :=
      separate_attributes_handlers_and_inline_javascript attributes in
    if callable v then
      (_attributes, dict_set _event_handlers k (to_EventHandler v), _inline_javascript)
    else if is_EventHandler v then
      (_attributes, dict_set _event_handlers k v, _inline_javascript)
    else if EVENT_ATTRIBUTE_PATTERN_match k && is_str v then
      (_attributes, _event_handlers, dict_set _inline_javascript k (to_InlineJavaScript v))
    else if is_InlineJavaScript v then
      (_attributes, _event_handlers, dict_set _inline_javascript k v)
    else
      (dict_set _attributes k v, _event_handlers, _inline_javascript).
Proof.
  unfold separate_attributes_handlers_and_inline_javascript.
  rewrite foldl_app. cbn [foldl].
  destruct (foldl _ _ attributes) as [[a h] j]. reflexivity.
Qed.

Lemma separate_attributes_by_kind (attributes : list (string * obj)) :
  NoDup attributes.*1 ->
  separate_attributes_handlers_and_inline_javascript attributes
  = (of_kind PlainAttr attributes,
     of_kind EventHandlerAttr attributes,
     of_kind InlineJavaScriptAttr attributes).
Proof.
  induction attributes as [|[k v] attributes IH] using rev_ind; intros Hnd.
  - reflexivity.
  - rewrite fmap_app in Hnd. apply NoDup_app in Hnd. destruct Hnd as (Hnd & Hk & _).
    assert (Hfresh : forall kind, k ∉ (of_kind kind attributes).*1).
    { intros kind H. apply of_kind_keys in H. apply (Hk k H). cbn.
      apply elem_of_cons. auto. }
    rewrite separate_snoc, (IH Hnd), !of_kind_snoc.
    unfold classify, stored_as.
    destruct (callable v) eqn:Ec; cbn [orb].
    { rewrite dict_set_fresh by apply Hfresh.
      repeat case_decide; try congruence. rewrite !app_nil_r. reflexivity. }
    destruct (is_EventHandler v) eqn:Eh.
    { rewrite dict_set_fresh by apply Hfresh.
      repeat case_decide; try congruence. rewrite !app_nil_r. reflexivity. }
    destruct (EVENT_ATTRIBUTE_PATTERN_match k && is_str v) eqn:Ep; cbn [orb].
    { rewrite dict_set_fresh by apply Hfresh.
      repeat case_decide; try congruence. rewrite !app_nil_r. reflexivity. }
    destruct (is_InlineJavaScript v) eqn:Ej.
    { rewrite dict_set_fresh by apply Hfresh.
      repeat case_decide; try congruence. rewrite !app_nil_r. reflexivity. }
    rewrite dict_set_fresh by apply Hfresh.
    repeat case_decide; try congruence. rewrite !app_nil_r. reflexivity.
Qed.

(** X11: the attributes (a dict: no key twice) are split three ways without
    loss and in order: the items whose value is callable or an
    [EventHandler] are the event handlers (a callable wrapped), those whose
    value is text under an event name or an [InlineJavaScript] are the inline
    scripts, and the others are the attributes that remain; every item is in
    exactly one of the three. *)
Theorem separate_attributes_partition (attributes : list (string * obj)) :
  NoDup attributes.*1 ->
  separate_attributes_handlers_and_inline_javascript attributes
  = (of_kind PlainAttr attributes,
     of_kind EventHandlerAttr attributes,
     of_kind InlineJavaScriptAttr attributes)
  /\ (length (of_kind PlainAttr attributes)
      + length (of_kind EventHandlerAttr attributes)
      + length (of_kind InlineJavaScriptAttr attributes)
      = length attributes)%nat.
Proof.
  intros Hnd. split; [apply separate_attributes_by_kind; exact Hnd|].
  clear Hnd. unfold of_kind. rewrite !length_map.
  induction attributes as [|[k v] attributes IH]; [reflexivity|].
  rewrite !filter_cons. cbn [fst snd length].
  destruct (classify k v); repeat case_decide; try congruence;
    cbn [length]; lia.
Qed.

Lemma separate_attributes_partition_witness :
  let attributes :=
    [("id", Str "x"); ("onClick", FunctionV 1); ("onLoad", Str "go()"); ("key", Num 3)] in
  separate_attributes_handlers_and_inline_javascript attributes
  = ([("id", Str "x"); ("key", Num 3)],
     [("onClick", EventHandlerV 1)],
     [("onLoad", InlineJavaScriptV "go()")])
  /\ (length (of_kind PlainAttr attributes)
      + length (of_kind EventHandlerAttr attributes)
      + length (of_kind InlineJavaScriptAttr attributes)
      = length attributes)%nat.
Proof.
  intros attributes.
  apply (separate_attributes_partition attributes).
  apply (bool_decide_unpack _). vm_compute. exact I.
Defined.

(** An event name whose fourth character is a letter outside ASCII: [\w]
    matches it, and text under the name is an inline script. *)
Example event_name_with_accent :
  EVENT_ATTRIBUTE_PATTERN_match
    (String "o" (String "n" (String "C" (String (ascii_of_nat 233) EmptyString)))) = true
  /\ EVENT_ATTRIBUTE_PATTERN_match "onC-" = false
  /\ EVENT_ATTRIBUTE_PATTERN_match "onC" = false
  /\ EVENT_ATTRIBUTE_PATTERN_match "onclick" = false.
Proof. vm_compute. repeat split. Qed.

End AttributeFacts.

(** ** [Vdom.__call__]: how it ends *)

Section CallFacts.
Import Vdom VdomMore.

Lemma json_serializable_Dict (d : list (string * obj)) :
  json_serializable (Dict d) = forallb (fun kv => json_serializable kv.2) d.
Proof.
  cbn [json_serializable]. induction d as [|[k v] d IH]; [reflexivity|].
  cbn [forallb snd]. rewrite <- IH. reflexivity.
Qed.

Lemma stored_as_plain k v : classify k v = PlainAttr -> stored_as k v = v.
Proof.
  unfold classify, stored_as.
  destruct (callable v); [discriminate|]. destruct (is_EventHandler v); [discriminate|].
  cbn [orb]. destruct (EVENT_ATTRIBUTE_PATTERN_match k && is_str v); [discriminate|].
  reflexivity.
Qed.

(** The attributes that remain do not serialize exactly when one of them has
    a value that does not. *)
Lemma plain_attributes_unserializable (attributes : list (string * obj)) :
  json_serializable (Dict (of_kind PlainAttr attributes)) = false <->
  exists k v, (k, v) ∈ attributes /\ classify k v = PlainAttr
              /\ json_serializable v = false.
Proof.
  rewrite json_serializable_Dict. unfold of_kind.
  induction attributes as [|[k v] attributes IH].
  - cbn. split; [discriminate|]. intros (k & v & H & _). apply elem_of_nil in H. destruct H.
  - rewrite filter_cons. cbn [fst snd]. case_decide as Hc.
    + cbn [map forallb fst snd]. rewrite (stored_as_plain _ _ Hc), andb_false_iff, IH.
      split.
      * intros [H | (k' & v' & H & H')].
        -- exists k, v. split; [apply elem_of_cons; auto | auto].
        -- exists k', v'. split; [apply elem_of_cons; auto | auto].
      * intros (k' & v' & H & Hk & Hv). apply elem_of_cons in H.
        destruct H as [[= -> ->] | H]; [auto | right; eauto].
    + rewrite IH. split.
      * intros (k' & v' & H & H'). exists k', v'. split; [apply elem_of_cons; auto | auto].
      * intros (k' & v' & H & Hk & Hv). apply elem_of_cons in H.
        destruct H as [[= -> ->] | H]; [congruence | eauto].
Qed.

(** X12: how [Vdom.__call__] ends, for attributes without a repeated key.  It
    raises the serialization error exactly when the check is switched on and
    an attribute that is neither an event handler nor an inline script has a
    value that [json.dumps] refuses (callables never count: they were moved
    to the event handlers).  Otherwise it raises [TypeError] exactly when the
    flattened children are not empty and the constructor does not allow
    children.  When it returns, the node carries the tag name of the
    constructor, a custom constructor or not. *)
Theorem call_outcome (check_json : bool) (self : Vdom) (arguments : list obj) :
  NoDup (separate_attributes_and_children arguments).1.*1 ->
  let attributes := (separate_attributes_and_children arguments).1 in
  let children := (separate_attributes_and_children arguments).2 in
  let refused :=
    check_json = true
    /\ exists k v, (k, v) ∈ attributes /\ classify k v = PlainAttr
                   /\ json_serializable v = false in
  (call check_json self arguments = inl JsonTypeError <-> refused)
  /\ ((exists msg, call check_json self arguments = inl (TypeError msg))
      <-> ~ refused /\ children <> [] /\ allow_children self = false)
  /\ (forall node, call check_json self arguments = inr node ->
        tagName node = __name__ self).
Proof.
  intros Hnd attributes children refused. unfold call.
  destruct (separate_attributes_and_children arguments) as [attrs chs] eqn:Es.
  cbn [fst snd] in *. subst attributes children.
  rewrite (separate_attributes_by_kind attrs Hnd).
  assert (Href : check_json && negb (json_serializable (Dict (of_kind PlainAttr attrs))) = true
                 <-> refused).
  { unfold refused. rewrite andb_true_iff, negb_true_iff, plain_attributes_unserializable.
    reflexivity. }
  destruct (check_json && negb (json_serializable (Dict (of_kind PlainAttr attrs)))) eqn:Ej.
  - assert (Hr : refused) by (apply Href; reflexivity).
    split; [split; auto|]. split; [|discriminate].
    split; [intros (msg & H); discriminate | intros (H & _); contradiction].
  - assert (Hr : ~ refused) by (intros H; apply Href in H; discriminate).
    destruct chs as [|c chs]; cbv beta iota zeta.
    + split; [split; [discriminate | contradiction]|].
      split; [|intros node H; injection H as <-; reflexivity].
      split; [intros (msg & H); discriminate | intros (_ & H & _); congruence].
    + destruct (allow_children self) eqn:Ea; cbn [negb].
      * split; [split; [discriminate | contradiction]|].
        split; [|intros node H; injection H as <-; reflexivity].
        split; [intros (msg & H); discriminate | intros (_ & _ & H); discriminate].
      * split; [split; [discriminate | contradiction]|].
        split; [|discriminate].
        split; [intros _; repeat split; [exact Hr | discriminate] | eauto].
Qed.

Lemma call_outcome_witness :
  let hr := {| __name__ := "hr"; allow_children := false;
               custom_constructor := None; import_source := None |} in
  exists msg,
    call true hr [Dict [("onClick", FunctionV 1)]; ListV [Str "x"]] = inl (TypeError msg).
Proof.
  intros hr.
  apply (proj1 (proj2 (call_outcome true hr
                         [Dict [("onClick", FunctionV 1)]; ListV [Str "x"]]
                         ltac:(apply (bool_decide_unpack _); vm_compute; exact I)))).
  split; [|split; [discriminate | reflexivity]].
  intros (_ & k & v & Hin & Hk & _).
  apply list_elem_of_singleton in Hin. injection Hin as -> ->. discriminate.
Defined.

(** ** [Vdom.__getattr__] *)

Lemma dotted_cons name attr path :
  dotted name (attr :: path) = dotted (name ++ "." ++ attr)%string path.
Proof. reflexivity. Qed.

(** X13: on a web module component (one whose import source is truthy)
    nested access through names that the normal attribute lookup does not
    find succeeds at every depth; the component reached is named by the
    dotted path, keeps the import source and whether children are allowed,
    and has no custom constructor, whatever the root had.  When the import
    source is [None] or falsy, the first such access raises
    [AttributeError]. *)
Theorem getattr_path_web_module (found_by_lookup : Vdom -> string -> bool)
    (self : Vdom) (attr : string) (path : list string) :
  (forall v a, a ∈ attr :: path -> found_by_lookup v a = false) ->
  (forall source, import_source self = Some source -> truthy source = true ->
     getattr_path found_by_lookup self (attr :: path)
     = Nested {| __name__ := dotted (__name__ self) (attr :: path);
                 allow_children := allow_children self;
                 custom_constructor := None;
                 import_source := Some source |})
  /\ ((import_source self = None
       \/ exists source, import_source self = Some source /\ truthy source = false) ->
      getattr_path found_by_lookup self (attr :: path) = AttributeError).
Proof.
  intros Hmiss. split.
  - revert self attr Hmiss.
    induction path as [|next path IH]; intros self attr Hmiss source Hs Ht.
    + cbn [getattr_path]. unfold getattr, __getattr__.
      rewrite Hmiss by (apply elem_of_cons; auto). rewrite Hs, Ht. reflexivity.
    + change (getattr_path found_by_lookup self (attr :: next :: path))
        with (match getattr found_by_lookup self attr with
              | Nested nested => getattr_path found_by_lookup nested (next :: path)
              | r => r
              end).
      unfold getattr, __getattr__.
      rewrite Hmiss by (apply elem_of_cons; auto). rewrite Hs, Ht. cbn [negb].
      rewrite (IH _ next) with (source := source);
        [rewrite dotted_cons; reflexivity | | reflexivity | exact Ht].
      intros v a Ha. apply Hmiss. apply elem_of_cons. auto.
  - intros Hs. cbn [getattr_path]. unfold getattr, __getattr__.
    rewrite Hmiss by (apply elem_of_cons; auto).
    destruct Hs as [-> | (source & -> & ->)]; reflexivity.
Qed.

Lemma getattr_path_witness :
  let source := Dict [("source", Str "pkg")] in
  let root := {| __name__ := "pkg"; allow_children := false;
                 custom_constructor := Some (fun _ _ _ _ =>
                   {| tagName := ""; key := None; children := None; attributes := None;
                      eventHandlers := None; inlineJavaScript := None;
                      importSource := None |});
                 import_source := Some source |} in
  let found_by_lookup := fun (_ : Vdom) (a : string) =>
    bool_decide (a ∈ ["allow_children"; "custom_constructor"; "import_source";
                      "__name__"; "__call__"; "__class__"]) in
  getattr_path found_by_lookup root ["Table"; "Row"]
  = Nested {| __name__ := "pkg.Table.Row"; allow_children := false;
              custom_constructor := None; import_source := Some source |}.
Proof.
  intros source root found_by_lookup.
  apply (proj1 (getattr_path_web_module found_by_lookup root "Table" ["Row"]
                  ltac:(intros v a Ha;
                        apply elem_of_cons in Ha; destruct Ha as [->|Ha];
                        [reflexivity|];
                        apply elem_of_cons in Ha; destruct Ha as [->|Ha];
                        [reflexivity|];
                        apply elem_of_nil in Ha; destruct Ha))
           source); reflexivity.
Defined.

End CallFacts.

(** ** The shared model after a turn of the render loop *)

Section SharedModelFacts.
Import Render.
Variable Model : Type.
Variable Error : Type.

Lemma evicted_lookup (ids : list string) (models : gmap string Model) (id : string) :
  evicted models ids !! id = if bool_decide (id ∈ ids) then None else models !! id.
Proof.
  unfold evicted. revert models. induction ids as [|x ids IH]; intros models.
  - cbn. rewrite bool_decide_eq_false_2; [reflexivity|]. apply not_elem_of_nil.
  - cbn [foldl]. rewrite IH. destruct (decide (id = x)) as [->|Hne].
    + rewrite (bool_decide_eq_true_2 (x ∈ x :: ids)) by (apply elem_of_cons; auto).
      rewrite lookup_delete_eq. case_bool_decide; reflexivity.
    + rewrite lookup_delete_ne by congruence.
      destruct (decide (id ∈ ids)) as [Hin|Hnin].
      * rewrite !bool_decide_eq_true_2; [reflexivity | apply elem_of_cons; auto | exact Hin].
      * rewrite !bool_decide_eq_false_2; [reflexivity| |exact Hnin].
        intros H. apply elem_of_cons in H. destruct H; [congruence | contradiction].
Qed.

(** X14: after a turn of the render loop that did not raise, the shared
    model has no entry for an id listed in [old], not even one the same
    update brought in [new]; for every other id it has the node of [new] when
    there is one and otherwise the node it had before. *)
Theorem render_iteration_model (update : LayoutUpdate Model Error)
    (self s' : SharedStateRenderer Model Error) (id : string) :
  render_iteration update self = Returned s' ->
  _models s' !! id
  = if bool_decide (id ∈ old update) then None
    else match new update !! id with
         | Some node => Some node
         | None => _models self !! id
         end.
Proof.
  intros H. unfold render_iteration in H.
  destruct (evict (old update) (new update ∪ _models self)) as [m|] eqn:He; [|discriminate].
  injection H as <-. cbn [_models].
  destruct (evict_returned _ _ _ _ He) as (-> & _).
  rewrite evicted_lookup. case_bool_decide; [reflexivity|].
  rewrite lookup_union. destruct (new update !! id), (_models self !! id); reflexivity.
Qed.

End SharedModelFacts.

Lemma render_iteration_model_witness :
  let update : Render.LayoutUpdate nat string :=
    {| Render.src := "0"; Render.new := {[ "b" := 2%nat ]};
       Render.old := ["a"]; Render.error := None |} in
  let self : Render.SharedStateRenderer nat string :=
    {| Render.root := "0"; Render._models := {[ "a" := 1%nat ]};
       Render._updates := ∅; Render.render_task_failed := false;
       Render.loops := ∅; Render.sent := ∅; Render.enqueued := [] |} in
  Render._models (Render.state_of (Render.render_iteration update self)) !! "b"
  = Some 2%nat.
Proof.
  intros update self.
  apply (render_iteration_model nat string update self
           (Render.state_of (Render.render_iteration update self)) "b").
  reflexivity.
Defined.

(** ** A client of the shared renderer: delivery in order *)

Section DeliveryFacts.
Import Render RenderMore.
Variable Model : Type.
Variable Error : Type.
Variable context : string.

Lemma step_draining r sent0 backlog seen a (s : SharedStateRenderer Model Error) :
  keeps_session context a -> draining context r sent0 backlog seen s ->
  draining context r sent0 backlog seen (step a s).
Proof.
  intros Hkeep (Hr & Hl & news & k & He & Hk & Hs & Hq).
  destruct a as [update|c|c]; cbn [step].
  - destruct (render_task_failed s).
    { split; [exact Hr|]. split; [exact Hl|]. exists news, k. auto. }
    unfold render_iteration.
    destruct (evict _ _) as [m|key m]; cbn [state_of].
    + split; [exact Hr|]. split; [exact Hl|].
      exists (news ++ [update]), k. cbn [root _models _updates loops sent enqueued].
      rewrite (app_assoc backlog news [update]).
      split; [rewrite He, app_assoc; reflexivity|].
      split; [rewrite length_app; lia|].
      split; [rewrite take_app_le by exact Hk; exact Hs|].
      rewrite lookup_fmap, Hq, (drop_app_le (backlog ++ news) [update] k Hk).
      reflexivity.
    + split; [exact Hr|]. split; [exact Hl|]. exists news, k. auto.
  - cbn in Hkeep. unfold run. split; [exact Hr|].
    cbn [root _models _updates loops sent enqueued].
    rewrite !lookup_insert_ne by exact Hkeep.
    split; [exact Hl|]. exists news, k. auto.
  - destruct (decide (c = context)) as [->|Hne].
    + unfold outgoing_step. rewrite Hl. unfold loop_turn. rewrite Hq.
      destruct (drop k (backlog ++ news)) as [|u q] eqn:Ed.
      * split; [exact Hr|]. split; [exact Hl|]. exists news, k.
        rewrite Ed. auto.
      * assert (Hu : (backlog ++ news) !! k = Some u).
        { rewrite <- (Nat.add_0_r k), <- lookup_drop, Ed. reflexivity. }
        assert (Hq' : q = drop (S k) (backlog ++ news)).
        { rewrite <- (Nat.add_1_r k), <- drop_drop, Ed. reflexivity. }
        unfold send. cbn [root _models _updates loops sent enqueued].
        split; [exact Hr|]. split; [exact Hl|].
        exists news, (S k).
        split; [exact He|].
        split; [apply lookup_lt_Some in Hu; lia|].
        cbn [root _models _updates loops sent enqueued].
        rewrite !lookup_insert_eq, Hs. cbn [default].
        rewrite (take_S_r _ _ _ Hu), map_app, app_assoc, Hr, Hq'. auto.
    + destruct (outgoing_step_other Model Error context c s Hne) as (H1 & H2 & H3 & H4 & H5).
      split; [congruence|]. split; [congruence|].
      exists news, k. rewrite H3, H4, H5. auto.
Qed.

Lemma run_schedule_draining r sent0 backlog seen acts (s : SharedStateRenderer Model Error) :
  Forall (keeps_session context) acts -> draining context r sent0 backlog seen s ->
  draining context r sent0 backlog seen (run_schedule acts s).
Proof.
  intros Hacts. revert s. induction Hacts as [|a acts Ha _ IH]; intros s Hs.
  - exact Hs.
  - apply IH. apply step_draining; assumption.
Qed.

(** X16: a client inside its outgoing loop loses nothing and gets nothing
    twice.  Whatever the event loop runs (turns of the render loop, other
    sessions, its own outgoing task) as long as [run] is not called again for
    its context, what it has been sent since, followed by what its queue
    holds, is what its queue held before followed by the updates enqueued
    since, in that order. *)
Theorem client_delivery_in_order (self : SharedStateRenderer Model Error)
    (acts : list (Action Model Error))
    (sent0 : list (Message Model Error)) (backlog : list (LayoutUpdate Model Error)) :
  loops self !! context = Some InLoop ->
  sent self !! context = Some sent0 ->
  _updates self !! context = Some backlog ->
  Forall (keeps_session context) acts ->
  let s' := run_schedule acts self in
  exists news k,
    enqueued s' = enqueued self ++ news
    /\ sent s' !! context
       = Some (sent0 ++ map (shared_outgoing (root self)) (take k (backlog ++ news)))
    /\ _updates s' !! context = Some (drop k (backlog ++ news)).
Proof.
  intros Hl Hs Hq Hacts s'.
  assert (H0 : draining context (root self) sent0 backlog (enqueued self) self).
  { split; [reflexivity|]. split; [exact Hl|]. exists [], 0%nat.
    rewrite !app_nil_r. cbn [take map drop]. rewrite ?app_nil_r.
    repeat split; auto. lia. }
  destruct (run_schedule_draining _ _ _ _ acts _ Hacts H0)
    as (_ & _ & news & k & He & _ & Hsent & Hqueue).
  exists news, k. auto.
Qed.

(** X17: a client that joins late, with updates already on its queue when
    its outgoing loop starts and the root in the shared model, is sent the
    snapshot and then those queued updates as well, although the snapshot
    already shows the model after them.  At any later moment it has been
    sent the snapshot and the first [k] of the queued and the later updates,
    its queue holds the others, the next turn of its loop sends the oldest
    of them, and as many turns as updates are queued send them all. *)
Theorem late_joiner_gets_backlog_after_snapshot (self : SharedStateRenderer Model Error)
    (acts : list (Action Model Error)) (backlog : list (LayoutUpdate Model Error)) :
  loops self !! context = Some AtStart ->
  sent self !! context = Some [] ->
  _updates self !! context = Some backlog ->
  root self ∈ dom (_models self) ->
  Forall (keeps_session context) acts ->
  let s' := run_schedule (Outgoing context :: acts) self in
  exists news k,
    enqueued s' = enqueued self ++ news
    /\ (k <= length (backlog ++ news))%nat
    /\ sent s' !! context
       = Some (snapshot self
               :: map (shared_outgoing (root self)) (take k (backlog ++ news)))
    /\ _updates s' !! context = Some (drop k (backlog ++ news))
    /\ (let turn := step (Outgoing context) s' in
        let k' := Nat.min (S k) (length (backlog ++ news)) in
        sent turn !! context
        = Some (snapshot self
                :: map (shared_outgoing (root self)) (take k' (backlog ++ news)))
        /\ _updates turn !! context = Some (drop k' (backlog ++ news)))
    /\ (let drained :=
          run_schedule
            (replicate (length (backlog ++ news) - k) (Outgoing context)) s' in
        enqueued drained = enqueued s'
        /\ sent drained !! context
           = Some (snapshot self
                   :: map (shared_outgoing (root self)) (backlog ++ news))
        /\ _updates drained !! context = Some []).
Proof.
  intros Hl Hs Hq Hroot Hacts s'.
  assert (H0 : draining context (root self) [snapshot self] backlog (enqueued self)
                 (step (Outgoing context) self)).
  { cbn [step]. unfold outgoing_step. rewrite Hl.
    rewrite bool_decide_eq_true_2 by exact Hroot.
    unfold enter_loop, send. split; [reflexivity|].
    cbn [root _models _updates loops sent enqueued].
    split; [apply lookup_insert_eq|].
    exists [], 0%nat. rewrite !app_nil_r. cbn [take map drop].
    rewrite lookup_insert_eq, Hs. cbn [default app]. rewrite ?app_nil_r.
    repeat split; auto. lia. }
  destruct (run_schedule_draining _ _ _ _ acts _ Hacts H0)
    as (Hr & Hloop & news & k & He & Hk & Hsent & Hqueue).
  change (run_schedule acts (step (Outgoing context) self)) with s'
    in Hr, Hloop, He, Hsent, Hqueue.
  exists news, k.
  split; [exact He|]. split; [exact Hk|]. split; [exact Hsent|].
  split; [exact Hqueue|]. split.
  - destruct (outgoing_turn Model Error context _ _ _ _ _ Hr Hloop Hk Hsent Hqueue)
      as (_ & _ & _ & H1 & H2).
    split; [exact H1 | exact H2].
  - apply (outgoing_drain Model Error context (root self) [snapshot self]
             (backlog ++ news) (length (backlog ++ news) - k) k s'
             Hr Hloop ltac:(lia) Hsent Hqueue).
Qed.

End DeliveryFacts.

Lemma client_delivery_witness :
  let u1 : Render.LayoutUpdate nat string :=
    {| Render.src := "1"; Render.new := {[ "1" := 1%nat ]};
       Render.old := []; Render.error := None |} in
  let u2 : Render.LayoutUpdate nat string :=
    {| Render.src := "2"; Render.new := {[ "2" := 2%nat ]};
       Render.old := []; Render.error := None |} in
  let self : Render.SharedStateRenderer nat string :=
    {| Render.root := "0"; Render._models := {[ "0" := 0%nat; "1" := 1%nat ]};
       Render._updates := {[ "client" := [u1] ]}; Render.render_task_failed := false;
       Render.loops := {[ "client" := Render.InLoop ]};
       Render.sent := {[ "client" := [] ]}; Render.enqueued := [u1] |} in
  let acts := [Render.Render u2; Render.Outgoing "client"; Render.Outgoing "client"] in
  let s' := Render.run_schedule acts self in
  exists news k,
    Render.enqueued s' = Render.enqueued self ++ news
    /\ Render.sent s' !! "client"
       = Some ([] ++ map (Render.shared_outgoing "0") (take k ([u1] ++ news)))
    /\ Render._updates s' !! "client" = Some (drop k ([u1] ++ news)).
Proof.
  intros u1 u2 self acts.
  apply (client_delivery_in_order nat string "client" self acts [] [u1]).
  - reflexivity.
  - reflexivity.
  - reflexivity.
  - repeat constructor.
Defined.

Lemma late_joiner_witness :
  let u1 : Render.LayoutUpdate nat string :=
    {| Render.src := "1"; Render.new := {[ "1" := 1%nat ]};
       Render.old := []; Render.error := None |} in
  let self : Render.SharedStateRenderer nat string :=
    {| Render.root := "0"; Render._models := {[ "0" := 0%nat; "1" := 1%nat ]};
       Render._updates := {[ "client" := [u1] ]}; Render.render_task_failed := false;
       Render.loops := {[ "client" := Render.AtStart ]};
       Render.sent := {[ "client" := [] ]}; Render.enqueued := [u1] |} in
  let acts := [Render.Outgoing "client"] in
  let s' := Render.run_schedule (Render.Outgoing "client" :: acts) self in
  exists news k,
    Render.enqueued s' = Render.enqueued self ++ news
    /\ (k <= length ([u1] ++ news))%nat
    /\ Render.sent s' !! "client"
       = Some (Render.snapshot self
               :: map (Render.shared_outgoing "0") (take k ([u1] ++ news)))
    /\ Render._updates s' !! "client" = Some (drop k ([u1] ++ news))
    /\ (let turn := Render.step (Render.Outgoing "client") s' in
        let k' := Nat.min (S k) (length ([u1] ++ news)) in
        Render.sent turn !! "client"
        = Some (Render.snapshot self
                :: map (Render.shared_outgoing "0") (take k' ([u1] ++ news)))
        /\ Render._updates turn !! "client" = Some (drop k' ([u1] ++ news)))
    /\ (let drained :=
          Render.run_schedule
            (replicate (length ([u1] ++ news) - k) (Render.Outgoing "client")) s' in
        Render.enqueued drained = Render.enqueued s'
        /\ Render.sent drained !! "client"
           = Some (Render.snapshot self
                   :: map (Render.shared_outgoing "0") ([u1] ++ news))
        /\ Render._updates drained !! "client" = Some []).
Proof.
  intros u1 self acts.
  apply (late_joiner_gets_backlog_after_snapshot nat string "client" self acts [u1]).
  - reflexivity.
  - reflexivity.
  - reflexivity.
  - apply (bool_decide_unpack _). vm_compute. exact I.
  - repeat constructor.
Defined.

(** The late joiner above, computed: the snapshot already holds node ["1"],
    and the update that brought it follows. *)
Example late_joiner_example :
  let u1 : Render.LayoutUpdate nat string :=
    {| Render.src := "1"; Render.new := {[ "1" := 1%nat ]};
       Render.old := []; Render.error := None |} in
  let self : Render.SharedStateRenderer nat string :=
    {| Render.root := "0"; Render._models := {[ "0" := 0%nat; "1" := 1%nat ]};
       Render._updates := {[ "client" := [u1] ]}; Render.render_task_failed := false;
       Render.loops := {[ "client" := Render.AtStart ]};
       Render.sent := {[ "client" := [] ]}; Render.enqueued := [u1] |} in
  Render.sent (Render.run_schedule [Render.Outgoing "client"; Render.Outgoing "client"] self)
    !! "client"
  = Some [Render.snapshot self; Render.shared_outgoing "0" u1].
Proof. reflexivity. Qed.

(** ** [join] under any interleaving *)

Section JoinAnySchedule.
Import Render.Join JoinMore.

Lemma returns_after_teardown_snoc t e :
  returns_after_teardown t ->
  (forall c, e = JoinReturns c -> exists d, RenderTaskCancelled d ∈ t) ->
  returns_after_teardown (t ++ [e]).
Proof.
  intros Ht He t1 c t2 H. apply snoc_eq_app_cons in H.
  destruct H as [(-> & <- & _) | (t2' & _ & ->)]; [eauto|].
  eapply Ht. reflexivity.
Qed.

Lemma join_ok_initial : join_ok initial.
Proof.
  split; [|split].
  - intros t1 c t2 H. destruct t1; discriminate.
  - intros c H. discriminate.
  - intros [H | (c & H)]; discriminate.
Qed.

Lemma join_step_ok a s : join_ok s -> join_ok (step a s).
Proof.
  intros (Hret & Hwoken & Hwait). destruct a as [c|c|c|c]; cbn [step].
  - destruct (pc s c) eqn:Ec; try (split; [|split]; assumption).
    destruct (_joining s) eqn:Ej; cbn [negb].
    + destruct (Hwait (or_introl eq_refl)) as (d & Hd).
      assert (Hdc : d <> c) by congruence.
      split; [exact Hret|]. split; cbn [pc _joining trace].
      * intros e He. destruct (decide (e = c)) as [->|Hne].
        -- rewrite set_pc_eq in He. discriminate.
        -- rewrite set_pc_ne in He by exact Hne. eauto.
      * intros _. exists d. rewrite set_pc_ne by exact Hdc. exact Hd.
    + split; [|split]; cbn [pc _joining trace].
      * apply returns_after_teardown_snoc; [exact Hret | discriminate].
      * intros e He. destruct (decide (e = c)) as [->|Hne].
        -- rewrite set_pc_eq in He. discriminate.
        -- rewrite set_pc_ne in He by exact Hne.
           destruct (Hwoken e He) as (d & Hd). exists d. apply elem_of_app. auto.
      * intros _. exists c. apply set_pc_eq.
  - destruct (pc s c) eqn:Ec; try (split; [|split]; assumption).
    assert (Hc : RenderTaskCancelled c
                 ∈ trace s ++ [ScopeExitEnds c; RenderTaskCancelled c; JoinReturns c]).
    { apply elem_of_app. right. apply elem_of_cons. right. apply elem_of_cons. auto. }
    split; [|split]; cbn [pc _joining trace].
    + change (trace s ++ [ScopeExitEnds c; RenderTaskCancelled c; JoinReturns c])
        with (trace s ++ [ScopeExitEnds c; RenderTaskCancelled c] ++ [JoinReturns c]).
      rewrite app_assoc. apply returns_after_teardown_snoc.
      * change (trace s ++ [ScopeExitEnds c; RenderTaskCancelled c])
          with (trace s ++ [ScopeExitEnds c] ++ [RenderTaskCancelled c]).
        rewrite app_assoc.
        apply returns_after_teardown_snoc; [|discriminate].
        apply returns_after_teardown_snoc; [exact Hret | discriminate].
      * intros _ _. exists c. apply elem_of_app. right. apply elem_of_cons. right.
        apply elem_of_cons. auto.
    + intros e _. eauto.
    + intros [H | (e & He)]; [discriminate|]. exfalso.
      destruct (decide (e = c)) as [->|Hne].
      * rewrite set_pc_eq in He. discriminate.
      * rewrite set_pc_ne in He by exact Hne. unfold wake_all in He.
        destruct (pc s e); discriminate.
  - destruct (pc s c) eqn:Ec; try (split; [|split]; assumption).
    split; [|split]; cbn [pc _joining trace].
    + apply returns_after_teardown_snoc; [exact Hret|]. intros _ _. eauto.
    + intros e He. destruct (decide (e = c)) as [->|Hne].
      * rewrite set_pc_eq in He. discriminate.
      * rewrite set_pc_ne in He by exact Hne.
        destruct (Hwoken e He) as (d & Hd). exists d. apply elem_of_app. auto.
    + intros [H | (e & He)]; [discriminate|].
      destruct (decide (e = c)) as [->|Hne].
      * rewrite set_pc_eq in He. discriminate.
      * rewrite set_pc_ne in He by exact Hne.
        destruct (Hwait (or_intror (ex_intro _ e He))) as (d & Hd).
        exists d. rewrite set_pc_ne by congruence. exact Hd.
  - assert (Hleave : pc s c = Waiting \/ pc s c = Woken ->
              join_ok {| _joining := false; pc := set_pc (pc s) c Raised;
                         trace := trace s |}).
    { intros Hc. split; [|split]; cbn [pc _joining trace].
      - exact Hret.
      - intros e He. destruct (decide (e = c)) as [->|Hne].
        + rewrite set_pc_eq in He. discriminate.
        + rewrite set_pc_ne in He by exact Hne. eauto.
      - intros [H | (e & He)]; [discriminate|].
        destruct (decide (e = c)) as [->|Hne].
        + rewrite set_pc_eq in He. discriminate.
        + rewrite set_pc_ne in He by exact Hne.
          destruct (Hwait (or_intror (ex_intro _ e He))) as (d & Hd).
          exists d. rewrite set_pc_ne by (destruct Hc; congruence). exact Hd. }
    destruct (pc s c) eqn:Ec; try (split; [|split]; assumption);
      try (apply Hleave; auto).
    split; [|split]; cbn [pc _joining trace].
    + apply returns_after_teardown_snoc; [exact Hret | discriminate].
    + intros e _. exists c. apply elem_of_app. right. apply elem_of_cons. auto.
    + intros [H | (e & He)]; [discriminate|]. exfalso.
      destruct (decide (e = c)) as [->|Hne].
      * rewrite set_pc_eq in He. discriminate.
      * rewrite set_pc_ne in He by exact Hne. unfold wake_all in He.
        destruct (pc s e); discriminate.
Qed.

Lemma join_run_ok acts s : join_ok s -> join_ok (run_schedule acts s).
Proof.
  revert s. induction acts as [|a acts IH]; intros s Hs; [exact Hs|].
  apply IH. apply join_step_ok. exact Hs.
Qed.

(** X18: however calls of [join()] interleave, one after the other or
    overlapping, no call returns before a teardown has completed: in the
    trace every return comes after a cancellation of the render task. *)
Theorem join_returns_after_a_teardown (acts : list Action) :
  returns_after_teardown (trace (run_schedule acts initial)).
Proof.
  destruct (join_run_ok acts initial join_ok_initial) as (H & _). exact H.
Qed.

(** X19: no wake-up is lost: whenever a caller is suspended on the join
    event, or the [_joining] flag is set, some caller is inside the scope
    exit, whose return sets the event. *)
Theorem join_waiter_has_teardown_in_progress (acts : list Action) :
  let s := run_schedule acts initial in
  (_joining s = true \/ exists c, pc s c = Waiting) ->
  exists d, pc s d = InScopeExit.
Proof.
  destruct (join_run_ok acts initial join_ok_initial) as (_ & _ & H). exact H.
Qed.

(** X20: the [_joining] flag does not keep two teardowns apart: a waiter
    that runs on resets it, so a schedule exists after which two callers are
    both inside the scope exit. *)
Theorem join_teardowns_can_overlap :
  exists (acts : list Action) (c d : Caller),
    c <> d
    /\ pc (run_schedule acts initial) c = InScopeExit
    /\ pc (run_schedule acts initial) d = InScopeExit.
Proof.
  exists [Call 0; Call 1; ScopeExitCompletes 0; Call 2; Resume 1; Call 3]%nat, 2%nat, 3%nat.
  split; [discriminate|]. split; reflexivity.
Qed.

End JoinAnySchedule.

Lemma join_waiter_witness :
  let s := Render.Join.run_schedule [Render.Join.Call 0; Render.Join.Call 1]%nat
             Render.Join.initial in
  exists d, Render.Join.pc s d = Render.Join.InScopeExit.
Proof.
  apply (join_waiter_has_teardown_in_progress [Render.Join.Call 0; Render.Join.Call 1]%nat).
  left. reflexivity.
Defined.

(** ** [use_memo]: the properties above at concrete memos *)

Lemma use_memo_never_reads_witness :
  let f : UseMemo.Function nat :=
    {| UseMemo.is_FunctionType := true; UseMemo.closure := [];
       UseMemo.run := fun calls => (Obj 5 (SInt 42), S calls) |} in
  exists out memo' w',
    UseMemo.use_memo (Some f) (UseMemo.Deps [Obj 3 (SInt 1)]) UseMemo.new_Memo 0%nat
    = Some (out, memo', w')
    /\ UseMemo.deps_set_with_value memo'
    /\ forall changed (g : UseMemo.Function nat) (w2 : nat),
         out = UseMemo.Setup changed -> is_Some (UseMemo.setup changed g memo' w2).
Proof.
  intros f.
  apply (use_memo_never_reads_unset_slot nat (Some f) (UseMemo.Deps [Obj 3 (SInt 1)])
           UseMemo.new_Memo 0%nat new_Memo_deps_set_with_value).
Defined.

Lemma use_memo_uninspectable_witness :
  let partial : UseMemo.Function nat :=
    {| UseMemo.is_FunctionType := false; UseMemo.closure := [];
       UseMemo.run := fun calls => (Obj 5 (SInt 42), S calls) |} in
  let memo := {| UseMemo.value := Some (Obj 5 (SInt 42)); UseMemo.deps := Some [] |} in
  UseMemo.use_memo (Some partial) UseMemo.Ellipsis memo 1%nat
  = Some (UseMemo.Value (Obj 5 (SInt 42)), memo, 2%nat)
  /\ UseMemo.use_memo None UseMemo.Ellipsis memo 1%nat
     = Some (UseMemo.Setup true, memo, 1%nat).
Proof.
  intros partial memo.
  apply (use_memo_uninspectable_always_recomputes nat partial memo 1%nat). reflexivity.
Defined.

Lemma use_memo_same_dependencies_witness :
  let f : UseMemo.Function nat :=
    {| UseMemo.is_FunctionType := true; UseMemo.closure := [];
       UseMemo.run := fun calls => (Obj 5 (SInt 42), S calls) |} in
  let g : UseMemo.Function nat :=
    {| UseMemo.is_FunctionType := true; UseMemo.closure := [];
       UseMemo.run := fun calls => (Obj 6 (SInt 43), S calls) |} in
  let d := [Obj 3 (SInt 1); Obj 4 (SStr "a")] in
  exists v,
    UseMemo.Value (Obj 5 (SInt 42)) = UseMemo.Value v
    /\ UseMemo.use_memo (Some g) (UseMemo.Deps d)
         {| UseMemo.value := Some (Obj 5 (SInt 42)); UseMemo.deps := Some d |} 1%nat
       = Some (UseMemo.Value v,
               {| UseMemo.value := Some (Obj 5 (SInt 42)); UseMemo.deps := Some d |}, 1%nat).
Proof.
  intros f g d.
  apply (use_memo_same_dependencies_again nat f g d UseMemo.new_Memo
           {| UseMemo.value := Some (Obj 5 (SInt 42)); UseMemo.deps := Some d |}
           0%nat 1%nat 1%nat (UseMemo.Value (Obj 5 (SInt 42)))).
  - repeat constructor.
  - reflexivity.
Defined.

(** A dependency that is not-a-number is never found unchanged: the memo is
    recomputed although the very same objects are passed again. *)
Example use_memo_nan_dependency_recomputes :
  let g : UseMemo.Function nat :=
    {| UseMemo.is_FunctionType := true; UseMemo.closure := [];
       UseMemo.run := fun calls => (Obj 6 (SInt 43), S calls) |} in
  let d := [Obj 3 (SFloat FNan)] in
  UseMemo.use_memo (Some g) (UseMemo.Deps d)
    {| UseMemo.value := Some (Obj 5 (SInt 42)); UseMemo.deps := Some d |} 1%nat
  = Some (UseMemo.Value (Obj 6 (SInt 43)),
          {| UseMemo.value := Some (Obj 6 (SInt 43)); UseMemo.deps := Some d |}, 2%nat).
Proof. reflexivity. Qed.
